(** * Log-linear model training (opt.py): shallow embedding and properties

    Python objects with mutable fields become records threaded through a
    state-and-exception monad; insertion-ordered Python dicts become
    association lists, the lookup caches of the indicator model become
    finite maps.

    The arithmetic is read twice.  The first reading computes with exact
    real numbers: numpy arrays of floats become lists of reals, [np.exp]
    and [np.log] become [exp] and [ln].  It describes the program wherever
    no intermediate result leaves the range of a double, and carries the
    statements about the structure of the computation (which sums are
    formed, what is looked up, what is raised by a lookup).  The second
    reading, [Float64], follows the same code with the range effects of
    double precision: overflow to an infinity, underflow to zero,
    infinities and NaN.  It carries the statements about the range of the
    probabilities and about the branch of [loglikelihood] that a zero
    probability takes. *)

From Stdlib Require Import Reals Lra Lia ZArith.
From stdpp Require Import base list gmap strings.

Local Open Scope string_scope.
Local Open Scope list_scope.

(** ** Data *)

Definition Token := string.
Definition RHS := list Token.          (* a tuple of tokens *)
Abbreviation vec := (list R).          (* a one-dimensional numpy array *)

#[global] Instance R_eq_dec : EqDecision R := Req_dec_T.

(** ** Exceptions *)

(** The two [assert] statements of the program, told apart by their message. *)
Inductive assertion :=
  | MismatchingDimensions
  | MismatchingFeatures (lhs : Token) (rhs : RHS).

(** The exception classes the program declares, followed by the built-in
    ones its operations raise. *)
Inductive exn :=
  | ParseError
  | FeatureMismatchError
  | DimensionMismatchError
  | ProbabilityZeroError
  | AssertionError (a : assertion)
  | KeyError
  | ValueError
  | IndexError
  | TypeError.

Inductive result (A : Type) :=
  | Ok (a : A)
  | Raise (e : exn).
Arguments Ok {A} a.
Arguments Raise {A} e.

Definition rbind {A B} (r : result A) (f : A -> result B) : result B :=
  match r with
  | Ok a => f a
  | Raise e => Raise e
  end.

(** A method call on an object with state [S]: it returns or raises, and
    leaves the object in a new state either way. *)
Definition M (S A : Type) : Type := S -> result A * S.

Definition ret {S A} (a : A) : M S A := fun s => (Ok a, s).
Definition raise {S A} (e : exn) : M S A := fun s => (Raise e, s).
Definition lift {S A} (r : result A) : M S A := fun s => (r, s).
Definition gets {S A} (f : S -> A) : M S A := fun s => (Ok (f s), s).
Definition bind {S A B} (m : M S A) (f : A -> M S B) : M S B :=
  fun s =>
    match m s with
    | (Ok a, s') => f a s'
    | (Raise e, s') => (Raise e, s')
    end.

Declare Scope py_scope.
Delimit Scope py_scope with py.
Notation "'let*' x ':=' m 'in' k" := (bind m (fun x => k))
  (at level 10, x pattern, m at level 100, k at level 200) : py_scope.
Notation "'let?' x ':=' r 'in' k" := (rbind r (fun x => k))
  (at level 10, x pattern, r at level 100, k at level 200) : py_scope.
Local Open Scope py_scope.

(** A list comprehension whose body may raise. *)
Fixpoint traverse {S A B} (f : A -> M S B) (l : list A) : M S (list B) :=
  match l with
  | [] => ret []
  | x :: l' => let* y := f x in let* ys := traverse f l' in ret (y :: ys)
  end.

(** A [for] loop that updates an accumulator. *)
Fixpoint foldM {S A B} (f : B -> A -> M S B) (l : list A) (acc : B) : M S B :=
  match l with
  | [] => ret acc
  | x :: l' => let* acc' := f acc x in foldM f l' acc'
  end.

Fixpoint rtraverse {A B} (f : A -> result B) (l : list A) : result (list B) :=
  match l with
  | [] => Ok []
  | x :: l' => let? y := f x in let? ys := rtraverse f l' in Ok (y :: ys)
  end.

Fixpoint rfold {A B} (f : B -> A -> result B) (l : list A) (acc : B) : result B :=
  match l with
  | [] => Ok acc
  | x :: l' => let? acc' := f acc x in rfold f l' acc'
  end.

(** ** Python dicts

    A dict iterates in insertion order; assigning to an existing key keeps
    its position. *)
Section dict.
Context {K V : Type} `{EqDecision K}.

Definition dict := list (K * V).

Fixpoint dict_get (k : K) (d : dict) : option V :=
  match d with
  | [] => None
  | (k', v) :: d' => if decide (k = k') then Some v else dict_get k d'
  end.

Fixpoint dict_set (k : K) (v : V) (d : dict) : dict :=
  match d with
  | [] => [(k, v)]
  | (k', v') :: d' =>
      if decide (k = k') then (k, v) :: d' else (k', v') :: dict_set k v d'
  end.

Definition dict_keys (d : dict) : list K := d.*1.
Definition dict_values (d : dict) : list V := d.*2.

(** [d[k]] on a plain dict. *)
Definition dict_getitem (k : K) (d : dict) : result V :=
  match dict_get k d with
  | Some v => Ok v
  | None => Raise KeyError
  end.
End dict.
Arguments dict K V : clear implicits.

(** [d[k]] on a [defaultdict(lambda: {})]: a missing key is first bound to
    a fresh empty dict. *)
Definition defaultdict_getitem {K K' V} `{EqDecision K}
    (k : K) (d : dict K (dict K' V)) : dict K' V * dict K (dict K' V) :=
  match dict_get k d with
  | Some inner => (inner, d)
  | None => ([], dict_set k [] d)
  end.

(** ** numpy *)

Fixpoint dot (a b : vec) : R :=
  match a, b with
  | x :: a', y :: b' => (x * y + dot a' b')%R
  | _, _ => 0%R
  end.

(** [np.dot] of two one-dimensional arrays. *)
Definition np_dot (a b : vec) : result R :=
  if decide (length a = length b) then Ok (dot a b) else Raise ValueError.

(** [np.zeros(n)].  A dense model built from no input has dimension
    [None], from which no vector is built; no statement below reaches
    that case. *)
Definition np_zeros (n : option nat) : result vec :=
  match n with
  | Some n => Ok (replicate n 0%R)
  | None => Raise TypeError
  end.

(** [a.max()]; numpy raises on an empty array. *)
Definition np_max (a : vec) : result R :=
  match a with
  | [] => Raise ValueError
  | x :: a' => Ok (foldr Rmax x a')
  end.

Definition np_sum (a : vec) : R := foldr Rplus 0%R a.

(** Elementwise arithmetic.  Every array the program combines has the
    model's dimension, so no shape error is modelled. *)
Definition vadd (a b : vec) : vec := zip_with Rplus a b.
Definition vsub (a b : vec) : vec := zip_with Rminus a b.
Definition vscale (c : R) (a : vec) : vec := Rmult c <$> a.

(** [v.put(i, x)] for an index in range. *)
Definition np_put (v : vec) (i : nat) (x : R) : vec := <[i := x]> v.

Definition np_array_equal (a b : vec) : bool := bool_decide (a = b).

(** [np.finfo('float').min], the most negative finite double. *)
Definition float_min : R := (- IZR ((2 ^ 53 - 1) * 2 ^ 971))%R.

(** [l.index(x)] *)
Fixpoint list_index {A} `{EqDecision A} (x : A) (l : list A) : option nat :=
  match l with
  | [] => None
  | y :: l' => if decide (x = y) then Some 0 else S <$> list_index x l'
  end.

(** ** The abstract base class [LogLinModel]

    What a subclass provides; [featvec_dot] is the hook a specialised
    implementation may override. *)
Class LogLinModel (S : Type) := {
  dim : S -> option nat;
  lhss : M S (list Token);
  rhss : Token -> M S (list RHS);
  featvec : Token -> RHS -> M S vec;
  featvec_dot : Token -> RHS -> vec -> M S R;
}.

(** The base class's own [featvec_dot]. *)
Definition default_featvec_dot {S} (featvec : Token -> RHS -> M S vec)
    (x : Token) (y : RHS) (othervec : vec) : M S R :=
  let* v := featvec x y in lift (np_dot othervec v).

Definition ProbabilityTable := dict Token (dict RHS R).
Definition FrequencyTable := dict Token (dict RHS Z).

(** The inner function [logprob] of [loglikelihood]. *)
Definition logprob (probtable : ProbabilityTable) (x : Token) (y : RHS) : result R :=
  let? row := dict_getitem x probtable in
  let? prob := dict_getitem y row in
  if decide (prob = 0%R) then Raise ProbabilityZeroError else Ok (ln prob).

(** Python's [sum] of a list of numbers. *)
Definition py_sum (l : list R) : R := foldl Rplus 0%R l.

(** The body of the [try] block of [loglikelihood]. *)
Definition loglikelihood_try (probtable : ProbabilityTable) (td : FrequencyTable) : result R :=
  rfold (fun ll '(lhs, d) =>
           let? terms := rtraverse (fun '(rhs, freq) =>
                            let? lp := logprob probtable lhs rhs in
                            Ok (IZR freq * lp)%R) d in
           Ok (ll + py_sum terms)%R)
        td 0%R.

(** [loglikelihood] once the probability table is computed: the [try]
    with its [except ProbabilityZeroError] handler. *)
Definition loglikelihood_of (probtable : ProbabilityTable) (td : FrequencyTable) : result R :=
  match loglikelihood_try probtable td with
  | Raise ProbabilityZeroError => Ok float_min
  | r => r
  end.

Definition penalty (lam : R) (weights : vec) : R :=
  (lam / 2 * sqrt (np_sum ((fun w => w * w)%R <$> weights)) ^ 2)%R.

Definition penaltygrad (lam : R) (weights : vec) : vec := vscale lam weights.

Section methods.
Context {S : Type} `{LogLinModel S}.

Definition score (weights : vec) (x : Token) (y : RHS) : M S R :=
  featvec_dot x y weights.

(** One iteration of the loop of [probs_from_model].  The source binds
    [probtable[x]] to an empty dict and fills it through that alias; here
    the row is filled first and bound to [x] at the end, which gives the
    same table.  This is the exact reading: [exp] neither overflows nor
    underflows; [Float64.probs_from_model_row] below has the range
    effects. *)
Definition probs_from_model_row (weights : vec) (probtable : ProbabilityTable)
    (x : Token) : M S ProbabilityTable :=
  let* ys := rhss x in
  let* scores := traverse (fun y => score weights x y) ys in
  let* b := lift (np_max scores) in
  let shifted_exp_scores := (fun s => exp (s - b)) <$> scores in
  let normalized_probs :=
    (fun e => (e / np_sum shifted_exp_scores)%R) <$> shifted_exp_scores in
  ret (dict_set x
         (foldl (fun row '(y, p) => dict_set y p row) []
                (zip ys normalized_probs))
         probtable).

Definition probs_from_model (weights : vec) : M S ProbabilityTable :=
  let* xs := lhss in
  foldM (probs_from_model_row weights) xs [].

Definition loglikelihood (td : FrequencyTable) (weights : vec) : M S R :=
  let* probtable := probs_from_model weights in
  lift (loglikelihood_of probtable td).

Definition loglhdgrad (td : FrequencyTable) (weights : vec) : M S vec :=
  let* probtable := probs_from_model weights in
  let* xs := lhss in
  let* expectation :=
    foldM (fun (expectation : dict Token vec) lhs =>
             let* zeros := bind (gets dim) (fun n => lift (np_zeros n)) in
             let* ys := rhss lhs in
             let* foo :=
               foldM (fun foo rhsp =>
                        let* fv := featvec lhs rhsp in
                        let* row := lift (dict_getitem lhs probtable) in
                        let* p := lift (dict_getitem rhsp row) in
                        ret (vadd foo (vscale p fv)))
                     ys zeros in
             ret (dict_set lhs foo expectation))
          xs [] in
  let* zeros := bind (gets dim) (fun n => lift (np_zeros n)) in
  foldM (fun result '(lhs, d) =>
           foldM (fun result '(rhs, freq) =>
                    let* fv := featvec lhs rhs in
                    let* e := lift (dict_getitem lhs expectation) in
                    ret (vadd result (vscale (IZR freq) (vsub fv e))))
                 d result)
        td zeros.

(** The two closures [train] hands to [scipy.optimize.minimize]. *)
Definition objective (td : FrequencyTable) (regularization_lambda : R)
    (weights : vec) : M S R :=
  let* ll := loglikelihood td weights in
  ret (penalty regularization_lambda weights - ll)%R.

Definition gradient (td : FrequencyTable) (regularization_lambda : R)
    (weights : vec) : M S vec :=
  let* g := loglhdgrad td weights in
  ret (vsub (penaltygrad regularization_lambda weights) g).
End methods.

(** ** [LogLinModelFromFile]: a feature vector stored per rule *)
Module LogLinModelFromFile.

Record t := mk {
  _rules : dict Token (dict RHS vec);
  _dim : option nat;
}.

(** One iteration of the loop of [__init__]. *)
Definition init_step (self : t) (item : Token * RHS * vec) : result t :=
  let '(lhs, rhs, feats) := item in
  let? dim' :=
    match _dim self with
    | None => Ok (Some (length feats))
    | Some d =>
        if decide (d = length feats) then Ok (Some d)
        else Raise (AssertionError MismatchingDimensions)
    end in
  let '(inner, rules) := defaultdict_getitem lhs (_rules self) in
  match dict_get rhs inner with
  | Some old_feats =>
      if np_array_equal old_feats feats then Ok (mk rules dim')
      else Raise (AssertionError (MismatchingFeatures lhs rhs))
  | None => Ok (mk (dict_set lhs (dict_set rhs feats inner) rules) dim')
  end.

(** [__init__]; when it raises no object is built. *)
Definition init (inp : list (Token * RHS * vec)) : result t :=
  rfold init_step inp (mk [] None).

Definition dim (self : t) : option nat := _dim self.

(** [lhss] and [rhss] return key views; every caller iterates over them
    at once, so the list of keys at the time of the call models them. *)
Definition lhss : M t (list Token) :=
  gets (fun self => dict_keys (_rules self)).

Definition rhss (lhs : Token) : M t (list RHS) :=
  fun self =>
    let '(inner, rules) := defaultdict_getitem lhs (_rules self) in
    (Ok (dict_keys inner), mk rules (_dim self)).

Definition featvec (lhs : Token) (rhs : RHS) : M t vec :=
  fun self =>
    let '(inner, rules) := defaultdict_getitem lhs (_rules self) in
    (dict_getitem rhs inner, mk rules (_dim self)).

#[global] Instance model : LogLinModel t := {
  dim := dim;
  lhss := lhss;
  rhss := rhss;
  featvec := featvec;
  featvec_dot := default_featvec_dot featvec;
}.
End LogLinModelFromFile.

(** ** [LogLinModelBasic]: one indicator feature per rule *)
Module LogLinModelBasic.

Record t := mk {
  _rulelist : list (Token * RHS);
  _featvecdict : gmap (Token * RHS) vec;
  _indexdict : gmap (Token * RHS) nat;
}.

Definition init (rulelist : list (Token * RHS)) : t := mk rulelist ∅ ∅.

Definition dim (self : t) : nat := length (_rulelist self).

(** [list(set(...))]: the elements without repetition.  The order in
    which a Python set iterates is not specified; one is fixed here. *)
Definition lhss : M t (list Token) :=
  gets (fun self => remove_dups (_rulelist self).*1).

Definition rhss (x : Token) : M t (list RHS) :=
  gets (fun self =>
          remove_dups (filter (fun r => x = r.1) (_rulelist self)).*2).

Definition find_index (lhs : Token) (rhs : RHS) : M t nat :=
  fun self =>
    match _indexdict self !! (lhs, rhs) with
    | Some index => (Ok index, self)
    | None =>
        match list_index (lhs, rhs) (_rulelist self) with
        | None => (Raise ValueError, self)
        | Some index =>
            (Ok index,
             mk (_rulelist self) (_featvecdict self)
                (<[(lhs, rhs) := index]> (_indexdict self)))
        end
    end.

Definition featvec (lhs : Token) (rhs : RHS) : M t vec :=
  fun self =>
    match _featvecdict self !! (lhs, rhs) with
    | Some v => (Ok v, self)
    | None =>
        (let* index := find_index lhs rhs in
         let* n := gets dim in
         let v := np_put (replicate n 0%R) index 1%R in
         fun self' =>
           (Ok v,
            mk (_rulelist self')
               (<[(lhs, rhs) := v]> (_featvecdict self'))
               (_indexdict self'))) self
    end.

Definition featvec_dot (x : Token) (y : RHS) (othervec : vec) : M t R :=
  let* index := find_index x y in
  lift (match othervec !! index with
        | Some w => Ok w
        | None => Raise IndexError
        end).

#[global] Instance model : LogLinModel t := {
  dim := fun self => Some (dim self);
  lhss := lhss;
  rhss := rhss;
  featvec := featvec;
  featvec_dot := featvec_dot;
}.
End LogLinModelBasic.

(** * The frequency table and the data of [run] *)

(** The body of the loop of [extract_training_data]:
    [td[lhs][rhs] += freq] on a defaultdict of defaultdicts of 0. *)
Definition extract_step (td : FrequencyTable) (record : Z * Token * RHS)
    : FrequencyTable :=
  let '(freq, lhs, rhs) := record in
  let '(inner, td') := defaultdict_getitem lhs td in
  dict_set lhs
    (dict_set rhs (default 0%Z (dict_get rhs inner) + freq)%Z inner) td'.

Definition extract_training_data (inp : list (Z * Token * RHS)) : FrequencyTable :=
  foldl extract_step [] inp.

(** The two lists [run] builds from the records it has read, and what it
    makes of them. *)
Definition run_model (input_data : list (Z * Token * RHS * vec))
    : result LogLinModelFromFile.t :=
  LogLinModelFromFile.init
    ((fun record : Z * Token * RHS * vec =>
        let '(freq, lhs, rhs, feats) := record in (lhs, rhs, feats))
       <$> input_data).

Definition run_td (input_data : list (Z * Token * RHS * vec)) : FrequencyTable :=
  extract_training_data
    ((fun record : Z * Token * RHS * vec =>
        let '(freq, lhs, rhs, feats) := record in (freq, lhs, rhs))
       <$> input_data).

(** * The double-precision range

    The definitions above compute with exact real numbers; they describe
    the program wherever no intermediate result leaves the range of a
    double.  What follows goes through the same code with the range effects of
    IEEE 754 double precision: a result beyond the largest double becomes
    an infinity, a result that rounds to zero becomes 0, the infinities
    and NaN combine as the standard says.  Rounding within the range is
    not modelled (a result the range holds is kept exact), zeros carry no
    sign, and the elements of weight and feature vectors are finite
    doubles given as reals. *)

Inductive float :=
  | Fin (r : R)
  | PInf
  | NInf
  | NaN.

(** Round-to-nearest sends a real of this magnitude or more to an
    infinity: half an ulp above the largest double. *)
Definition overflow_threshold : R := IZR (2 ^ 1024 - 2 ^ 970).

(** Round-to-nearest sends a real of this magnitude or less to zero: half
    the smallest positive double. *)
Definition underflow_threshold : R := (/ IZR (2 ^ 1075))%R.

(** The double an operation returns when its exact result is [r]. *)
Definition round (r : R) : float :=
  if Rle_dec overflow_threshold r then PInf
  else if Rle_dec r (- overflow_threshold) then NInf
  else if Rle_dec (Rabs r) underflow_threshold then Fin 0
  else Fin r.

Definition fneg (a : float) : float :=
  match a with
  | Fin x => Fin (- x)
  | PInf => NInf
  | NInf => PInf
  | NaN => NaN
  end.

Definition fadd (a b : float) : float :=
  match a, b with
  | NaN, _ => NaN
  | _, NaN => NaN
  | Fin x, Fin y => round (x + y)
  | PInf, NInf => NaN
  | NInf, PInf => NaN
  | PInf, _ => PInf
  | _, PInf => PInf
  | NInf, _ => NInf
  | _, NInf => NInf
  end.

Definition fsub (a b : float) : float := fadd a (fneg b).

(** An infinity times the finite [x]. *)
Definition inf_times (positive : bool) (x : R) : float :=
  if Rlt_dec 0 x then (if positive then PInf else NInf)
  else if Rlt_dec x 0 then (if positive then NInf else PInf)
  else NaN.

Definition fmul (a b : float) : float :=
  match a, b with
  | NaN, _ => NaN
  | _, NaN => NaN
  | Fin x, Fin y => round (x * y)
  | Fin x, PInf => inf_times true x
  | PInf, Fin x => inf_times true x
  | Fin x, NInf => inf_times false x
  | NInf, Fin x => inf_times false x
  | PInf, PInf => PInf
  | NInf, NInf => PInf
  | PInf, NInf => NInf
  | NInf, PInf => NInf
  end.

(** numpy's division: dividing by zero warns and returns an infinity, or
    NaN for 0/0. *)
Definition fdiv (a b : float) : float :=
  match a, b with
  | NaN, _ => NaN
  | _, NaN => NaN
  | Fin x, Fin y =>
      if decide (y = 0%R) then
        if Rlt_dec 0 x then PInf else if Rlt_dec x 0 then NInf else NaN
      else round (x / y)
  | Fin _, PInf => Fin 0
  | Fin _, NInf => Fin 0
  | PInf, Fin y => if Rlt_dec y 0 then NInf else PInf
  | NInf, Fin y => if Rlt_dec y 0 then PInf else NInf
  | PInf, PInf => NaN
  | PInf, NInf => NaN
  | NInf, PInf => NaN
  | NInf, NInf => NaN
  end.

(** [np.exp] *)
Definition fexp (a : float) : float :=
  match a with
  | Fin x => round (exp x)
  | PInf => PInf
  | NInf => Fin 0
  | NaN => NaN
  end.

(** [np.log] *)
Definition flog (a : float) : float :=
  match a with
  | Fin x =>
      if Rlt_dec 0 x then round (ln x)
      else if Rlt_dec x 0 then NaN
      else NInf
  | PInf => PInf
  | NInf => NaN
  | NaN => NaN
  end.

(** The larger of two doubles as [ndarray.max] takes it: NaN wins. *)
Definition fmax (a b : float) : float :=
  match a, b with
  | NaN, _ => NaN
  | _, NaN => NaN
  | PInf, _ => PInf
  | _, PInf => PInf
  | NInf, y => y
  | x, NInf => x
  | Fin x, Fin y => Fin (Rmax x y)
  end.

(** [prob == 0.0] *)
Definition is_zero (a : float) : bool :=
  match a with
  | Fin x => bool_decide (x = 0%R)
  | _ => false
  end.

(** ** The methods of [LogLinModel] over the doubles *)
Module Float64.

(** [a.max()]; numpy raises on an empty array. *)
Definition np_max (a : list float) : result float :=
  match a with
  | [] => Raise ValueError
  | x :: a' => Ok (foldl fmax x a')
  end.

(** [a.sum()], accumulated from left to right.  numpy adds in blocks;
    the array summed here holds exponentials, and for numbers of one
    sign the order does not change the outcome as long as rounding is
    left out. *)
Definition np_sum (a : list float) : float := foldl fadd (Fin 0) a.

(** [np.dot] of two one-dimensional arrays of finite doubles, the
    products accumulated from left to right. *)
Definition dot (a b : vec) : float :=
  foldl (fun acc '(x, y) => fadd acc (fmul (Fin x) (Fin y))) (Fin 0) (zip a b).

Definition np_dot (a b : vec) : result float :=
  if decide (length a = length b) then Ok (dot a b) else Raise ValueError.

Definition ProbabilityTable := dict Token (dict RHS float).

(** The hook [featvec_dot] with its double result; the other methods of a
    model are those of [LogLinModel]. *)
Class FeatvecDot (S : Type) := {
  featvec_dot : Token -> RHS -> vec -> M S float;
}.

(** The base class's own [featvec_dot]. *)
Definition default_featvec_dot {S} (featvec : Token -> RHS -> M S vec)
    (x : Token) (y : RHS) (othervec : vec) : M S float :=
  let* v := featvec x y in lift (np_dot othervec v).

(** The inner function [logprob] of [loglikelihood]. *)
Definition logprob (probtable : ProbabilityTable) (x : Token) (y : RHS)
    : result float :=
  let? row := dict_getitem x probtable in
  let? prob := dict_getitem y row in
  if is_zero prob then Raise ProbabilityZeroError else Ok (flog prob).

(** Python's [sum] of a list of numbers. *)
Definition py_sum (l : list float) : float := foldl fadd (Fin 0) l.

(** The body of the [try] block of [loglikelihood]; a frequency enters
    the product as the double of the same value. *)
Definition loglikelihood_try (probtable : ProbabilityTable) (td : FrequencyTable)
    : result float :=
  rfold (fun ll '(lhs, d) =>
           let? terms := rtraverse (fun '(rhs, freq) =>
                            let? lp := logprob probtable lhs rhs in
                            Ok (fmul (Fin (IZR freq)) lp)) d in
           Ok (fadd ll (py_sum terms)))
        td (Fin 0).

(** [loglikelihood] once the probability table is computed: the [try]
    with its [except ProbabilityZeroError] handler. *)
Definition loglikelihood_of (probtable : ProbabilityTable) (td : FrequencyTable)
    : result float :=
  match loglikelihood_try probtable td with
  | Raise ProbabilityZeroError => Ok (Fin float_min)
  | r => r
  end.

Section methods.
Context {S : Type} `{LogLinModel S} `{FeatvecDot S}.

Definition score (weights : vec) (x : Token) (y : RHS) : M S float :=
  featvec_dot x y weights.

(** One iteration of the loop of [probs_from_model]; the row is filled
    first and bound to [x] at the end, as above. *)
Definition probs_from_model_row (weights : vec) (probtable : ProbabilityTable)
    (x : Token) : M S ProbabilityTable :=
  let* ys := rhss x in
  let* scores := traverse (fun y => score weights x y) ys in
  let* b := lift (np_max scores) in
  let shifted_exp_scores := (fun s => fexp (fsub s b)) <$> scores in
  let normalized_probs :=
    (fun e => fdiv e (np_sum shifted_exp_scores)) <$> shifted_exp_scores in
  ret (dict_set x
         (foldl (fun row '(y, p) => dict_set y p row) []
                (zip ys normalized_probs))
         probtable).

Definition probs_from_model (weights : vec) : M S ProbabilityTable :=
  let* xs := lhss in
  foldM (probs_from_model_row weights) xs [].

Definition loglikelihood (td : FrequencyTable) (weights : vec) : M S float :=
  let* probtable := probs_from_model weights in
  lift (loglikelihood_of probtable td).
End methods.

(** [LogLinModelFromFile] inherits the hook. *)
#[global] Instance dense : FeatvecDot LogLinModelFromFile.t := {
  featvec_dot := default_featvec_dot LogLinModelFromFile.featvec;
}.

(** [LogLinModelBasic] overrides it: the entry at the rule's index. *)
Definition basic_featvec_dot (x : Token) (y : RHS) (othervec : vec)
    : M LogLinModelBasic.t float :=
  let* index := LogLinModelBasic.find_index x y in
  lift (match othervec !! index with
        | Some w => Ok (Fin w)
        | None => Raise IndexError
        end).

#[global] Instance basic : FeatvecDot LogLinModelBasic.t := {
  featvec_dot := basic_featvec_dot;
}.
End Float64.

(** * Vocabulary of the statements *)

(** ** Construction of the dense model *)

(** The feature vector stored for a rule, if any. *)
Definition stored_feats (rules : dict Token (dict RHS vec))
    (lhs : Token) (rhs : RHS) : option vec :=
  dict_get lhs rules ≫= dict_get rhs.

(** The feature vector of the first input triple for a rule. *)
Fixpoint first_feats (inp : list (Token * RHS * vec))
    (lhs : Token) (rhs : RHS) : option vec :=
  match inp with
  | [] => None
  | (l, r, f) :: inp' =>
      if decide (lhs = l /\ rhs = r) then Some f else first_feats inp' lhs rhs
  end.

(** All vectors of the input have length [d]. *)
Definition same_dims (d : nat) (inp : list (Token * RHS * vec)) : Prop :=
  Forall (fun t => length t.2 = d) inp.

(** No rule occurs in the input with two unequal vectors. *)
Definition feats_agree (inp : list (Token * RHS * vec)) : Prop :=
  forall lhs rhs f f', (lhs, rhs, f) ∈ inp -> (lhs, rhs, f') ∈ inp -> f = f'.

(** A rule table: unique keys, no LHS without RHS, all vectors of
    length [d]. *)
Record wf_rules (d : nat) (rules : dict Token (dict RHS vec)) : Prop := {
  wf_lhss : NoDup (dict_keys rules);
  wf_rhss : forall x row, (x, row) ∈ rules -> NoDup (dict_keys row);
  wf_dim : forall x row y f, (x, row) ∈ rules -> (y, f) ∈ row -> length f = d;
}.

Definition nonempty_rows (rules : dict Token (dict RHS vec)) : Prop :=
  forall x row, (x, row) ∈ rules -> row <> [].

(** What holds of the object after the loop of [__init__] has consumed
    [inp]. *)
Record init_inv (inp : list (Token * RHS * vec)) (m : LogLinModelFromFile.t) : Prop := {
  inv_dim : LogLinModelFromFile._dim m = (fun t => length t.2) <$> head inp;
  inv_same : forall d, LogLinModelFromFile._dim m = Some d -> same_dims d inp;
  inv_stored : forall lhs rhs,
    stored_feats (LogLinModelFromFile._rules m) lhs rhs = first_feats inp lhs rhs;
  inv_agree : feats_agree inp;
  inv_keys : NoDup (dict_keys (LogLinModelFromFile._rules m));
  inv_rows : forall x row,
    (x, row) ∈ LogLinModelFromFile._rules m -> NoDup (dict_keys row) /\ row <> [];
}.

(** ** The indicator model *)

(** The feature vector of the rule with index [i]. *)
Definition onehot (n i : nat) : vec := np_put (replicate n 0%R) i 1%R.

(** The caches hold what a fresh lookup would compute. *)
Record cache_ok (self : LogLinModelBasic.t) : Prop := {
  index_ok : forall k i,
    LogLinModelBasic._indexdict self !! k = Some i -> list_index k (LogLinModelBasic._rulelist self) = Some i;
  featvec_ok : forall k v,
    LogLinModelBasic._featvecdict self !! k = Some v ->
    exists i, list_index k (LogLinModelBasic._rulelist self) = Some i /\
              v = onehot (length (LogLinModelBasic._rulelist self)) i;
}.

(** A call that, from every state satisfying [P], returns [a] and leaves
    a state satisfying [P]. *)
Definition returns {S A} (P : S -> Prop) (m : M S A) (a : A) : Prop :=
  forall s, P s -> exists s', m s = (Ok a, s') /\ P s'.

(** A subclass whose object states stand for rule tables: in every state
    that represents the table [rules] with dimension [d], the five
    methods answer from that table and stay in such a state. *)
Class Lawful (S : Type) `{LogLinModel S} := {
  represents : dict Token (dict RHS vec) -> nat -> S -> Prop;
  represents_wf rules d s : represents rules d s -> wf_rules d rules;
  represents_dim rules d s : represents rules d s -> dim s = Some d;
  lhss_returns rules d :
    returns (represents rules d) lhss (dict_keys rules);
  rhss_returns rules d x row :
    dict_get x rules = Some row ->
    returns (represents rules d) (rhss x) (dict_keys row);
  featvec_returns rules d x row y f :
    dict_get x rules = Some row -> dict_get y row = Some f ->
    returns (represents rules d) (featvec x y) f;
  featvec_dot_returns rules d x row y f w :
    dict_get x rules = Some row -> dict_get y row = Some f ->
    length w = d ->
    returns (represents rules d) (featvec_dot x y w) (dot w f);
}.

(** Applying a function to every value of a dict. *)
Definition dict_map {K V W} (h : V -> W) (d : dict K V) : dict K W :=
  (fun kv => (kv.1, h kv.2)) <$> d.

(** The largest element of a non-empty list. *)
Definition maximum (l : list R) : R :=
  match l with
  | [] => 0%R
  | x :: l' => foldr Rmax x l'
  end.

(** The scores of the alternatives of one LHS. *)
Definition row_scores (weights : vec) (row : dict RHS vec) : list R :=
  dot weights <$> dict_values row.

(** The normalising constant: the sum of the exponentiated scores, each
    shifted by the largest. *)
Definition row_total (weights : vec) (row : dict RHS vec) : R :=
  let b := maximum (row_scores weights row) in
  np_sum ((fun s => exp (s - b)) <$> row_scores weights row).

(** The probability of the alternative with feature vector [f]. *)
Definition softmax_prob (weights : vec) (row : dict RHS vec) (f : vec) : R :=
  (exp (dot weights f - maximum (row_scores weights row))
   / row_total weights row)%R.

Definition probs_row (weights : vec) (row : dict RHS vec) : dict RHS R :=
  dict_map (softmax_prob weights row) row.

Definition probs_spec (weights : vec) (rules : dict Token (dict RHS vec))
    : ProbabilityTable :=
  dict_map (probs_row weights) rules.

(** ** The log-likelihood and its gradient *)

(** The entries [(lhs, rhs, freq)] of a frequency table, in iteration
    order. *)
Definition td_entries (td : FrequencyTable) : list (Token * RHS * Z) :=
  (td : list _) ≫= fun item : Token * dict RHS Z =>
    (fun entry : RHS * Z => (item.1, entry.1, entry.2)) <$> item.2.

(** The probability a table holds for a rule. *)
Definition prob_of (probtable : ProbabilityTable) (lhs : Token) (rhs : RHS)
    : option R :=
  dict_get lhs probtable ≫= dict_get rhs.

(** Every rule of the frequency table has a probability in the table. *)
Definition covers (probtable : ProbabilityTable) (td : FrequencyTable) : Prop :=
  forall lhs rhs freq,
    (lhs, rhs, freq) ∈ td_entries td -> is_Some (prob_of probtable lhs rhs).

(** Every rule of the frequency table is a rule of the model. *)
Definition td_covered (rules : dict Token (dict RHS vec)) (td : FrequencyTable)
    : Prop :=
  forall lhs rhs freq,
    (lhs, rhs, freq) ∈ td_entries td -> is_Some (stored_feats rules lhs rhs).

(** The sum over the entries of [freq * log(prob(lhs, rhs))]. *)
Definition loglikelihood_spec (probtable : ProbabilityTable)
    (td : FrequencyTable) : R :=
  np_sum ((fun '(lhs, rhs, freq) =>
             (IZR freq * ln (default 0%R (prob_of probtable lhs rhs)))%R)
            <$> td_entries td).

(** The sum of a list of vectors of length [d]. *)
Definition vsum (d : nat) (l : list vec) : vec := foldr vadd (replicate d 0%R) l.

(** The expectation vector of an LHS under a probability table:
    the sum over its alternatives of probability times feature vector. *)
Definition expectation_spec (d : nat) (probtable : ProbabilityTable)
    (rules : dict Token (dict RHS vec)) (lhs : Token) : vec :=
  vsum d ((fun alt : RHS * vec =>
             vscale (default 0%R (prob_of probtable lhs alt.1)) alt.2)
            <$> default [] (dict_get lhs rules)).

(** The gradient of the log-likelihood: the sum over the entries of
    [freq * (featvec(lhs, rhs) - expectation(lhs))]. *)
Definition grad_loglikelihood_spec (d : nat) (probtable : ProbabilityTable)
    (rules : dict Token (dict RHS vec)) (td : FrequencyTable) : vec :=
  vsum d ((fun e : Token * RHS * Z =>
             vscale (IZR e.2)
               (vsub (default [] (stored_feats rules e.1.1 e.1.2))
                     (expectation_spec d probtable rules e.1.1)))
            <$> td_entries td).

(** ** The two subclasses as lawful models *)

(** The rule table an indicator model stands for. *)
Definition rules_of (rulelist : list (Token * RHS)) : dict Token (dict RHS vec) :=
  (fun x =>
     (x, (fun y => (y, onehot (length rulelist)
                         (default 0 (list_index (x, y) rulelist))))
           <$> remove_dups (filter (fun r => x = r.1) rulelist).*2))
    <$> remove_dups rulelist.*1.

(** A dense model stands for the table it stores. *)
Definition dense_represents (rules : dict Token (dict RHS vec)) (d : nat)
    (s : LogLinModelFromFile.t) : Prop :=
  s = LogLinModelFromFile.mk rules (Some d) /\ wf_rules d rules.

(** An indicator model stands for the table of its rule list, whatever
    its caches have seen. *)
Definition basic_represents (rules : dict Token (dict RHS vec)) (d : nat)
    (s : LogLinModelBasic.t) : Prop :=
  rules = rules_of (LogLinModelBasic._rulelist s) /\
  d = length (LogLinModelBasic._rulelist s) /\ cache_ok s.

(** ** Sequences of evaluations *)

(** An evaluation the minimizer may request. *)
Inductive call :=
  | CallLoglikelihood (weights : vec)
  | CallLoglhdgrad (weights : vec)
  | CallObjective (weights : vec)
  | CallGradient (weights : vec).

Definition call_weights (c : call) : vec :=
  match c with
  | CallLoglikelihood w | CallLoglhdgrad w | CallObjective w | CallGradient w => w
  end.

(** The state of the model after an evaluation, its result dropped. *)
Definition run_call {S} `{LogLinModel S} (td : FrequencyTable) (lam : R)
    (c : call) (s : S) : S :=
  match c with
  | CallLoglikelihood w => (loglikelihood td w s).2
  | CallLoglhdgrad w => (loglhdgrad td w s).2
  | CallObjective w => (objective td lam w s).2
  | CallGradient w => (gradient td lam w s).2
  end.

(** The state of the model after a sequence of evaluations. *)
Definition after {S} `{LogLinModel S} (td : FrequencyTable) (lam : R)
    (history : list call) (s : S) : S :=
  foldl (fun s c => run_call td lam c s) s history.

(** ** Worked examples *)

Definition example_input : list (Token * RHS * vec) :=
  [("S", ["A"], [1%R]); ("S", ["B"], [0%R])].

Definition example_model : LogLinModelFromFile.t :=
  LogLinModelFromFile.mk [("S", [(["A"], [1%R]); (["B"], [0%R])])] (Some 1).

Definition example_td : FrequencyTable := [("S", [(["A"], 3%Z); (["B"], 1%Z)])].

Definition example_rulelist : list (Token * RHS) :=
  [("S", ["A"]); ("S", ["B"]); ("S", ["A"])].

(** Construction ends at the dimension check. *)
Definition dimension_failure (r : result LogLinModelFromFile.t) : Prop :=
  r = Raise DimensionMismatchError \/
  r = Raise (AssertionError MismatchingDimensions).

(** ** Frequency tables *)

(** The frequency a table holds for a rule. *)
Definition td_freq (td : FrequencyTable) (lhs : Token) (rhs : RHS) : option Z :=
  dict_get lhs td ≫= dict_get rhs.

(** The frequencies of the records of a rule, in input order. *)
Definition record_freqs (inp : list (Z * Token * RHS)) (lhs : Token) (rhs : RHS)
    : list Z :=
  (fun record : Z * Token * RHS => record.1.1)
    <$> filter (fun record : Z * Token * RHS =>
                  record.1.2 = lhs /\ record.2 = rhs) inp.

Definition Zsum (l : list Z) : Z := foldr Z.add 0%Z l.

(** A frequency table as a dict of dicts: no key twice, no LHS without
    entry. *)
Record wf_td (td : FrequencyTable) : Prop := {
  wf_td_lhss : NoDup (dict_keys td);
  wf_td_rhss : forall lhs d, (lhs, d) ∈ td -> NoDup (dict_keys d) /\ d <> [];
}.

(** The sum of the frequencies a table holds. *)
Definition td_total (td : FrequencyTable) : Z :=
  Zsum ((fun e : Token * RHS * Z => e.2) <$> td_entries td).

(** ** Entries of vectors *)

(** The entry of a vector at an index, 0 beyond its end. *)
Definition entry (i : nat) (v : vec) : R := default 0%R (v !! i).

(** ** Further examples *)

Definition example_single_input : list (Token * RHS * vec) :=
  [("T", ["C"], [3%R])].

(** ** The double-precision range *)

(** A real that is a finite double as far as its magnitude goes. *)
Definition in_range (r : R) : Prop :=
  (Rabs r < overflow_threshold)%R /\ (r = 0%R \/ (underflow_threshold < Rabs r)%R).

Definition finite (a : float) : Prop := exists r, a = Fin r.

(** [sys.maxsize]: no Python list is longer. *)
Definition sys_maxsize : Z := 2 ^ 63 - 1.

(** The real a finite double stands for. *)
Definition to_R (a : float) : R :=
  match a with
  | Fin r => r
  | _ => 0%R
  end.

(** A number of the unit interval that is zero or above the underflow
    threshold. *)
Definition unit_value (t : R) : Prop :=
  (0 <= t <= 1)%R /\ (t = 0%R \/ (underflow_threshold < t)%R).

(** The largest element of a non-empty list of doubles. *)
Definition maximum64 (l : list float) : float :=
  match l with
  | [] => Fin 0
  | x :: l' => foldl fmax x l'
  end.

(** The scores of the alternatives of one LHS. *)
Definition row_scores64 (weights : vec) (row : dict RHS vec) : list float :=
  Float64.dot weights <$> dict_values row.

(** The probability of the alternative with feature vector [f]: the
    exponential of its score less the largest score of the row, divided
    by the sum of these exponentials over the row. *)
Definition softmax_prob64 (weights : vec) (row : dict RHS vec) (f : vec) : float :=
  let scores := row_scores64 weights row in
  let b := maximum64 scores in
  fdiv (fexp (fsub (Float64.dot weights f) b))
       (Float64.np_sum ((fun s => fexp (fsub s b)) <$> scores)).

Definition probs_row64 (weights : vec) (row : dict RHS vec) : dict RHS float :=
  dict_map (softmax_prob64 weights row) row.

Definition probs_spec64 (weights : vec) (rules : dict Token (dict RHS vec))
    : Float64.ProbabilityTable :=
  dict_map (probs_row64 weights) rules.

(** The probability a table holds for a rule. *)
Definition prob_of64 (probtable : Float64.ProbabilityTable)
    (lhs : Token) (rhs : RHS) : option float :=
  dict_get lhs probtable ≫= dict_get rhs.

(** Every rule of the frequency table has a probability in the table. *)
Definition covers64 (probtable : Float64.ProbabilityTable) (td : FrequencyTable)
    : Prop :=
  forall lhs rhs freq,
    (lhs, rhs, freq) ∈ td_entries td -> is_Some (prob_of64 probtable lhs rhs).

(** The sum the [try] block accumulates: over the LHSs, the sums over
    their entries of [freq * log(prob(lhs, rhs))]. *)
Definition loglikelihood_sum64 (probtable : Float64.ProbabilityTable)
    (td : FrequencyTable) : float :=
  foldl (fun ll (item : Token * dict RHS Z) =>
           fadd ll
             (Float64.py_sum
                ((fun entry : RHS * Z =>
                    fmul (Fin (IZR entry.2))
                         (flog (default NaN (prob_of64 probtable item.1 entry.1))))
                   <$> item.2)))
        (Fin 0) td.

(** A subclass whose hook answers with the dot product of the weights and
    the stored feature vector, for weights that are doubles. *)
Class Lawful64 (S : Type) {model : LogLinModel S} {laws : Lawful S}
    {hook : Float64.FeatvecDot S} := {
  featvec_dot64_returns rules d x row y f w :
    dict_get x rules = Some row -> dict_get y row = Some f ->
    length w = d -> Forall in_range w ->
    returns (represents rules d) (Float64.featvec_dot x y w) (Float64.dot w f);
}.

(** The first exception [logprob] raises on a list of entries taken in
    order, if any. *)
Fixpoint first_raise (probtable : Float64.ProbabilityTable)
    (entries : list (Token * RHS * Z)) : option exn :=
  match entries with
  | [] => None
  | (lhs, rhs, _) :: rest =>
      match Float64.logprob probtable lhs rhs with
      | Raise e => Some e
      | Ok _ => first_raise probtable rest
      end
  end.

Definition example_steep_input : list (Token * RHS * vec) :=
  [("S", ["A"], [10%R]); ("S", ["B"], [0%R])].

Definition example_steep_model : LogLinModelFromFile.t :=
  LogLinModelFromFile.mk [("S", [(["A"], [10%R]); (["B"], [0%R])])] (Some 1).

(** * Properties *)

(** ** The monad *)

Lemma rfold_app {A B} (f : B -> A -> result B) (l1 l2 : list A) (acc : B) :
  rfold f (l1 ++ l2) acc = let? acc' := rfold f l1 acc in rfold f l2 acc'.
Proof.
  revert acc. induction l1 as [|x l1 IH]; intros acc; simpl; [done|].
  destruct (f acc x); simpl; [apply IH|done].
Qed.

(** A loop raises exactly when some iteration does, after the iterations
    before it have all returned. *)
Lemma rfold_Raise {A B} (f : B -> A -> result B) (l : list A) (acc : B) (e : exn) :
  rfold f l acc = Raise e <->
  exists pre x post acc',
    l = pre ++ x :: post /\ rfold f pre acc = Ok acc' /\ f acc' x = Raise e.
Proof.
  revert acc. induction l as [|x l IH]; intros acc; simpl.
  - split; [done|]. intros (pre & y & post & acc' & Hl & _).
    by destruct pre.
  - destruct (f acc x) as [acc1|e1] eqn:Hf; simpl.
    + rewrite IH. split.
      * intros (pre & y & post & acc' & -> & Hpre & Hy).
        exists (x :: pre), y, post, acc'. simpl. rewrite Hf. done.
      * intros (pre & y & post & acc' & Hl & Hpre & Hy).
        destruct pre as [|x' pre]; simpl in *; simplify_eq; [congruence|].
        exists pre, y, post, acc'. rewrite Hf in Hpre. done.
    + split.
      * intros [= ->]. by exists [], x, l, acc.
      * intros (pre & y & post & acc' & Hl & Hpre & Hy).
        destruct pre as [|x' pre]; simpl in *; simplify_eq; [congruence|].
        by rewrite Hf in Hpre.
Qed.

Lemma rfold_snoc_Ok {A B} (f : B -> A -> result B) (l : list A) (x : A) (acc b : B) :
  rfold f (l ++ [x]) acc = Ok b <->
  exists acc', rfold f l acc = Ok acc' /\ f acc' x = Ok b.
Proof.
  rewrite rfold_app. destruct (rfold f l acc) as [acc'|e]; simpl.
  - destruct (f acc' x) as [b'|e'] eqn:Hf; simpl; split.
    + intros [= <-]. by exists acc'.
    + intros (a & [= <-] & Hx). congruence.
    + done.
    + intros (a & [= <-] & Hx). congruence.
  - split; [done|]. by intros (a & Ha & _).
Qed.

(** ** Dicts *)

Section dict_facts.
Context {K V : Type} `{EqDecision K}.
Implicit Types (d : dict K V) (k : K) (v : V).

Lemma dict_get_set_eq k v d : dict_get k (dict_set k v d) = Some v.
Proof.
  induction d as [|[k' v'] d IH]; simpl; repeat (case_decide; simpl); done.
Qed.

Lemma dict_get_set_ne k k' v d :
  k <> k' -> dict_get k' (dict_set k v d) = dict_get k' d.
Proof.
  intros Hne. induction d as [|[k0 v0] d IH]; simpl;
    repeat (case_decide; simpl); simplify_eq; done.
Qed.

Lemma dict_get_None k d : dict_get k d = None <-> k ∉ dict_keys d.
Proof.
  unfold dict_keys. induction d as [|[k' v'] d IH]; simpl.
  - split; [intros _; apply not_elem_of_nil|done].
  - rewrite not_elem_of_cons. case_decide; [|tauto].
    split; [done|]. intros [? _]. done.
Qed.

Lemma dict_get_Some_elem k v d : dict_get k d = Some v -> (k, v) ∈ d.
Proof.
  induction d as [|[k' v'] d IH]; simpl; [done|].
  case_decide; intros; simplify_eq; [left|right; auto].
Qed.

Lemma dict_get_is_Some k d : is_Some (dict_get k d) <-> k ∈ dict_keys d.
Proof.
  rewrite <- not_eq_None_Some, dict_get_None.
  split; [apply dec_stable|auto].
Qed.

Lemma elem_dict_get k v d :
  NoDup (dict_keys d) -> (k, v) ∈ d -> dict_get k d = Some v.
Proof.
  unfold dict_keys. induction d as [|[k' v'] d IH]; simpl.
  - intros _ Hin. by apply elem_of_nil in Hin.
  - rewrite NoDup_cons, elem_of_cons. intros [Hk Hd] [Heq|Hin].
    + simplify_eq. by rewrite decide_True.
    + case_decide; [|auto]. subst. destruct Hk.
      apply list_elem_of_fmap. by exists (k', v).
Qed.

Lemma dict_set_fresh k v d :
  dict_get k d = None -> dict_set k v d = d ++ [(k, v)].
Proof.
  induction d as [|[k' v'] d IH]; simpl; [done|].
  case_decide; [done|]. intros. by rewrite IH.
Qed.

Lemma dict_keys_set_present k v d :
  is_Some (dict_get k d) -> dict_keys (dict_set k v d) = dict_keys d.
Proof.
  unfold dict_keys. induction d as [|[k' v'] d IH]; simpl.
  - by intros [? ?].
  - case_decide; simpl; [by subst|]. intros. f_equal. by apply IH.
Qed.

Lemma NoDup_dict_keys_set k v d :
  NoDup (dict_keys d) -> NoDup (dict_keys (dict_set k v d)).
Proof.
  intros Hd. destruct (dict_get k d) as [v'|] eqn:Hget.
  - by rewrite dict_keys_set_present.
  - rewrite dict_set_fresh by done. unfold dict_keys in *.
    rewrite fmap_app. apply NoDup_app. split_and!; [done| |apply NoDup_singleton].
    intros k' Hk' ->%list_elem_of_singleton.
    by apply dict_get_None in Hget.
Qed.
End dict_facts.

Section dict_more.
Context {K V : Type} `{EqDecision K}.
Implicit Types (d : dict K V) (k : K) (v : V).

Lemma dict_set_set k v v' d : dict_set k v (dict_set k v' d) = dict_set k v d.
Proof.
  induction d as [|[k0 v0] d IH]; simpl; repeat (case_decide; simpl);
    try done. by rewrite IH.
Qed.

Lemma elem_dict_set k v k' v' d :
  (k', v') ∈ dict_set k v d -> (k' = k /\ v' = v) \/ (k', v') ∈ d.
Proof.
  induction d as [|[k0 v0] d IH]; simpl.
  - intros ?%list_elem_of_singleton. simplify_eq. by left.
  - case_decide; rewrite !elem_of_cons.
    + intros [?|?]; simplify_eq; auto.
    + intros [?|?]; simplify_eq; auto. destruct IH; auto.
Qed.
End dict_more.

(** ** Construction of the dense model *)

Section dense_construction.
Import LogLinModelFromFile.

Lemma stored_feats_set rules lhs row l r :
  stored_feats (dict_set lhs row rules) l r =
  if decide (l = lhs) then dict_get r row else stored_feats rules l r.
Proof.
  unfold stored_feats. case_decide.
  - subst. by rewrite dict_get_set_eq.
  - by rewrite dict_get_set_ne.
Qed.

Lemma first_feats_app pre suf l r :
  first_feats (pre ++ suf) l r =
  match first_feats pre l r with
  | Some f => Some f
  | None => first_feats suf l r
  end.
Proof.
  induction pre as [|[[l0 r0] f0] pre IH]; simpl; [done|].
  by case_decide.
Qed.

Lemma first_feats_Some_elem inp l r f :
  first_feats inp l r = Some f -> (l, r, f) ∈ inp.
Proof.
  induction inp as [|[[l0 r0] f0] inp IH]; simpl; [done|].
  case_decide as Heq.
  - intros [= <-]. destruct Heq as [-> ->]. left.
  - right. auto.
Qed.

Lemma first_feats_None inp l r :
  first_feats inp l r = None <-> forall f, (l, r, f) ∉ inp.
Proof.
  induction inp as [|[[l0 r0] f0] inp IH]; simpl.
  - split; [intros _ f; apply not_elem_of_nil|done].
  - case_decide as Heq.
    + split; [done|]. intros Hno. destruct Heq as [-> ->].
      destruct (Hno f0). left.
    + rewrite IH. split.
      * intros Hno f [?|?]%elem_of_cons; [simplify_eq; tauto|by eapply Hno].
      * intros Hno f Hin. apply (Hno f). by right.
Qed.

Lemma first_feats_agree inp l r f :
  feats_agree inp -> (l, r, f) ∈ inp -> first_feats inp l r = Some f.
Proof.
  intros Hag Hin. destruct (first_feats inp l r) as [f'|] eqn:Hff.
  - f_equal. eapply Hag; [|done]. by apply first_feats_Some_elem.
  - destruct (proj1 (first_feats_None _ _ _) Hff f Hin).
Qed.

Lemma init_inv_nil : init_inv [] (mk [] None).
Proof.
  split; simpl; try done.
  - intros lhs rhs f f' Hin. by apply elem_of_nil in Hin.
  - apply NoDup_nil_2.
  - intros x row Hin. by apply elem_of_nil in Hin.
Qed.

Lemma feats_agree_snoc_old pre lhs rhs feats :
  feats_agree pre -> first_feats pre lhs rhs = Some feats ->
  feats_agree (pre ++ [(lhs, rhs, feats)]).
Proof.
  intros Hag Hff l r f f'. rewrite !elem_of_app, !list_elem_of_singleton.
  apply first_feats_Some_elem in Hff.
  intros [?|?] [?|?]; simplify_eq; eauto.
Qed.

Lemma feats_agree_snoc_new pre lhs rhs feats :
  feats_agree pre -> first_feats pre lhs rhs = None ->
  feats_agree (pre ++ [(lhs, rhs, feats)]).
Proof.
  intros Hag Hff l r f f'. rewrite !elem_of_app, !list_elem_of_singleton.
  rewrite first_feats_None in Hff.
  intros [?|?] [?|?]; simplify_eq; eauto; by destruct (Hff _ ltac:(eassumption)).
Qed.

(** The dimension bookkeeping of one iteration. *)
Lemma init_step_dim pre m lhs rhs feats m' :
  init_inv pre m -> init_step m (lhs, rhs, feats) = Ok m' ->
  _dim m' = (fun t => length t.2) <$> head (pre ++ [(lhs, rhs, feats)]) /\
  forall d, _dim m' = Some d -> same_dims d (pre ++ [(lhs, rhs, feats)]).
Proof.
  intros Hinv Hstep. unfold init_step in Hstep.
  assert (exists dim', (match _dim m with
      | None => Ok (Some (length feats))
      | Some d => if decide (d = length feats) then Ok (Some d)
                  else Raise (AssertionError MismatchingDimensions)
      end) = Ok dim' /\ _dim m' = dim') as (dim' & Hd & Hdm).
  { destruct (match _dim m with None => _ | Some d => _ end) as [dim'|e];
      simpl in Hstep; [|done].
    exists dim'. split; [done|].
    destruct (defaultdict_getitem lhs (_rules m)) as [inner rules].
    destruct (dict_get rhs inner); [case_match|]; by simplify_eq. }
  subst dim'. pose proof (inv_dim _ _ Hinv) as Hdim.
  pose proof (inv_same _ _ Hinv) as Hsame.
  destruct (_dim m) as [d|] eqn:Hm.
  - case_decide; simplify_eq. rewrite <- Hd. clear Hstep Hd.
    destruct pre as [|t0 pre]; [done|].
    simpl in *. split; [done|]. intros ? [= <-].
    unfold same_dims. rewrite app_comm_cons, Forall_app, Forall_singleton.
    split; [by apply Hsame|done].
  - destruct pre as [|t0 pre]; [|done]. simplify_eq. rewrite <- Hd. simpl.
    split; [done|]. intros ? [= <-]. by apply Forall_singleton.
Qed.

(** What one iteration does to the rule table. *)
Lemma init_step_Ok m lhs rhs feats m' :
  init_step m (lhs, rhs, feats) = Ok m' ->
  (stored_feats (_rules m) lhs rhs = Some feats /\ _rules m' = _rules m) \/
  (stored_feats (_rules m) lhs rhs = None /\
   _rules m' =
     dict_set lhs (dict_set rhs feats (default [] (dict_get lhs (_rules m))))
       (_rules m)).
Proof.
  unfold init_step, stored_feats, defaultdict_getitem.
  destruct (match _dim m with None => _ | Some d => _ end) as [dim'|e];
    simpl; [|done].
  destruct (dict_get lhs (_rules m)) as [inner|] eqn:Hlhs; simpl.
  - destruct (dict_get rhs inner) as [old|] eqn:Hrhs.
    + unfold np_array_equal. case_bool_decide; [|done].
      intros [= <-]. left. by subst.
    + intros [= <-]. by right.
  - intros [= <-]. right. split; [done|]. simpl. apply dict_set_set.
Qed.

(** When one iteration raises, and what. *)
Lemma init_step_Raise m lhs rhs feats e :
  init_step m (lhs, rhs, feats) = Raise e <->
  (e = AssertionError MismatchingDimensions /\
   exists d, _dim m = Some d /\ d <> length feats) \/
  (e = AssertionError (MismatchingFeatures lhs rhs) /\
   (forall d, _dim m = Some d -> d = length feats) /\
   exists old, stored_feats (_rules m) lhs rhs = Some old /\ old <> feats).
Proof.
  unfold init_step, stored_feats, defaultdict_getitem.
  destruct (_dim m) as [d|]; [case_decide|]; simpl.
  2:{ split; [intros [= <-]; left; eauto|].
      intros [[-> _]|[-> [Hd _]]]; [done|].
      destruct H. by apply Hd. }
  all: destruct (dict_get lhs (_rules m)) as [inner|] eqn:Hlhs; simpl.
  all: try destruct (dict_get rhs inner) as [old|] eqn:Hrhs; simpl.
  all: unfold np_array_equal; try case_bool_decide.
  all: split; try done.
  all: try (intros [= <-]; right; split_and!; [done|by intros ? [= <-]|by eauto]).
  all: intros [[_ (d' & ? & ?)]|(-> & _ & old' & ? & ?)]; simplify_eq; done.
Qed.

Lemma dict_set_not_nil {K V} `{EqDecision K} (k : K) (v : V) d :
  dict_set k v d <> [].
Proof. destruct d as [|[k' v'] d]; simpl; [done|]. by case_decide. Qed.

Lemma stored_feats_default rules lhs r :
  stored_feats rules lhs r = dict_get r (default [] (dict_get lhs rules)).
Proof. unfold stored_feats. by destruct (dict_get lhs rules). Qed.

Lemma first_feats_singleton lhs rhs feats l r :
  first_feats [(lhs, rhs, feats)] l r =
  if decide (l = lhs /\ r = rhs) then Some feats else None.
Proof. done. Qed.

Lemma init_step_inv pre m t m' :
  init_inv pre m -> init_step m t = Ok m' -> init_inv (pre ++ [t]) m'.
Proof.
  destruct t as [[lhs rhs] feats]. intros Hinv Hstep.
  destruct (init_step_dim _ _ _ _ _ _ Hinv Hstep) as [Hdim Hsame].
  pose proof (inv_stored _ _ Hinv) as Hst.
  destruct (init_step_Ok _ _ _ _ _ Hstep) as [[Hold Hr]|[Hnew Hr]].
  - split; try done.
    + intros l r. rewrite Hr, first_feats_app, <- Hst.
      destruct (stored_feats (_rules m) l r) eqn:Hlr; [done|].
      rewrite first_feats_singleton. case_decide as Heq; [|done].
      destruct Heq as [-> ->]. congruence.
    + apply feats_agree_snoc_old; [by apply (inv_agree _ _ Hinv)|].
      by rewrite <- Hst.
    + rewrite Hr. by apply (inv_keys _ _ Hinv).
    + rewrite Hr. by apply (inv_rows _ _ Hinv).
  - split; try done.
    + intros l r. rewrite Hr, first_feats_app, <- Hst, stored_feats_set.
      rewrite first_feats_singleton. case_decide as Hl.
      * subst l.
        destruct (decide (r = rhs)) as [->|Hne].
        -- rewrite dict_get_set_eq, Hnew. by rewrite decide_True.
        -- rewrite dict_get_set_ne by done. rewrite <- stored_feats_default.
           rewrite decide_False by tauto.
           by destruct (stored_feats (_rules m) lhs r).
      * rewrite decide_False by tauto.
        by destruct (stored_feats (_rules m) l r).
    + apply feats_agree_snoc_new; [by apply (inv_agree _ _ Hinv)|].
      by rewrite <- Hst.
    + rewrite Hr. apply NoDup_dict_keys_set, (inv_keys _ _ Hinv).
    + rewrite Hr. intros x row [[-> ->]|Hin]%elem_dict_set.
      * split; [|apply dict_set_not_nil]. apply NoDup_dict_keys_set.
        destruct (dict_get lhs (_rules m)) as [inner|] eqn:Hl; simpl.
        -- apply dict_get_Some_elem in Hl.
           by destruct (inv_rows _ _ Hinv _ _ Hl).
        -- apply NoDup_nil_2.
      * by apply (inv_rows _ _ Hinv x).
Qed.

Lemma init_inv_Ok inp m : init inp = Ok m -> init_inv inp m.
Proof.
  revert m. induction inp as [|t pre IH] using rev_ind; intros m.
  - intros [= <-]. apply init_inv_nil.
  - unfold init. intros (m0 & Hpre & Hstep)%rfold_snoc_Ok.
    eapply init_step_inv; [|done]. by apply IH.
Qed.

Lemma feats_agree_app_l pre suf : feats_agree (pre ++ suf) -> feats_agree pre.
Proof.
  intros Hag l r f f' Hf Hf'. apply (Hag l r); apply elem_of_app; by left.
Qed.

(** Construction succeeds on an input whose vectors all have one length
    and whose repeated rules carry equal vectors. *)
Lemma init_complete d inp :
  same_dims d inp -> feats_agree inp -> exists m, init inp = Ok m.
Proof.
  induction inp as [|t pre IH] using rev_ind; intros Hsame Hag.
  - by exists (mk [] None).
  - apply Forall_app in Hsame as [Hpre Ht]. rewrite Forall_singleton in Ht.
    destruct IH as [m0 Hm0]; [done|by eapply feats_agree_app_l|].
    pose proof (init_inv_Ok _ _ Hm0) as Hinv.
    destruct t as [[lhs rhs] feats]; simpl in Ht.
    destruct (init_step m0 (lhs, rhs, feats)) as [m|e] eqn:Hstep.
    { exists m. apply rfold_snoc_Ok. eauto. }
    exfalso. apply init_step_Raise in Hstep
      as [[_ (d' & Hd' & Hne)]|(_ & _ & old & Hold & Hne)].
    + rewrite (inv_dim _ _ Hinv) in Hd'.
      destruct pre as [|t0 pre]; simplify_eq/=.
      apply Forall_cons in Hpre as [Ht0 _]. congruence.
    + rewrite (inv_stored _ _ Hinv) in Hold.
      apply first_feats_Some_elem in Hold. apply Hne.
      apply (Hag lhs rhs); apply elem_of_app; [by left|right; left].
Qed.

Lemma init_Ok_dim t0 rest m :
  init (t0 :: rest) = Ok m ->
  dim m = Some (length t0.2) /\ same_dims (length t0.2) (t0 :: rest) /\
  feats_agree (t0 :: rest).
Proof.
  intros Hinv%init_inv_Ok.
  pose proof (inv_dim _ _ Hinv) as Hd. simpl in Hd.
  split_and!; [done|by apply (inv_same _ _ Hinv)|by apply (inv_agree _ _ Hinv)].
Qed.

Lemma init_dimension_failure t0 rest :
  init (t0 :: rest) = Raise (AssertionError MismatchingDimensions) <->
  exists pre t post,
    rest = pre ++ t :: post /\ length t.2 <> length t0.2 /\
    same_dims (length t0.2) pre /\ feats_agree (t0 :: pre).
Proof.
  unfold init. rewrite rfold_Raise. split.
  - intros (pre & [[lhs rhs] feats] & post & m0 & Hl & Hpre & Hstep).
    apply init_step_Raise in Hstep as [[_ (d & Hd & Hne)]|[[=] _]].
    destruct pre as [|t0' pre]; simpl in Hl.
    { simplify_eq/=. }
    injection Hl as <- ->.
    destruct (init_Ok_dim _ _ _ Hpre) as (Hdim & Hsame & Hag).
    unfold dim in Hdim. simplify_eq.
    exists pre, (lhs, rhs, feats), post. split_and!; try done.
    by apply Forall_cons in Hsame as [_ ?].
  - intros (pre & [[lhs rhs] feats] & post & -> & Hne & Hsame & Hag).
    destruct (init_complete (length t0.2) (t0 :: pre)) as [m0 Hm0];
      [by apply Forall_cons|done|].
    exists (t0 :: pre), (lhs, rhs, feats), post, m0. split_and!; [done..|].
    apply init_step_Raise. left. split; [done|].
    destruct (init_Ok_dim _ _ _ Hm0) as (Hdim & _). eauto.
Qed.

Lemma init_feature_failure d inp :
  same_dims d inp ->
  (exists lhs rhs, init inp = Raise (AssertionError (MismatchingFeatures lhs rhs)))
  <-> ~ feats_agree inp.
Proof.
  intros Hsame. split.
  - intros (lhs & rhs & Hraise) Hag.
    destruct (init_complete _ _ Hsame Hag) as [m Hm]. congruence.
  - intros Hnag. destruct (init inp) as [m|e] eqn:Hinit.
    { destruct Hnag. by apply (inv_agree _ _ (init_inv_Ok _ _ Hinit)). }
    unfold init in Hinit. apply rfold_Raise in Hinit
      as (pre & [[lhs rhs] feats] & post & m0 & -> & Hpre & Hstep).
    apply init_step_Raise in Hstep as [[_ (d' & Hd' & Hne)]|[-> _]]; [|eauto].
    exfalso. pose proof (init_inv_Ok _ _ Hpre) as Hinv.
    rewrite (inv_dim _ _ Hinv) in Hd'.
    destruct pre as [|t0 pre]; simplify_eq/=.
    apply Forall_cons in Hsame as [Ht0 Hrest].
    apply Forall_app in Hrest as [_ Hrest].
    apply Forall_cons in Hrest as [Ht _]. simpl in Ht. congruence.
Qed.

(** After construction, the stored rules are those of the input. *)
Lemma init_stored inp m lhs rhs :
  init inp = Ok m ->
  is_Some (stored_feats (_rules m) lhs rhs) <-> exists f, (lhs, rhs, f) ∈ inp.
Proof.
  intros Hinv%init_inv_Ok. rewrite (inv_stored _ _ Hinv). split.
  - intros [f Hf]. exists f. by apply first_feats_Some_elem.
  - intros [f Hf]. destruct (first_feats inp lhs rhs) eqn:Hff; [done|].
    rewrite first_feats_None in Hff. by destruct (Hff f).
Qed.

Lemma rhss_value x m :
  (rhss x m).1 = Ok (dict_keys (default [] (dict_get x (_rules m)))).
Proof.
  unfold rhss, defaultdict_getitem. by destruct (dict_get x (_rules m)).
Qed.

Lemma init_rhss inp m x :
  init inp = Ok m ->
  exists ys, (rhss x m).1 = Ok ys /\ NoDup ys /\
    forall y, y ∈ ys <-> exists f, (x, y, f) ∈ inp.
Proof.
  intros Hinit. rewrite rhss_value. simpl. eexists. split; [done|].
  pose proof (init_inv_Ok _ _ Hinit) as Hinv. split.
  - destruct (dict_get x (_rules m)) as [row|] eqn:Hx; simpl.
    + apply dict_get_Some_elem in Hx. by destruct (inv_rows _ _ Hinv _ _ Hx).
    + apply NoDup_nil_2.
  - intros y. rewrite <- (init_stored inp m x y) by done.
    rewrite stored_feats_default. by rewrite dict_get_is_Some.
Qed.

Lemma init_lhss inp m x :
  init inp = Ok m ->
  x ∈ dict_keys (_rules m) <-> exists y f, (x, y, f) ∈ inp.
Proof.
  intros Hinit. pose proof (init_inv_Ok _ _ Hinit) as Hinv.
  rewrite <- dict_get_is_Some. split.
  - intros [row Hrow]. pose proof (dict_get_Some_elem _ _ _ Hrow) as Hin.
    destruct (inv_rows _ _ Hinv _ _ Hin) as [_ Hne].
    destruct row as [|[y f] row]; [done|]. exists y.
    apply (init_stored inp m x y Hinit). unfold stored_feats.
    rewrite Hrow. simpl. rewrite decide_True by done. eauto.
  - intros (y & f & Hin).
    assert (is_Some (stored_feats (_rules m) x y)) as [f' Hf'].
    { apply (init_stored inp m x y Hinit). eauto. }
    unfold stored_feats in Hf'. by destruct (dict_get x (_rules m)).
Qed.

End dense_construction.

(** ** The indicator model *)

Section basic_model.
Import LogLinModelBasic.

Section list_index.
Context {A : Type} `{EqDecision A}.
Implicit Types (x : A) (l : list A).

Lemma list_index_Some x l i :
  list_index x l = Some i <->
  l !! i = Some x /\ forall j, j < i -> l !! j <> Some x.
Proof.
  revert i. induction l as [|y l IH]; intros i; simpl.
  - split; [done|]. by intros [? _].
  - case_decide as Hxy.
    + subst y. split.
      * intros [= <-]. split; [done|]. intros j Hj. lia.
      * intros [Hi Hfirst]. destruct i as [|i]; [done|].
        destruct (Hfirst 0); [lia|done].
    + destruct i as [|i]; simpl.
      * split; [by destruct (list_index x l)|]. intros [[= ?] _]. done.
      * split.
        -- intros Hi. destruct (list_index x l) as [i'|]; simplify_eq/=.
           destruct (proj1 (IH i) eq_refl) as [H1 H2]. split; [done|].
           intros [|j] Hj; simpl; [congruence|apply H2; lia].
        -- intros [H1 H2]. assert (list_index x l = Some i) as ->; [|done].
           apply IH. split; [done|]. intros j Hj. apply (H2 (S j)). lia.
Qed.

Lemma list_index_elem x l : x ∈ l -> is_Some (list_index x l).
Proof.
  induction l as [|y l IH]; simpl; [by intros ?%elem_of_nil|].
  case_decide; [by eauto|]. intros [?|Hin]%elem_of_cons; [done|].
  destruct (IH Hin) as [i ->]. by eauto.
Qed.

Lemma list_index_lt x l i : list_index x l = Some i -> i < length l.
Proof. intros [Hi _]%list_index_Some. by eapply lookup_lt_Some. Qed.
End list_index.

Lemma dot_zeros w n : dot w (replicate n 0%R) = 0%R.
Proof.
  revert n. induction w as [|x w IH]; intros [|n]; simpl; try done.
  rewrite IH. lra.
Qed.

Lemma dot_onehot w i r : w !! i = Some r -> dot w (onehot (length w) i) = r.
Proof.
  unfold onehot, np_put. revert i.
  induction w as [|x w IH]; intros [|i]; simpl; try done.
  - intros [= ->]. rewrite dot_zeros. lra.
  - intros Hi. rewrite IH by done. lra.
Qed.

Lemma length_onehot n i : length (onehot n i) = n.
Proof. unfold onehot, np_put. by rewrite length_insert, length_replicate. Qed.

Lemma cache_ok_init rulelist : cache_ok (init rulelist).
Proof. split; simpl; intros k ?; by rewrite lookup_empty. Qed.

(** [find_index] returns the position of the first occurrence, whatever
    the cache holds, and keeps the cache right. *)
Lemma find_index_spec self lhs rhs i :
  cache_ok self -> list_index (lhs, rhs) (_rulelist self) = Some i ->
  exists self', find_index lhs rhs self = (Ok i, self') /\
    _rulelist self' = _rulelist self /\ cache_ok self'.
Proof.
  intros Hok Hi. unfold find_index.
  destruct (_indexdict self !! (lhs, rhs)) as [j|] eqn:Hj.
  - apply (index_ok _ Hok) in Hj. exists self. by simplify_eq.
  - rewrite Hi. eexists. split_and!; [done..|]. split; simpl.
    + intros k j. destruct (decide (k = (lhs, rhs))) as [->|Hne].
      * rewrite lookup_insert_eq. congruence.
      * rewrite lookup_insert_ne by done. apply (index_ok _ Hok).
    + apply (featvec_ok _ Hok).
Qed.

Lemma find_index_missing self lhs rhs :
  cache_ok self -> list_index (lhs, rhs) (_rulelist self) = None ->
  find_index lhs rhs self = (Raise ValueError, self).
Proof.
  intros Hok Hi. unfold find_index.
  destruct (_indexdict self !! (lhs, rhs)) as [j|] eqn:Hj.
  - apply (index_ok _ Hok) in Hj. congruence.
  - by rewrite Hi.
Qed.

Lemma featvec_spec self lhs rhs i :
  cache_ok self -> list_index (lhs, rhs) (_rulelist self) = Some i ->
  exists self', featvec lhs rhs self = (Ok (onehot (dim self) i), self') /\
    _rulelist self' = _rulelist self /\ cache_ok self'.
Proof.
  intros Hok Hi. unfold featvec.
  destruct (_featvecdict self !! (lhs, rhs)) as [v|] eqn:Hv.
  - destruct (featvec_ok _ Hok _ _ Hv) as (j & Hj & ->).
    exists self. unfold dim. by simplify_eq.
  - destruct (find_index_spec _ _ _ _ Hok Hi) as (self1 & Hfind & Hrl & Hok1).
    unfold bind. rewrite Hfind. unfold gets, dim.
    eexists. split_and!; [by rewrite Hrl|done|]. split; simpl.
    + intros k j Hk. rewrite <- Hrl. by apply (index_ok _ Hok1).
    + intros k v'. destruct (decide (k = (lhs, rhs))) as [->|Hne].
      * rewrite lookup_insert_eq. intros [= <-]. by exists i.
      * rewrite lookup_insert_ne by done. rewrite <- Hrl.
        apply (featvec_ok _ Hok1).
Qed.

Lemma featvec_dot_spec self lhs rhs i w :
  cache_ok self -> list_index (lhs, rhs) (_rulelist self) = Some i ->
  length w = dim self ->
  exists self', featvec_dot lhs rhs w self = (Ok (dot w (onehot (dim self) i)), self') /\
    _rulelist self' = _rulelist self /\ cache_ok self'.
Proof.
  intros Hok Hi Hw.
  destruct (find_index_spec _ _ _ _ Hok Hi) as (self1 & Hfind & Hrl & Hok1).
  unfold featvec_dot, bind. rewrite Hfind.
  pose proof (list_index_lt _ _ _ Hi) as Hlt. fold (dim self) in Hlt.
  destruct (lookup_lt_is_Some_2 w i) as [r Hr]; [lia|].
  exists self1. unfold lift. rewrite Hr, <- Hw, (dot_onehot _ _ _ Hr). done.
Qed.

Section remove_dups.
Context {A : Type} `{EqDecision A}.

Lemma length_remove_dups_le (l : list A) : length (remove_dups l) <= length l.
Proof.
  induction l as [|x l IH]; simpl; [done|]. case_decide; simpl; lia.
Qed.

Lemma length_remove_dups_eq (l : list A) :
  length (remove_dups l) = length l <-> NoDup l.
Proof.
  induction l as [|x l IH]; simpl.
  - split; [intros _; apply NoDup_nil_2|done].
  - rewrite NoDup_cons. pose proof (length_remove_dups_le l).
    case_decide; simpl.
    + split; [lia|]. by intros [? _].
    + rewrite <- IH. split; [intros [=]; done|intros [_ ->]; done].
Qed.
End remove_dups.

(** The overridden score is the generic one. *)
Lemma basic_score self weights lhs rhs :
  cache_ok self -> (lhs, rhs) ∈ _rulelist self -> length weights = dim self ->
  exists i r,
    list_index (lhs, rhs) (_rulelist self) = Some i /\
    weights !! i = Some r /\
    (score weights lhs rhs self).1 = Ok r /\
    (default_featvec_dot featvec lhs rhs weights self).1 = Ok r.
Proof.
  intros Hok Hin Hw.
  destruct (list_index_elem _ _ Hin) as [i Hi].
  pose proof (list_index_lt _ _ _ Hi) as Hlt. fold (dim self) in Hlt.
  destruct (lookup_lt_is_Some_2 weights i) as [r Hr]; [lia|].
  exists i, r. split_and!; [done..| |].
  - destruct (featvec_dot_spec _ _ _ _ weights Hok Hi Hw) as (s1 & H1 & _).
    unfold score. simpl. rewrite H1. simpl.
    by rewrite <- Hw, (dot_onehot _ _ _ Hr).
  - destruct (featvec_spec _ _ _ _ Hok Hi) as (s1 & H1 & _).
    unfold default_featvec_dot, bind. rewrite H1. unfold lift, np_dot. simpl.
    rewrite length_onehot, decide_True by done.
    by rewrite <- Hw, (dot_onehot _ _ _ Hr).
Qed.

Lemma basic_rhss self x :
  exists ys, (rhss x self).1 = Ok ys /\ NoDup ys /\
    forall y, y ∈ ys <-> (x, y) ∈ _rulelist self.
Proof.
  eexists. split; [done|]. split; [apply NoDup_remove_dups|].
  intros y. rewrite elem_of_remove_dups, list_elem_of_fmap. split.
  - intros ([x' y'] & -> & [Hx Hin]%list_elem_of_filter). simpl in *. by subst.
  - intros Hin. exists (x, y). split; [done|]. by apply list_elem_of_filter.
Qed.

Lemma basic_lhss self :
  exists xs, (lhss self).1 = Ok xs /\ NoDup xs /\
    forall x, x ∈ xs <-> exists y, (x, y) ∈ _rulelist self.
Proof.
  eexists. split; [done|]. split; [apply NoDup_remove_dups|].
  intros x. rewrite elem_of_remove_dups, list_elem_of_fmap. split.
  - intros ([x' y'] & -> & Hin). by exists y'.
  - intros [y Hin]. by exists (x, y).
Qed.

Lemma basic_find_index_first self i lhs rhs :
  cache_ok self -> _rulelist self !! i = Some (lhs, rhs) ->
  exists j, (find_index lhs rhs self).1 = Ok j /\ j <= i /\
    _rulelist self !! j = Some (lhs, rhs) /\
    forall k, k < j -> _rulelist self !! k <> Some (lhs, rhs).
Proof.
  intros Hok Hi.
  destruct (list_index_elem (lhs, rhs) (_rulelist self)) as [j Hj].
  { by eapply list_elem_of_lookup_2. }
  destruct (find_index_spec _ _ _ _ Hok Hj) as (s1 & H1 & _).
  apply list_index_Some in Hj as [Hj Hfirst].
  exists j. rewrite H1. split_and!; [done| |done..].
  destruct (decide (j <= i)); [done|]. destruct (Hfirst i); [lia|done].
Qed.

End basic_model.

Section returns.
Context {S : Type} (P : S -> Prop).

Lemma returns_ret {A} (a : A) : returns P (ret a) a.
Proof. intros s Hs. by exists s. Qed.

Lemma returns_ret_eq {A} (a b : A) : a = b -> returns P (ret a) b.
Proof. intros ->. apply returns_ret. Qed.

Lemma returns_lift {A} (r : result A) (a : A) :
  r = Ok a -> returns P (lift r) a.
Proof. intros -> s Hs. by exists s. Qed.

Lemma returns_gets {A} (f : S -> A) (a : A) :
  (forall s, P s -> f s = a) -> returns P (gets f) a.
Proof. intros Hf s Hs. exists s. unfold gets. by rewrite (Hf s Hs). Qed.

Lemma returns_bind {A B} (m : M S A) (f : A -> M S B) (a : A) (b : B) :
  returns P m a -> returns P (f a) b -> returns P (bind m f) b.
Proof.
  intros Hm Hf s Hs. destruct (Hm s Hs) as (s1 & H1 & Hs1).
  destruct (Hf s1 Hs1) as (s2 & H2 & Hs2).
  exists s2. unfold bind. by rewrite H1.
Qed.

Lemma returns_traverse {A B} (f : A -> M S B) (g : A -> B) (l : list A) :
  (forall x, x ∈ l -> returns P (f x) (g x)) ->
  returns P (traverse f l) (g <$> l).
Proof.
  induction l as [|x l IH]; intros Hf; simpl; [apply returns_ret|].
  eapply returns_bind; [apply Hf; left|].
  eapply returns_bind; [apply IH; intros; apply Hf; by right|].
  apply returns_ret.
Qed.

Lemma returns_foldM {A B} (f : B -> A -> M S B) (g : B -> A -> B)
    (l : list A) (acc : B) :
  (forall acc x, x ∈ l -> returns P (f acc x) (g acc x)) ->
  returns P (foldM f l acc) (foldl g acc l).
Proof.
  revert acc. induction l as [|x l IH]; intros acc Hf; simpl;
    [apply returns_ret|].
  eapply returns_bind; [apply Hf; left|].
  apply IH. intros; apply Hf; by right.
Qed.

(** Two runs from states satisfying [P] return the same value. *)
Lemma returns_deterministic {A} (m : M S A) (a : A) s1 s2 :
  returns P m a -> P s1 -> P s2 ->
  (m s1).1 = Ok a /\ (m s2).1 = Ok a /\ P (m s1).2 /\ P (m s2).2.
Proof.
  intros Hm H1 H2. destruct (Hm s1 H1) as (s1' & -> & ?).
  destruct (Hm s2 H2) as (s2' & -> & ?). done.
Qed.
End returns.

(** ** Sums, maxima and the softmax *)

Lemma np_sum_app l1 l2 : np_sum (l1 ++ l2) = (np_sum l1 + np_sum l2)%R.
Proof.
  unfold np_sum. induction l1 as [|x l1 IH]; simpl; [lra|]. rewrite IH. lra.
Qed.

Lemma np_sum_nonneg l : Forall (fun x => 0 <= x)%R l -> (0 <= np_sum l)%R.
Proof.
  unfold np_sum. induction 1 as [|x l Hx Hl IH]; simpl; lra.
Qed.

Lemma np_sum_pos l :
  l <> [] -> Forall (fun x => 0 < x)%R l -> (0 < np_sum l)%R.
Proof.
  intros Hne Hl. destruct Hl as [|x l Hx Hl]; [done|].
  assert (0 <= np_sum l)%R.
  { apply np_sum_nonneg. eapply Forall_impl; [done|]. simpl. intros; lra. }
  unfold np_sum in *. simpl. lra.
Qed.

Lemma elem_le_np_sum l x :
  Forall (fun x => 0 <= x)%R l -> x ∈ l -> (x <= np_sum l)%R.
Proof.
  intros Hl Hx. apply list_elem_of_split in Hx as (l1 & l2 & ->).
  apply Forall_app in Hl as [H1 H2]. apply Forall_cons in H2 as [Hx H2].
  apply np_sum_nonneg in H1, H2. rewrite np_sum_app.
  unfold np_sum in *. simpl. lra.
Qed.

Lemma np_sum_div l t :
  np_sum ((fun e => e / t)%R <$> l) = (np_sum l / t)%R.
Proof.
  unfold np_sum. induction l as [|x l IH]; csimpl; [lra|]. rewrite IH. lra.
Qed.

Lemma foldr_Rmax_ub y l x : x = y \/ x ∈ l -> (x <= foldr Rmax y l)%R.
Proof.
  induction l as [|z l IH]; simpl.
  - intros [->|?%elem_of_nil]; [lra|done].
  - pose proof (Rmax_l z (foldr Rmax y l)).
    pose proof (Rmax_r z (foldr Rmax y l)).
    intros [->|[->|Hin]%elem_of_cons]; [|done|].
    + specialize (IH (or_introl eq_refl)). lra.
    + specialize (IH (or_intror Hin)). lra.
Qed.

(** The value subtracted from the scores is their largest. *)
Lemma maximum_ub l x : x ∈ l -> (x <= maximum l)%R.
Proof.
  destruct l as [|y l]; [by intros ?%elem_of_nil|]. simpl.
  intros [->|Hin]%elem_of_cons; apply foldr_Rmax_ub; auto.
Qed.

Lemma np_max_maximum l : l <> [] -> np_max l = Ok (maximum l).
Proof. by destruct l. Qed.

Section dict_map.
Context {K V W : Type} `{EqDecision K} (h : V -> W).
Implicit Types (d : dict K V).

Lemma dict_get_map k d : dict_get k (dict_map h d) = h <$> dict_get k d.
Proof.
  induction d as [|[k' v] d IH]; csimpl; [done|]. by case_decide.
Qed.

Lemma dict_keys_map d : dict_keys (dict_map h d) = dict_keys d.
Proof.
  unfold dict_keys, dict_map. rewrite <- list_fmap_compose.
  by apply list_fmap_ext.
Qed.

Lemma dict_values_map d : dict_values (dict_map h d) = h <$> dict_values d.
Proof.
  unfold dict_values, dict_map. rewrite <- !list_fmap_compose.
  by apply list_fmap_ext.
Qed.

Lemma elem_dict_map k w d :
  (k, w) ∈ dict_map h d <-> exists v, (k, v) ∈ d /\ w = h v.
Proof.
  unfold dict_map. rewrite list_elem_of_fmap. split.
  - intros ([k' v] & [= -> ->] & Hin). by exists v.
  - intros (v & Hin & ->). by exists (k, v).
Qed.
End dict_map.

Section softmax.
Context (weights : vec) (row : dict RHS vec).
Hypothesis Hrow : row <> [].

Lemma row_total_pos : (0 < row_total weights row)%R.
Proof.
  unfold row_total. apply np_sum_pos.
  - unfold row_scores, dict_values. by destruct row.
  - apply Forall_fmap, Forall_true. intros s. apply exp_pos.
Qed.

Lemma softmax_prob_bounds y f :
  (y, f) ∈ row -> (0 < softmax_prob weights row f <= 1)%R.
Proof.
  intros Hin. pose proof row_total_pos as Hpos. unfold softmax_prob.
  set (b := maximum (row_scores weights row)).
  pose proof (exp_pos (dot weights f - b)) as He.
  assert (exp (dot weights f - b) <= row_total weights row)%R as Hle.
  { unfold row_total. apply elem_le_np_sum.
    - apply Forall_fmap, Forall_true. intros s. left. apply exp_pos.
    - apply list_elem_of_fmap. exists (dot weights f). split; [done|].
      apply list_elem_of_fmap. exists f. split; [done|].
      apply list_elem_of_fmap. by exists (y, f). }
  split.
  - by apply Rdiv_lt_0_compat.
  - apply (Rmult_le_reg_r (row_total weights row)); [done|].
    unfold Rdiv. rewrite Rmult_assoc, Rinv_l by lra. lra.
Qed.

End softmax.

Section dict_build.
Context {K V : Type} `{EqDecision K}.
Implicit Types (d : dict K V).

(** Filling a dict with items of distinct fresh keys lists them in order. *)
Lemma foldl_dict_set_items (l acc : dict K V) :
  NoDup (dict_keys l) -> (forall k, k ∈ dict_keys l -> k ∉ dict_keys acc) ->
  foldl (fun row '(y, p) => dict_set y p row) acc l = acc ++ l.
Proof.
  revert acc. induction l as [|[k v] l IH]; intros acc Hnd Hfresh; simpl.
  - by rewrite app_nil_r.
  - unfold dict_keys in *. csimpl in *. apply NoDup_cons in Hnd as [Hk Hnd].
    rewrite dict_set_fresh.
    2:{ apply dict_get_None, Hfresh. left. }
    rewrite IH, <- app_assoc; [done..|].
    intros k' Hk'. unfold dict_keys. rewrite fmap_app, elem_of_app. csimpl.
    rewrite list_elem_of_singleton. intros [?| ->]; [|done].
    eapply Hfresh; [|done]. by right.
Qed.

Lemma foldl_dict_set_keys (h : K -> V) (l : list K) :
  NoDup l ->
  foldl (fun acc k => dict_set k (h k) acc) [] l = (fun k => (k, h k)) <$> l.
Proof.
  intros Hnd.
  pose proof (foldl_dict_set_items ((fun k => (k, h k)) <$> l) []) as Hl.
  rewrite foldl_fmap in Hl. simpl in Hl. apply Hl.
  - unfold dict_keys. rewrite <- list_fmap_compose.
    rewrite (list_fmap_ext _ Datatypes.id l) by done. by rewrite list_fmap_id.
  - intros k _. apply not_elem_of_nil.
Qed.

(** Looking every key up again walks through the dict. *)
Lemma fmap_keys_lookup {W} (phi : K -> option V -> W) d :
  NoDup (dict_keys d) ->
  (fun k => phi k (dict_get k d)) <$> dict_keys d =
  (fun kv => phi kv.1 (Some kv.2)) <$> d.
Proof.
  intros Hnd. unfold dict_keys. rewrite <- list_fmap_compose.
  apply list_fmap_ext. intros i [k v] Hi. simpl.
  by rewrite (elem_dict_get k v d Hnd (list_elem_of_lookup_2 _ _ _ Hi)).
Qed.

Lemma zip_keys_values {W} (chi : V -> W) d :
  zip (dict_keys d) (chi <$> dict_values d) = dict_map chi d.
Proof.
  unfold dict_keys, dict_values, dict_map.
  induction d as [|[k v] d IH]; csimpl; [done|]. by rewrite IH.
Qed.
End dict_build.

(** ** The probability engine *)

Section probs_from_model.
Context {S : Type} `{Lawful S}.
Context (rules : dict Token (dict RHS vec)) (d : nat) (weights : vec).
Hypothesis Hwf : wf_rules d rules.
Hypothesis Hne : nonempty_rows rules.
Hypothesis Hlen : length weights = d.

Let P := represents rules d.

Lemma scores_returns x row :
  dict_get x rules = Some row ->
  returns P (traverse (fun y => score weights x y) (dict_keys row))
    (row_scores weights row).
Proof.
  intros Hx. pose proof (dict_get_Some_elem _ _ _ Hx) as Hin.
  assert (row_scores weights row =
          (fun y => dot weights (default [] (dict_get y row))) <$>
            dict_keys row) as ->.
  { rewrite (fmap_keys_lookup (fun _ o => dot weights (default [] o)))
      by apply (wf_rhss _ _ Hwf _ _ Hin).
    unfold row_scores, dict_values. by rewrite <- list_fmap_compose. }
  apply returns_traverse. intros y [f Hy]%dict_get_is_Some.
  rewrite Hy. simpl. by eapply featvec_dot_returns.
Qed.

Lemma normalized_row row scores :
  NoDup (dict_keys row) -> scores = row_scores weights row ->
  let b := maximum scores in
  let shifted_exp_scores := (fun s => exp (s - b)) <$> scores in
  let normalized_probs :=
    (fun e => (e / np_sum shifted_exp_scores)%R) <$> shifted_exp_scores in
  foldl (fun (r : dict RHS R) '(y, p) => dict_set y p r) []
    (zip (dict_keys row) normalized_probs) =
  probs_row weights row.
Proof.
  intros Hnd -> b sh np. subst np sh b.
  transitivity (foldl (fun (r : dict RHS R) '(y, p) => dict_set y p r) []
                  (probs_row weights row)).
  - f_equal. unfold probs_row. rewrite <- zip_keys_values. f_equal.
    unfold row_scores. rewrite <- !list_fmap_compose.
    apply list_fmap_ext. intros i f Hi. simpl.
    unfold softmax_prob, row_total, row_scores.
    by rewrite <- list_fmap_compose.
  - rewrite foldl_dict_set_items; [done| |].
    + unfold probs_row. by rewrite dict_keys_map.
    + intros k _. apply not_elem_of_nil.
Qed.

Lemma probs_from_model_row_returns probtable x row :
  dict_get x rules = Some row ->
  returns P (probs_from_model_row weights probtable x)
    (dict_set x (probs_row weights row) probtable).
Proof.
  intros Hx. pose proof (dict_get_Some_elem _ _ _ Hx) as Hin.
  unfold probs_from_model_row.
  eapply returns_bind; [by eapply rhss_returns|].
  eapply returns_bind; [by apply scores_returns|].
  eapply returns_bind.
  { apply returns_lift, np_max_maximum.
    pose proof (Hne _ _ Hin). unfold row_scores, dict_values.
    by destruct row. }
  apply returns_ret_eq. f_equal. apply normalized_row; [|done].
  apply (wf_rhss _ _ Hwf _ _ Hin).
Qed.

Lemma probs_spec_foldl :
  foldl (fun acc x =>
           dict_set x (probs_row weights (default [] (dict_get x rules))) acc)
        [] (dict_keys rules) =
  probs_spec weights rules.
Proof.
  rewrite foldl_dict_set_keys by apply (wf_lhss _ _ Hwf).
  rewrite (fmap_keys_lookup
             (fun x o => (x, probs_row weights (default [] o))))
    by apply (wf_lhss _ _ Hwf).
  done.
Qed.

Lemma probs_from_model_returns :
  returns P (probs_from_model weights) (probs_spec weights rules).
Proof.
  unfold probs_from_model.
  eapply returns_bind; [apply lhss_returns|].
  rewrite <- probs_spec_foldl. apply returns_foldM.
  intros acc x [row Hx]%dict_get_is_Some. rewrite Hx. simpl.
  by apply probs_from_model_row_returns.
Qed.
End probs_from_model.

(** ** The log-likelihood *)

Lemma foldl_Rplus a l : foldl Rplus a l = (a + np_sum l)%R.
Proof.
  unfold np_sum. revert a. induction l as [|x l IH]; intros a; simpl; [lra|].
  rewrite IH. lra.
Qed.

Lemma py_sum_np_sum l : py_sum l = np_sum l.
Proof. unfold py_sum. rewrite foldl_Rplus. lra. Qed.

Lemma rtraverse_Ok {A B} (f : A -> result B) (g : A -> B) (l : list A) :
  (forall x, x ∈ l -> f x = Ok (g x)) -> rtraverse f l = Ok (g <$> l).
Proof.
  induction l as [|x l IH]; intros Hf; simpl; [done|].
  rewrite Hf by left. simpl. rewrite IH; [done|]. intros; apply Hf; by right.
Qed.

Lemma rtraverse_Ok_inv {A B} (f : A -> result B) (l : list A) ys x :
  rtraverse f l = Ok ys -> x ∈ l -> exists y, f x = Ok y.
Proof.
  revert ys. induction l as [|z l IH]; intros ys; simpl.
  - by intros _ ?%elem_of_nil.
  - destruct (f z) as [y|e] eqn:Hz; simpl; [|done].
    destruct (rtraverse f l) as [ys'|e]; simpl; [|done].
    intros _ [->|Hin]%elem_of_cons; [eauto|]. by eapply IH.
Qed.

Lemma rtraverse_Raise {A B} (f : A -> result B) (l : list A) e :
  rtraverse f l = Raise e -> exists x, x ∈ l /\ f x = Raise e.
Proof.
  induction l as [|z l IH]; simpl; [done|].
  destruct (f z) as [y|e'] eqn:Hz; simpl.
  - destruct (rtraverse f l) as [ys'|e']; simpl; [done|].
    intros [= ->]. destruct IH as (x & Hx & Hfx); [done|].
    exists x. split; [by right|done].
  - intros [= ->]. exists z. split; [left|done].
Qed.

Section loglikelihood.
Context (probtable : ProbabilityTable).

(** The loop body of the [try] block. *)
Let body (ll : R) (item : Token * dict RHS Z) : result R :=
  let '(lhs, d) := item in
  let? terms := rtraverse (fun '(rhs, freq) =>
                   let? lp := logprob probtable lhs rhs in
                   Ok (IZR freq * lp)%R) d in
  Ok (ll + py_sum terms)%R.

Lemma loglikelihood_try_Ok (g : Token -> RHS -> R) td acc :
  (forall lhs rhs freq, (lhs, rhs, freq) ∈ td_entries td ->
     logprob probtable lhs rhs = Ok (g lhs rhs)) ->
  rfold body td acc =
  Ok (acc + np_sum ((fun e => IZR e.2 * g e.1.1 e.1.2)%R <$> td_entries td))%R.
Proof.
  revert acc. induction td as [|[lhs d] td IH]; intros acc Hg; simpl.
  - f_equal. unfold np_sum. simpl. lra.
  - unfold td_entries in *. csimpl in *.
    rewrite (rtraverse_Ok _ (fun e => IZR e.2 * g lhs e.1)%R).
    2:{ intros [rhs freq] Hin. rewrite (Hg lhs rhs freq); [done|].
        apply elem_of_app. left. apply list_elem_of_fmap.
        by exists (rhs, freq). }
    simpl. rewrite IH.
    2:{ intros lhs' rhs freq Hin. apply (Hg lhs' rhs freq).
        apply elem_of_app. by right. }
    f_equal. rewrite fmap_app, np_sum_app, py_sum_np_sum.
    rewrite <- list_fmap_compose. unfold compose. simpl. lra.
Qed.

Lemma loglikelihood_try_Ok_inv td acc v lhs rhs freq :
  rfold body td acc = Ok v -> (lhs, rhs, freq) ∈ td_entries td ->
  exists lp, logprob probtable lhs rhs = Ok lp.
Proof.
  revert acc. induction td as [|[lhs' d] td IH]; intros acc; simpl.
  - by intros _ ?%elem_of_nil.
  - unfold td_entries in *. csimpl in *.
    destruct (rtraverse _ d) as [terms|e] eqn:Hd; simpl; [|done].
    intros Hrest [Hin|Hin]%elem_of_app; [|by eapply IH].
    apply list_elem_of_fmap in Hin as ([rhs' freq'] & [= -> -> ->] & Hin).
    destruct (rtraverse_Ok_inv _ _ _ _ Hd Hin) as [y Hy]. simpl in Hy.
    destruct (logprob probtable lhs' rhs'); [eauto|done].
Qed.

Lemma loglikelihood_try_Raise td acc e :
  rfold body td acc = Raise e ->
  exists lhs rhs freq,
    (lhs, rhs, freq) ∈ td_entries td /\ logprob probtable lhs rhs = Raise e.
Proof.
  revert acc. induction td as [|[lhs' d] td IH]; intros acc; simpl; [done|].
  unfold td_entries in *. csimpl in *.
  destruct (rtraverse _ d) as [terms|e'] eqn:Hd; simpl.
  - intros (lhs & rhs & freq & Hin & Hraise)%IH.
    exists lhs, rhs, freq. split; [|done]. apply elem_of_app. by right.
  - intros [= ->]. apply rtraverse_Raise in Hd as ([rhs freq] & Hin & Hraise).
    exists lhs', rhs, freq. split.
    + apply elem_of_app. left. apply list_elem_of_fmap. by exists (rhs, freq).
    + simpl in Hraise. by destruct (logprob probtable lhs' rhs).
Qed.

Lemma logprob_value lhs rhs p :
  prob_of probtable lhs rhs = Some p ->
  logprob probtable lhs rhs =
  if decide (p = 0%R) then Raise ProbabilityZeroError else Ok (ln p).
Proof.
  unfold prob_of, logprob, dict_getitem.
  destruct (dict_get lhs probtable) as [row|]; simpl; [|done].
  destruct (dict_get rhs row) as [q|]; simpl; [|done]. by intros [= ->].
Qed.

(** With every rule of the frequency table in the probability table:
    a zero probability gives the floor, otherwise the sum is computed. *)
Lemma loglikelihood_of_cases td :
  covers probtable td ->
  ((exists lhs rhs freq,
      (lhs, rhs, freq) ∈ td_entries td /\
      prob_of probtable lhs rhs = Some 0%R) ->
   loglikelihood_of probtable td = Ok float_min) /\
  ((forall lhs rhs freq,
      (lhs, rhs, freq) ∈ td_entries td ->
      prob_of probtable lhs rhs <> Some 0%R) ->
   loglikelihood_of probtable td = Ok (loglikelihood_spec probtable td)).
Proof.
  intros Hcov. unfold loglikelihood_of, loglikelihood_try.
  change (rfold _ td 0%R) with (rfold body td 0%R). split.
  - intros (lhs & rhs & freq & Hin & Hzero).
    destruct (rfold body td 0%R) as [v|e] eqn:Htry.
    + destruct (loglikelihood_try_Ok_inv _ _ _ _ _ _ Htry Hin) as [lp Hlp].
      rewrite (logprob_value _ _ _ Hzero), decide_True in Hlp; done.
    + apply loglikelihood_try_Raise in Htry
        as (lhs' & rhs' & freq' & Hin' & Hraise).
      destruct (Hcov _ _ _ Hin') as [p Hp].
      rewrite (logprob_value _ _ _ Hp) in Hraise.
      case_decide; by simplify_eq.
  - intros Hnz.
    rewrite (loglikelihood_try_Ok
               (fun lhs rhs => ln (default 0%R (prob_of probtable lhs rhs)))).
    + f_equal. unfold loglikelihood_spec. rewrite Rplus_0_l. f_equal.
      apply list_fmap_ext. by intros i [[lhs rhs] freq].
    + intros lhs rhs freq Hin. destruct (Hcov _ _ _ Hin) as [p Hp].
      rewrite (logprob_value _ _ _ Hp), Hp. simpl.
      rewrite decide_False; [done|]. intros ->. by eapply Hnz.
Qed.
End loglikelihood.

Lemma prob_of_probs_spec weights rules lhs rhs :
  prob_of (probs_spec weights rules) lhs rhs =
  dict_get lhs rules ≫= fun row => softmax_prob weights row <$> dict_get rhs row.
Proof.
  unfold prob_of, probs_spec. rewrite dict_get_map.
  destruct (dict_get lhs rules) as [row|]; simpl; [|done].
  unfold probs_row. by rewrite dict_get_map.
Qed.

Lemma prob_of_probs_spec_Some weights rules lhs rhs row f :
  dict_get lhs rules = Some row -> dict_get rhs row = Some f ->
  prob_of (probs_spec weights rules) lhs rhs = Some (softmax_prob weights row f).
Proof. intros Hl Hr. rewrite prob_of_probs_spec, Hl. simpl. by rewrite Hr. Qed.

Lemma stored_feats_Some rules lhs rhs f :
  stored_feats rules lhs rhs = Some f <->
  exists row, dict_get lhs rules = Some row /\ dict_get rhs row = Some f.
Proof.
  unfold stored_feats. destruct (dict_get lhs rules) as [row|]; simpl.
  - split; [eauto|]. by intros (row' & [= <-] & ?).
  - split; [done|]. by intros (row' & [=] & ?).
Qed.

Section loglikelihood_model.
Context {S : Type} `{Lawful S}.
Context (rules : dict Token (dict RHS vec)) (d : nat) (weights : vec).
Context (td : FrequencyTable).
Hypothesis Hwf : wf_rules d rules.
Hypothesis Hne : nonempty_rows rules.
Hypothesis Hlen : length weights = d.
Hypothesis Htd : td_covered rules td.

Lemma covers_probs_spec : covers (probs_spec weights rules) td.
Proof.
  intros lhs rhs freq Hin. destruct (Htd _ _ _ Hin) as [f Hf].
  apply stored_feats_Some in Hf as (row & Hl & Hr).
  rewrite (prob_of_probs_spec_Some _ _ _ _ _ _ Hl Hr). eauto.
Qed.

Lemma probs_spec_nonzero lhs rhs freq :
  (lhs, rhs, freq) ∈ td_entries td ->
  prob_of (probs_spec weights rules) lhs rhs <> Some 0%R.
Proof.
  intros Hin. destruct (Htd _ _ _ Hin) as [f Hf].
  apply stored_feats_Some in Hf as (row & Hl & Hr).
  rewrite (prob_of_probs_spec_Some _ _ _ _ _ _ Hl Hr). intros [= Hz].
  pose proof (dict_get_Some_elem _ _ _ Hl) as Hlin.
  pose proof (dict_get_Some_elem _ _ _ Hr) as Hrin.
  destruct (softmax_prob_bounds weights row (Hne _ _ Hlin) rhs f Hrin). lra.
Qed.

Lemma loglikelihood_returns :
  returns (represents rules d) (loglikelihood td weights)
    (loglikelihood_spec (probs_spec weights rules) td).
Proof.
  unfold loglikelihood.
  eapply returns_bind; [by apply probs_from_model_returns|].
  apply returns_lift.
  apply (loglikelihood_of_cases _ _ covers_probs_spec), probs_spec_nonzero.
Qed.
End loglikelihood_model.

(** ** The gradient *)

Lemma vadd_comm a b : vadd a b = vadd b a.
Proof.
  unfold vadd. revert b. induction a as [|x a IH]; intros [|y b]; simpl;
    try done. rewrite IH. f_equal. lra.
Qed.

Lemma vadd_assoc a b c : vadd (vadd a b) c = vadd a (vadd b c).
Proof.
  unfold vadd. revert b c.
  induction a as [|x a IH]; intros [|y b] [|z c]; simpl; try done.
  rewrite IH. f_equal. lra.
Qed.

Lemma foldl_vadd_l a b l : foldl vadd (vadd a b) l = vadd a (foldl vadd b l).
Proof.
  revert b. induction l as [|x l IH]; intros b; simpl; [done|].
  by rewrite vadd_assoc, IH.
Qed.

(** Accumulating from the left, as the loops do, computes the sum. *)
Lemma foldl_vadd_foldr z l : foldl vadd z l = foldr vadd z l.
Proof.
  induction l as [|x l IH]; simpl; [done|].
  by rewrite (vadd_comm z x), foldl_vadd_l, IH.
Qed.

Lemma foldl_bind {A B C} (f : A -> B -> A) (g : C -> list B) (a : A) l :
  foldl f a (l ≫= g) = foldl (fun a x => foldl f a (g x)) a l.
Proof.
  revert a. induction l as [|x l IH]; intros a; csimpl; [done|].
  by rewrite foldl_app, IH.
Qed.

Lemma foldl_ext {A B} (f g : A -> B -> A) (a : A) (l : list B) :
  (forall a x, f a x = g a x) -> foldl f a l = foldl g a l.
Proof.
  intros Hfg. revert a. induction l as [|x l IH]; intros a; simpl; [done|].
  by rewrite Hfg, IH.
Qed.

Lemma dict_get_fmap_keys {K V} `{EqDecision K} (h : K -> V) (l : list K) k :
  k ∈ l -> dict_get k ((fun k => (k, h k)) <$> l) = Some (h k).
Proof.
  induction l as [|k' l IH]; csimpl; [by intros ?%elem_of_nil|].
  case_decide; [by subst|]. intros [?|?]%elem_of_cons; [done|auto].
Qed.

Lemma returns_eq {S A} (P : S -> Prop) (m : M S A) (a b : A) :
  returns P m a -> a = b -> returns P m b.
Proof. by intros ? <-. Qed.

Section loglhdgrad.
Context {S : Type} `{Lawful S}.
Context (rules : dict Token (dict RHS vec)) (d : nat) (weights : vec).
Context (td : FrequencyTable).
Hypothesis Hwf : wf_rules d rules.
Hypothesis Hne : nonempty_rows rules.
Hypothesis Hlen : length weights = d.
Hypothesis Htd : td_covered rules td.

Let P := represents rules d.
Let probtable := probs_spec weights rules.

Lemma zeros_returns :
  returns P (bind (gets dim) (fun n => lift (np_zeros n))) (replicate d 0%R).
Proof.
  eapply returns_bind.
  - apply returns_gets. intros s Hs. by eapply represents_dim.
  - by apply returns_lift.
Qed.

Lemma expectation_row_returns lhs row :
  dict_get lhs rules = Some row ->
  returns P
    (foldM (fun foo rhsp =>
              let* fv := featvec lhs rhsp in
              let* row := lift (dict_getitem lhs probtable) in
              let* p := lift (dict_getitem rhsp row) in
              ret (vadd foo (vscale p fv)))
           (dict_keys row) (replicate d 0%R))
    (expectation_spec d probtable rules lhs).
Proof.
  intros Hl. pose proof (dict_get_Some_elem _ _ _ Hl) as Hlin.
  eapply returns_eq.
  - apply (returns_foldM _ _
             (fun foo rhsp =>
                vadd foo (vscale (default 0%R (prob_of probtable lhs rhsp))
                            (default [] (dict_get rhsp row))))).
    intros foo rhsp [f Hr]%dict_get_is_Some.
    eapply returns_bind; [by eapply featvec_returns|].
    eapply returns_bind.
    { apply returns_lift. unfold dict_getitem, probtable, probs_spec.
      by rewrite dict_get_map, Hl. }
    eapply returns_bind.
    { apply returns_lift. unfold dict_getitem, probs_row.
      by rewrite dict_get_map, Hr. }
    apply returns_ret_eq. unfold probtable.
    by rewrite (prob_of_probs_spec_Some _ _ _ _ _ _ Hl Hr), Hr.
  - unfold expectation_spec, vsum. rewrite Hl. simpl.
    rewrite <- foldl_vadd_foldr, <- (foldl_fmap vadd).
    f_equal.
    apply (fmap_keys_lookup
             (fun k o => vscale (default 0%R (prob_of probtable lhs k))
                           (default [] o))).
    apply (wf_rhss _ _ Hwf _ _ Hlin).
Qed.

(** The dict [expectation] the first loop builds. *)
Let expectation : dict Token vec :=
  (fun lhs => (lhs, expectation_spec d probtable rules lhs))
    <$> dict_keys rules.

Lemma expectation_returns :
  returns P
    (foldM (fun (expectation : dict Token vec) lhs =>
             let* zeros := bind (gets dim) (fun n => lift (np_zeros n)) in
             let* ys := rhss lhs in
             let* foo :=
               foldM (fun foo rhsp =>
                        let* fv := featvec lhs rhsp in
                        let* row := lift (dict_getitem lhs probtable) in
                        let* p := lift (dict_getitem rhsp row) in
                        ret (vadd foo (vscale p fv)))
                     ys zeros in
             ret (dict_set lhs foo expectation))
          (dict_keys rules) [])
    expectation.
Proof.
  eapply returns_eq.
  - apply (returns_foldM _ _
             (fun acc lhs =>
                dict_set lhs (expectation_spec d probtable rules lhs) acc)).
    intros acc lhs [row Hl]%dict_get_is_Some.
    eapply returns_bind; [apply zeros_returns|].
    eapply returns_bind; [by eapply rhss_returns|].
    eapply returns_bind; [by apply expectation_row_returns|].
    apply returns_ret.
  - apply foldl_dict_set_keys, (wf_lhss _ _ Hwf).
Qed.

(** The term one entry of the frequency table adds to the result. *)
Let term (e : Token * RHS * Z) : vec :=
  vscale (IZR e.2)
    (vsub (default [] (stored_feats rules e.1.1 e.1.2))
          (expectation_spec d probtable rules e.1.1)).

Lemma result_returns :
  returns P
    (foldM (fun result '(lhs, d) =>
              foldM (fun result '(rhs, freq) =>
                       let* fv := featvec lhs rhs in
                       let* e := lift (dict_getitem lhs expectation) in
                       ret (vadd result (vscale (IZR freq) (vsub fv e))))
                    d result)
           td (replicate d 0%R))
    (grad_loglikelihood_spec d probtable rules td).
Proof.
  eapply returns_eq.
  - apply (returns_foldM _ _
             (fun result (item : Token * dict RHS Z) =>
                foldl (fun result (entry : RHS * Z) =>
                         vadd result (term (item.1, entry.1, entry.2)))
                      result item.2)).
    intros result [lhs dd] Hitem. simpl.
    apply returns_foldM. intros acc [rhs freq] Hentry. simpl.
    assert ((lhs, rhs, freq) ∈ td_entries td) as Hin.
    { unfold td_entries. apply list_elem_of_bind. exists (lhs, dd).
      split; [|done]. simpl. apply list_elem_of_fmap. by exists (rhs, freq). }
    destruct (Htd _ _ _ Hin) as [f Hf].
    pose proof Hf as (row & Hl & Hr)%stored_feats_Some.
    eapply returns_bind; [by eapply featvec_returns|].
    eapply returns_bind.
    { apply returns_lift. unfold dict_getitem, expectation.
      rewrite dict_get_fmap_keys; [done|].
      apply dict_get_is_Some. eauto. }
    apply returns_ret_eq. unfold term. simpl. by rewrite Hf.
  - unfold grad_loglikelihood_spec, vsum, td_entries.
    rewrite <- foldl_vadd_foldr, foldl_fmap, foldl_bind.
    apply foldl_ext. intros a [lhs dd]. by rewrite foldl_fmap.
Qed.

Lemma loglhdgrad_returns :
  returns P (loglhdgrad td weights)
    (grad_loglikelihood_spec d probtable rules td).
Proof.
  unfold loglhdgrad.
  eapply returns_bind; [by apply probs_from_model_returns|].
  eapply returns_bind; [apply lhss_returns|].
  eapply returns_bind; [apply expectation_returns|].
  eapply returns_bind; [apply zeros_returns|].
  apply result_returns.
Qed.

Lemma gradient_returns lam :
  returns P (gradient td lam weights)
    (vsub (vscale lam weights)
          (grad_loglikelihood_spec d probtable rules td)).
Proof.
  unfold gradient.
  eapply returns_bind; [apply loglhdgrad_returns|]. apply returns_ret.
Qed.

Lemma objective_returns lam :
  returns P (objective td lam weights)
    (penalty lam weights - loglikelihood_spec probtable td)%R.
Proof.
  unfold objective.
  eapply returns_bind; [by apply loglikelihood_returns|]. apply returns_ret.
Qed.
End loglhdgrad.

(** ** The two subclasses obey the laws *)

Lemma dict_get_fmap_keys_Some {K V} `{EqDecision K} (h : K -> V) (l : list K) k v :
  dict_get k ((fun k => (k, h k)) <$> l) = Some v -> v = h k /\ k ∈ l.
Proof.
  induction l as [|k' l IH]; csimpl; [done|].
  case_decide.
  - intros [= <-]. subst. split; [done|left].
  - intros [-> ?]%IH. split; [done|by right].
Qed.

Lemma dict_keys_fmap_keys {K V} (h : K -> V) (l : list K) :
  dict_keys ((fun k => (k, h k)) <$> l) = l.
Proof.
  unfold dict_keys. rewrite <- list_fmap_compose.
  rewrite (list_fmap_ext _ Datatypes.id l) by done. apply list_fmap_id.
Qed.

Section dense_lawful.
Import LogLinModelFromFile.

Lemma dense_lhss_returns rules d :
  returns (dense_represents rules d) lhss (dict_keys rules).
Proof. intros s [-> Hwf]. by eexists. Qed.

Lemma dense_rhss_returns rules d x row :
  dict_get x rules = Some row ->
  returns (dense_represents rules d) (rhss x) (dict_keys row).
Proof.
  intros Hx s [-> Hwf]. eexists. split; [|done].
  unfold rhss, defaultdict_getitem. simpl. by rewrite Hx.
Qed.

Lemma dense_featvec_returns rules d x row y f :
  dict_get x rules = Some row -> dict_get y row = Some f ->
  returns (dense_represents rules d) (featvec x y) f.
Proof.
  intros Hx Hy s [-> Hwf]. eexists. split; [|done].
  unfold featvec, defaultdict_getitem, dict_getitem. simpl.
  by rewrite Hx, Hy.
Qed.

Lemma dense_featvec_dot_returns rules d x row y f w :
  dict_get x rules = Some row -> dict_get y row = Some f ->
  length w = d ->
  returns (dense_represents rules d) (default_featvec_dot featvec x y w)
    (dot w f).
Proof.
  intros Hx Hy Hw s [-> Hwf]. eexists. split; [|done].
  unfold default_featvec_dot, bind, featvec, defaultdict_getitem,
    dict_getitem, lift, np_dot. simpl. rewrite Hx, Hy.
  rewrite decide_True; [done|]. rewrite Hw. symmetry.
  eapply (wf_dim _ _ Hwf); by eapply dict_get_Some_elem.
Qed.
End dense_lawful.

Lemma dense_represents_wf rules d s :
  dense_represents rules d s -> wf_rules d rules.
Proof. by intros [_ ?]. Qed.

Lemma dense_represents_dim rules d s :
  dense_represents rules d s -> dim s = Some d.
Proof. by intros [-> _]. Qed.

#[global] Instance dense_lawful : Lawful LogLinModelFromFile.t := {|
  represents := dense_represents;
  represents_wf := dense_represents_wf;
  represents_dim := dense_represents_dim;
  lhss_returns := dense_lhss_returns;
  rhss_returns := dense_rhss_returns;
  featvec_returns := dense_featvec_returns;
  featvec_dot_returns := dense_featvec_dot_returns;
|}.

Section basic_lawful.
Import LogLinModelBasic.

Lemma rules_of_row rulelist x row :
  dict_get x (rules_of rulelist) = Some row ->
  row = (fun y => (y, onehot (length rulelist)
                        (default 0 (list_index (x, y) rulelist))))
          <$> remove_dups (filter (fun r => x = r.1) rulelist).*2.
Proof. by intros [-> _]%dict_get_fmap_keys_Some. Qed.

Lemma rules_of_entry rulelist x row y f :
  dict_get x (rules_of rulelist) = Some row -> dict_get y row = Some f ->
  exists i, list_index (x, y) rulelist = Some i /\
            f = onehot (length rulelist) i.
Proof.
  intros ->%rules_of_row [-> Hy]%dict_get_fmap_keys_Some.
  apply elem_of_remove_dups, list_elem_of_fmap in Hy
    as ([x' y'] & -> & [Hx Hin]%list_elem_of_filter).
  simpl in *. subst x'.
  destruct (list_index_elem _ _ Hin) as [i Hi]. exists i. by rewrite Hi.
Qed.

Lemma wf_rules_of rulelist : wf_rules (length rulelist) (rules_of rulelist).
Proof.
  split.
  - unfold rules_of. rewrite dict_keys_fmap_keys. apply NoDup_remove_dups.
  - intros x row Hin. unfold rules_of in Hin.
    apply list_elem_of_fmap in Hin as (x' & [= -> ->] & _).
    rewrite dict_keys_fmap_keys. apply NoDup_remove_dups.
  - intros x row y f Hin Hy. unfold rules_of in Hin.
    apply list_elem_of_fmap in Hin as (x' & [= -> ->] & _).
    apply list_elem_of_fmap in Hy as (y' & [= -> ->] & _).
    apply length_onehot.
Qed.

Lemma nonempty_rules_of rulelist : nonempty_rows (rules_of rulelist).
Proof.
  intros x row Hin. unfold rules_of in Hin.
  apply list_elem_of_fmap in Hin as (x' & [= -> ->] & Hx).
  apply elem_of_remove_dups, list_elem_of_fmap in Hx as ([x y] & -> & Hin).
  intros Hnil%fmap_nil_inv.
  assert (y ∈ remove_dups (filter (fun r => x = r.1) rulelist).*2) as Hy.
  { apply elem_of_remove_dups, list_elem_of_fmap. exists (x, y).
    split; [done|]. by apply list_elem_of_filter. }
  simpl in Hnil. rewrite Hnil in Hy. by apply elem_of_nil in Hy.
Qed.

Lemma basic_lhss_returns rules d :
  returns (basic_represents rules d) lhss (dict_keys rules).
Proof.
  intros s (-> & -> & Hok). exists s. split; [|done].
  unfold lhss, gets, rules_of. by rewrite dict_keys_fmap_keys.
Qed.

Lemma basic_rhss_returns rules d x row :
  dict_get x rules = Some row ->
  returns (basic_represents rules d) (rhss x) (dict_keys row).
Proof.
  intros Hx s (-> & -> & Hok). exists s. split; [|done].
  apply rules_of_row in Hx as ->.
  unfold rhss, gets. by rewrite dict_keys_fmap_keys.
Qed.

Lemma basic_featvec_returns rules d x row y f :
  dict_get x rules = Some row -> dict_get y row = Some f ->
  returns (basic_represents rules d) (featvec x y) f.
Proof.
  intros Hx Hy s (-> & -> & Hok).
  destruct (rules_of_entry _ _ _ _ _ Hx Hy) as (i & Hi & ->).
  destruct (featvec_spec _ _ _ _ Hok Hi) as (s' & Hrun & Hrl & Hok').
  exists s'. split; [done|]. unfold basic_represents. by rewrite Hrl.
Qed.

Lemma basic_featvec_dot_returns rules d x row y f w :
  dict_get x rules = Some row -> dict_get y row = Some f ->
  length w = d ->
  returns (basic_represents rules d) (featvec_dot x y w) (dot w f).
Proof.
  intros Hx Hy Hw s (-> & -> & Hok).
  destruct (rules_of_entry _ _ _ _ _ Hx Hy) as (i & Hi & ->).
  destruct (featvec_dot_spec _ _ _ _ w Hok Hi Hw) as (s' & Hrun & Hrl & Hok').
  exists s'. split; [done|]. unfold basic_represents. by rewrite Hrl.
Qed.
End basic_lawful.

Lemma basic_represents_wf rules d s :
  basic_represents rules d s -> wf_rules d rules.
Proof. intros (-> & -> & _). apply wf_rules_of. Qed.

Lemma basic_represents_dim rules d s :
  basic_represents rules d s -> dim s = Some d.
Proof. by intros (_ & -> & _). Qed.

#[global] Instance basic_lawful : Lawful LogLinModelBasic.t := {|
  represents := basic_represents;
  represents_wf := basic_represents_wf;
  represents_dim := basic_represents_dim;
  lhss_returns := basic_lhss_returns;
  rhss_returns := basic_rhss_returns;
  featvec_returns := basic_featvec_returns;
  featvec_dot_returns := basic_featvec_dot_returns;
|}.

(** A fresh indicator model stands for the table of its rule list. *)
Lemma basic_init_represents (rulelist : list (Token * RHS)) :
  basic_represents (rules_of rulelist) (length rulelist)
    (LogLinModelBasic.init rulelist).
Proof. split_and!; [done..|apply cache_ok_init]. Qed.

(** ** Evaluations in any order *)

Lemma returns_state {S A} (P : S -> Prop) (m : M S A) (a : A) s :
  returns P m a -> P s -> (m s).1 = Ok a /\ P (m s).2.
Proof. intros Hm Hs. by destruct (Hm s Hs) as (s' & -> & ?). Qed.

Section history.
Context {S : Type} `{Lawful S}.
Context (rules : dict Token (dict RHS vec)) (d : nat).
Context (td : FrequencyTable) (lam : R).
Hypothesis Hwf : wf_rules d rules.
Hypothesis Hne : nonempty_rows rules.
Hypothesis Htd : td_covered rules td.

Lemma run_call_represents c s :
  length (call_weights c) = d ->
  represents rules d s -> represents rules d (run_call td lam c s).
Proof.
  intros Hlen Hs. destruct c as [w|w|w|w]; simpl in *.
  - by apply (returns_state _ _ _ s
                (loglikelihood_returns rules d w td Hwf Hne Hlen Htd)).
  - by apply (returns_state _ _ _ s
                (loglhdgrad_returns rules d w td Hwf Hne Hlen Htd)).
  - by apply (returns_state _ _ _ s
                (objective_returns rules d w td Hwf Hne Hlen Htd lam)).
  - by apply (returns_state _ _ _ s
                (gradient_returns rules d w td Hwf Hne Hlen Htd lam)).
Qed.

Lemma after_represents history s :
  Forall (fun c => length (call_weights c) = d) history ->
  represents rules d s -> represents rules d (after td lam history s).
Proof.
  unfold after. intros Hh. revert s.
  induction Hh as [|c history Hc Hh IH]; intros s Hs; simpl; [done|].
  by apply IH, run_call_represents.
Qed.
End history.

(** ** Worked examples *)

Lemma example_init : LogLinModelFromFile.init example_input = Ok example_model.
Proof. reflexivity. Qed.

Section dense_bridge.
Import LogLinModelFromFile.

(** A model built from a non-empty input stands for its own table. *)
Lemma init_represents t0 rest m :
  init (t0 :: rest) = Ok m ->
  dense_represents (_rules m) (length t0.2) m /\ nonempty_rows (_rules m).
Proof.
  intros Hinit. pose proof (init_inv_Ok _ _ Hinit) as Hinv.
  pose proof (inv_dim _ _ Hinv) as Hdim. simpl in Hdim.
  split; [split|].
  - destruct m. simpl in *. by subst.
  - split.
    + apply (inv_keys _ _ Hinv).
    + intros x row Hin. by destruct (inv_rows _ _ Hinv _ _ Hin).
    + intros x row y f Hx Hy.
      assert (stored_feats (_rules m) x y = Some f) as Hst.
      { apply stored_feats_Some. exists row. split.
        - apply elem_dict_get; [apply (inv_keys _ _ Hinv)|done].
        - apply elem_dict_get; [|done].
          by destruct (inv_rows _ _ Hinv _ _ Hx). }
      rewrite (inv_stored _ _ Hinv) in Hst.
      apply first_feats_Some_elem in Hst.
      pose proof (inv_same _ _ Hinv _ Hdim) as Hsame.
      unfold same_dims in Hsame. rewrite Forall_forall in Hsame.
      apply (Hsame _ Hst).
  - intros x row Hin. by destruct (inv_rows _ _ Hinv _ _ Hin).
Qed.
End dense_bridge.

Lemma example_represents :
  dense_represents (LogLinModelFromFile._rules example_model) 1 example_model /\
  nonempty_rows (LogLinModelFromFile._rules example_model).
Proof. apply (init_represents _ _ _ example_init). Qed.

Lemma example_td_covered :
  td_covered (LogLinModelFromFile._rules example_model) example_td.
Proof.
  intros lhs rhs freq Hin. unfold td_entries, example_td in Hin.
  csimpl in Hin. rewrite !elem_of_cons in Hin.
  destruct Hin as [?|[?|?%elem_of_nil]]; simplify_eq;
    [by exists [1%R]|by exists [0%R]|done].
Qed.

(** ** The claims about the estimation engine *)

(** C3.  The gradient handed to the minimizer is [lambda * weights] minus
    the log-likelihood gradient; the latter is the sum over the entries
    [(lhs, rhs, freq)] of the frequency table of
    [freq * (featvec(lhs, rhs) - expectation(lhs))], and the expectation
    of an LHS is the sum over its alternatives of probability times
    feature vector, the probabilities being those of the table that
    [probs_from_model] returns and the likelihood uses. *)
Theorem gradient_is_penalty_minus_observed_less_expected
    {S : Type} {model : LogLinModel S} {laws : Lawful S}
    (rules : dict Token (dict RHS vec)) (d : nat)
    (s : S) (td : FrequencyTable) (lam : R) (weights : vec) :
  represents rules d s -> nonempty_rows rules -> td_covered rules td ->
  length weights = d ->
  exists probtable g s1 s2 s3 s4,
    probs_from_model weights s = (Ok probtable, s1) /\
    loglikelihood td weights s = (loglikelihood_of probtable td, s2) /\
    loglhdgrad td weights s = (Ok g, s3) /\
    gradient td lam weights s = (Ok (vsub (vscale lam weights) g), s4) /\
    g = vsum d ((fun e : Token * RHS * Z =>
                   vscale (IZR e.2)
                     (vsub (default [] (stored_feats rules e.1.1 e.1.2))
                           (expectation_spec d probtable rules e.1.1)))
                  <$> td_entries td) /\
    (forall lhs row,
       dict_get lhs rules = Some row ->
       expectation_spec d probtable rules lhs =
       vsum d ((fun alt : RHS * vec =>
                  vscale (default 0%R (prob_of probtable lhs alt.1)) alt.2)
                 <$> row)) /\
    (forall lhs rhs f,
       stored_feats rules lhs rhs = Some f ->
       (featvec lhs rhs s).1 = Ok f).
Proof.
  intros Hs Hne Htd Hlen. pose proof (represents_wf _ _ _ Hs) as Hwf.
  destruct (probs_from_model_returns rules d weights Hwf Hne Hlen s Hs)
    as (s1 & Hprobs & _).
  destruct (loglhdgrad_returns rules d weights td Hwf Hne Hlen Htd s Hs)
    as (s3 & Hgrad & _).
  destruct (gradient_returns rules d weights td Hwf Hne Hlen Htd lam s Hs)
    as (s4 & Hg & _).
  exists (probs_spec weights rules),
    (grad_loglikelihood_spec d (probs_spec weights rules) rules td),
    s1, s1, s3, s4.
  split_and!; [done| |done..| |].
  - unfold loglikelihood, bind. by rewrite Hprobs.
  - intros lhs row Hl. unfold expectation_spec. by rewrite Hl.
  - intros lhs rhs f (row & Hl & Hr)%stored_feats_Some.
    by destruct (featvec_returns rules d lhs row rhs f Hl Hr s Hs) as (? & -> & _).
Qed.

Lemma gradient_is_penalty_minus_observed_less_expected_witness :
  exists g s3,
    loglhdgrad example_td [0%R] example_model = (Ok g, s3) /\
    exists s4,
      gradient example_td 2%R [0%R] example_model =
      (Ok (vsub (vscale 2%R [0%R]) g), s4).
Proof.
  destruct example_represents as [Hrep Hne].
  destruct (gradient_is_penalty_minus_observed_less_expected
              (laws := dense_lawful)
              (LogLinModelFromFile._rules example_model) 1 example_model
              example_td 2%R [0%R] Hrep Hne example_td_covered eq_refl)
    as (probtable & g & s1 & s2 & s3 & s4 & _ & _ & Hg & Hgrad & _).
  exists g, s3. split; [exact Hg|]. exists s4. exact Hgrad.
Defined.

(** C9.  For a fixed model, frequency table and lambda, the objective
    and the gradient depend on the weight vector alone: after any
    sequence of earlier evaluations, an evaluation returns what it
    returns on the untouched model.  The states may differ (the indicator
    model fills its caches), the results do not. *)
Theorem evaluations_depend_on_weights_alone
    {S : Type} {model : LogLinModel S} {laws : Lawful S}
    (rules : dict Token (dict RHS vec)) (d : nat)
    (s : S) (td : FrequencyTable) (lam : R) (history : list call)
    (weights : vec) :
  represents rules d s -> nonempty_rows rules -> td_covered rules td ->
  Forall (fun c => length (call_weights c) = d) history ->
  length weights = d ->
  let s' := after td lam history s in
  (exists ll, (loglikelihood td weights s).1 = Ok ll /\
              (loglikelihood td weights s').1 = Ok ll) /\
  (exists g, (loglhdgrad td weights s).1 = Ok g /\
             (loglhdgrad td weights s').1 = Ok g) /\
  (exists v, (objective td lam weights s).1 = Ok v /\
             (objective td lam weights s').1 = Ok v) /\
  (exists g, (gradient td lam weights s).1 = Ok g /\
             (gradient td lam weights s').1 = Ok g).
Proof.
  intros Hs Hne Htd Hh Hlen s'. pose proof (represents_wf _ _ _ Hs) as Hwf.
  assert (represents rules d s') as Hs'.
  { by apply after_represents. }
  pose proof (loglikelihood_returns rules d weights td Hwf Hne Hlen Htd) as Hll.
  pose proof (loglhdgrad_returns rules d weights td Hwf Hne Hlen Htd) as Hgr.
  pose proof (objective_returns rules d weights td Hwf Hne Hlen Htd lam) as Hob.
  pose proof (gradient_returns rules d weights td Hwf Hne Hlen Htd lam) as Hgd.
  split_and!; eexists.
  - split; [apply (returns_state _ _ _ s Hll Hs)|apply (returns_state _ _ _ s' Hll Hs')].
  - split; [apply (returns_state _ _ _ s Hgr Hs)|apply (returns_state _ _ _ s' Hgr Hs')].
  - split; [apply (returns_state _ _ _ s Hob Hs)|apply (returns_state _ _ _ s' Hob Hs')].
  - split; [apply (returns_state _ _ _ s Hgd Hs)|apply (returns_state _ _ _ s' Hgd Hs')].
Qed.

Lemma stored_feats_rules_of rulelist x y :
  (x, y) ∈ rulelist -> is_Some (stored_feats (rules_of rulelist) x y).
Proof.
  intros Hin. unfold stored_feats, rules_of.
  rewrite dict_get_fmap_keys.
  2:{ apply elem_of_remove_dups, list_elem_of_fmap. by exists (x, y). }
  simpl. rewrite dict_get_fmap_keys; [by eexists|].
  apply elem_of_remove_dups, list_elem_of_fmap. exists (x, y).
  split; [done|]. by apply list_elem_of_filter.
Qed.

Lemma example_rulelist_covered :
  td_covered (rules_of example_rulelist) example_td.
Proof.
  intros lhs rhs freq Hin. unfold td_entries, example_td in Hin.
  csimpl in Hin. rewrite !elem_of_cons in Hin.
  destruct Hin as [?|[?|?%elem_of_nil]]; simplify_eq; [| |done];
    apply stored_feats_rules_of; unfold example_rulelist;
    rewrite !elem_of_cons; auto.
Qed.

Lemma example_basic_represents :
  basic_represents (rules_of example_rulelist) 3
    (LogLinModelBasic.init example_rulelist).
Proof. apply basic_init_represents. Qed.

Lemma evaluations_depend_on_weights_alone_witness :
  let s := LogLinModelBasic.init example_rulelist in
  let s' := after example_td 2%R
              [CallGradient [0; 0; 0]%R; CallLoglikelihood [1; 0; 0]%R] s in
  exists g, (gradient example_td 2%R [0; 0; 0]%R s).1 = Ok g /\
            (gradient example_td 2%R [0; 0; 0]%R s').1 = Ok g.
Proof.
  intros s s'.
  apply (evaluations_depend_on_weights_alone (laws := basic_lawful)
           (rules_of example_rulelist) 3 s example_td 2%R
           [CallGradient [0; 0; 0]%R; CallLoglikelihood [1; 0; 0]%R]
           [0; 0; 0]%R
           example_basic_represents (nonempty_rules_of example_rulelist)
           example_rulelist_covered).
  - repeat constructor.
  - reflexivity.
Defined.

Section cache.
Import LogLinModelBasic.

(** Every query of the indicator model keeps its caches right, found or
    not. *)
Lemma basic_queries_keep_cache_ok self lhs rhs othervec :
  cache_ok self ->
  cache_ok (lhss self).2 /\ cache_ok (rhss lhs self).2 /\
  cache_ok (find_index lhs rhs self).2 /\ cache_ok (featvec lhs rhs self).2 /\
  cache_ok (featvec_dot lhs rhs othervec self).2.
Proof.
  intros Hok.
  assert (cache_ok (find_index lhs rhs self).2) as Hfind.
  { destruct (list_index (lhs, rhs) (_rulelist self)) as [i|] eqn:Hi.
    - by destruct (find_index_spec _ _ _ _ Hok Hi) as (s1 & -> & _ & ?).
    - by rewrite (find_index_missing _ _ _ Hok Hi). }
  split_and!; try done.
  - destruct (list_index (lhs, rhs) (_rulelist self)) as [i|] eqn:Hi.
    + by destruct (featvec_spec _ _ _ _ Hok Hi) as (s1 & -> & _ & ?).
    + unfold featvec.
      destruct (_featvecdict self !! (lhs, rhs)) as [v|] eqn:Hv; [done|].
      unfold bind. by rewrite (find_index_missing _ _ _ Hok Hi).
  - unfold featvec_dot, bind.
    destruct (find_index lhs rhs self) as [[i|e] s1]; simpl in *; done.
Qed.
End cache.

(** ** The claims about the two feature models *)

(** C4.  For an indicator model, a weight vector of the model's dimension
    and a rule of the rule list, the overridden score (the entry of the
    weight vector at the rule's index) equals the generic score, the dot
    product of the weight vector with the one-hot feature vector. *)
Theorem basic_score_equals_generic_score
    (self : LogLinModelBasic.t) (weights : vec) (lhs : Token) (rhs : RHS) :
  cache_ok self ->
  (lhs, rhs) ∈ LogLinModelBasic._rulelist self ->
  length weights = LogLinModelBasic.dim self ->
  exists index r f,
    (LogLinModelBasic.find_index lhs rhs self).1 = Ok index /\
    weights !! index = Some r /\
    (score weights lhs rhs self).1 = Ok r /\
    (LogLinModelBasic.featvec lhs rhs self).1 = Ok f /\
    f = onehot (LogLinModelBasic.dim self) index /\
    np_dot weights f = Ok r /\
    (default_featvec_dot LogLinModelBasic.featvec lhs rhs weights self).1 = Ok r.
Proof.
  intros Hok Hin Hw.
  destruct (basic_score self weights lhs rhs Hok Hin Hw)
    as (i & r & Hi & Hr & Hscore & Hgen).
  destruct (find_index_spec _ _ _ _ Hok Hi) as (s1 & H1 & _).
  destruct (featvec_spec _ _ _ _ Hok Hi) as (s2 & H2 & _).
  exists i, r, (onehot (LogLinModelBasic.dim self) i).
  rewrite H1, H2. split_and!; try done.
  unfold np_dot. rewrite length_onehot, decide_True by done.
  by rewrite <- Hw, (dot_onehot _ _ _ Hr).
Qed.

Lemma basic_score_equals_generic_score_witness :
  exists r,
    (score [5; 7; 9]%R "S" ["B"] (LogLinModelBasic.init example_rulelist)).1
      = Ok r /\
    (default_featvec_dot LogLinModelBasic.featvec "S" ["B"] [5; 7; 9]%R
       (LogLinModelBasic.init example_rulelist)).1 = Ok r.
Proof.
  destruct (basic_score_equals_generic_score
              (LogLinModelBasic.init example_rulelist) [5; 7; 9]%R "S" ["B"])
    as (index & r & f & _ & _ & Hscore & _ & _ & _ & Hgen).
  - apply cache_ok_init.
  - unfold example_rulelist. simpl. rewrite !elem_of_cons. auto.
  - reflexivity.
  - exists r. split; [exact Hscore|exact Hgen].
Defined.

(** C8, as the code has it.  The dimension of an indicator model is the
    length of the rule list it was given; it is the number of distinct
    rules exactly when the list has no repetition.  Whatever the caches
    hold, the index of a rule is the position of its first occurrence in
    the list, so a repeated rule has the index of its first occurrence
    and indices follow first-seen order. *)
Theorem basic_dim_and_first_seen_index (rulelist : list (Token * RHS)) :
  let m := LogLinModelBasic.init rulelist in
  LogLinModelBasic.dim m = length rulelist /\
  (LogLinModelBasic.dim m = length (remove_dups rulelist) <-> NoDup rulelist) /\
  forall self i lhs rhs,
    LogLinModelBasic._rulelist self = rulelist -> cache_ok self ->
    rulelist !! i = Some (lhs, rhs) ->
    exists j,
      (LogLinModelBasic.find_index lhs rhs self).1 = Ok j /\ j <= i /\
      rulelist !! j = Some (lhs, rhs) /\
      forall k, k < j -> rulelist !! k <> Some (lhs, rhs).
Proof.
  intros m. split; [done|]. split.
  - unfold m, LogLinModelBasic.dim. simpl.
    split; [intros Heq; by apply length_remove_dups_eq|].
    intros Hnd. symmetry. by apply length_remove_dups_eq.
  - intros self i lhs rhs <- Hok Hi. by apply basic_find_index_first.
Qed.

Lemma basic_dim_and_first_seen_index_witness :
  exists j,
    (LogLinModelBasic.find_index "S" ["A"]
       (LogLinModelBasic.init example_rulelist)).1 = Ok j /\ j <= 2.
Proof.
  destruct (basic_dim_and_first_seen_index example_rulelist)
    as (_ & _ & Hindex).
  destruct (Hindex (LogLinModelBasic.init example_rulelist) 2 "S" ["A"]
              eq_refl (cache_ok_init example_rulelist) eq_refl)
    as (j & Hj & Hle & _).
  exists j. split; [exact Hj|exact Hle].
Defined.

(** C8 as stated fails: a rule list with a repeated rule has a dimension
    larger than its number of distinct rules. *)
Lemma basic_dim_counts_repetitions :
  let rulelist := [("S", ["A"]); ("S", ["A"])] in
  LogLinModelBasic.dim (LogLinModelBasic.init rulelist) = 2 /\
  length (remove_dups rulelist) = 1 /\
  LogLinModelBasic.dim (LogLinModelBasic.init rulelist)
    <> length (remove_dups rulelist).
Proof. split_and!; [reflexivity..|discriminate]. Qed.

(** C5, as the code has it.  Construction fixes the dimension to the
    length of the first vector.  It ends at the dimension check exactly
    when some later triple has a vector of another length and, among the
    triples before the first such triple, no rule repeats with an unequal
    vector.  It succeeds when all lengths agree and no rule repeats with
    an unequal vector; when it succeeds all lengths agree and [dim()] is
    the length of the first vector. *)
Theorem init_dimension_check (t0 : Token * RHS * vec)
    (rest : list (Token * RHS * vec)) :
  let d := length t0.2 in
  (LogLinModelFromFile.init (t0 :: rest)
     = Raise (AssertionError MismatchingDimensions) <->
   exists pre t post,
     rest = pre ++ t :: post /\ length t.2 <> d /\
     same_dims d pre /\ feats_agree (t0 :: pre)) /\
  (same_dims d rest -> feats_agree (t0 :: rest) ->
   exists m, LogLinModelFromFile.init (t0 :: rest) = Ok m) /\
  (forall m, LogLinModelFromFile.init (t0 :: rest) = Ok m ->
             LogLinModelFromFile.dim m = Some d /\ same_dims d rest).
Proof.
  intros d. split_and!.
  - apply init_dimension_failure.
  - intros Hsame Hag. apply (init_complete d); [|done].
    by apply Forall_cons.
  - intros m (Hdim & Hsame & _)%init_Ok_dim. split; [done|].
    by apply Forall_cons in Hsame as [_ ?].
Qed.

Lemma init_dimension_check_witness :
  exists m, LogLinModelFromFile.init example_input = Ok m.
Proof.
  apply (proj1 (proj2 (init_dimension_check ("S", ["A"], [1%R])
                         [("S", ["B"], [0%R])]))).
  - repeat constructor.
  - intros lhs rhs f f'. rewrite !elem_of_cons.
    intros [?|[?|?%elem_of_nil]] [?|[?|?%elem_of_nil]]; by simplify_eq.
Defined.

(** C5 as stated fails: a later vector of another length does not end
    construction at the dimension check when an earlier triple repeats a
    rule with an unequal vector. *)
Lemma dimension_check_preempted_by_feature_check :
  let inp := [("S", ["A"], [1; 0]%R); ("S", ["A"], [1; 1]%R);
              ("S", ["B"], [1; 2; 3]%R)] in
  Exists (fun t => length t.2 <> 2) (tail inp) /\
  LogLinModelFromFile.init inp
    = Raise (AssertionError (MismatchingFeatures "S" ["A"])) /\
  ~ dimension_failure (LogLinModelFromFile.init inp).
Proof.
  intros inp.
  assert (LogLinModelFromFile.init inp
          = Raise (AssertionError (MismatchingFeatures "S" ["A"]))) as Hinit.
  { unfold LogLinModelFromFile.init, inp. simpl. unfold np_array_equal.
    rewrite bool_decide_eq_false_2; [done|]. intros [=]; lra. }
  split_and!; [|done|].
  - simpl. right. left. simpl. lia.
  - rewrite Hinit. by intros [?|?].
Qed.

(** C6.  Two records for one rule with unequal vectors end construction
    with the generic [AssertionError] of the [assert] statement, not with
    [FeatureMismatchError]. *)
Theorem init_feature_mismatch_is_assertion :
  let inp := [("S", ["A"], [1; 0]%R); ("S", ["A"], [1; 1]%R)] in
  LogLinModelFromFile.init inp
    = Raise (AssertionError (MismatchingFeatures "S" ["A"])) /\
  LogLinModelFromFile.init inp <> Raise FeatureMismatchError.
Proof.
  intros inp.
  assert (LogLinModelFromFile.init inp
          = Raise (AssertionError (MismatchingFeatures "S" ["A"]))) as Hinit.
  { unfold LogLinModelFromFile.init, inp. simpl. unfold np_array_equal.
    rewrite bool_decide_eq_false_2; [done|]. intros [=]; lra. }
  split; [done|]. by rewrite Hinit.
Qed.

(** C7, as the code has it.  [rhss] never raises: for either model it
    returns, without repetition, exactly the RHSs recorded with the LHS,
    which for an LHS never observed is the empty collection. *)
Theorem rhss_returns_recorded (inp : list (Token * RHS * vec))
    (m : LogLinModelFromFile.t) (self : LogLinModelBasic.t) (lhs : Token) :
  LogLinModelFromFile.init inp = Ok m ->
  (exists ys, (LogLinModelFromFile.rhss lhs m).1 = Ok ys /\ NoDup ys /\
     (forall y, y ∈ ys <-> exists f, (lhs, y, f) ∈ inp) /\
     ((forall y f, (lhs, y, f) ∉ inp) -> ys = [])) /\
  (exists ys, (LogLinModelBasic.rhss lhs self).1 = Ok ys /\ NoDup ys /\
     (forall y, y ∈ ys <-> (lhs, y) ∈ LogLinModelBasic._rulelist self) /\
     ((forall y, (lhs, y) ∉ LogLinModelBasic._rulelist self) -> ys = [])).
Proof.
  intros Hinit. split.
  - destruct (init_rhss inp m lhs Hinit) as (ys & Hys & Hnd & Hin).
    exists ys. split_and!; [done..|]. intros Hno.
    destruct ys as [|y ys]; [done|].
    destruct (proj1 (Hin y)) as [f Hf]; [left|]. by destruct (Hno y f).
  - destruct (basic_rhss self lhs) as (ys & Hys & Hnd & Hin).
    exists ys. split_and!; [done..|]. intros Hno.
    destruct ys as [|y ys]; [done|].
    destruct (Hno y). apply Hin. left.
Qed.

Lemma rhss_returns_recorded_witness :
  exists ys, (LogLinModelFromFile.rhss "S" example_model).1 = Ok ys /\ NoDup ys.
Proof.
  destruct (rhss_returns_recorded example_input example_model
              (LogLinModelBasic.init example_rulelist) "S" example_init)
    as [(ys & Hys & Hnd & _) _].
  exists ys. split; [exact Hys|exact Hnd].
Defined.

(** C7 as stated fails: asked for an LHS never observed, [rhss] returns
    an empty collection in both models. *)
Lemma rhss_unknown_lhs_returns_empty :
  (LogLinModelFromFile.lhss example_model).1 = Ok ["S"] /\
  (LogLinModelFromFile.rhss "T" example_model).1 = Ok [] /\
  (LogLinModelBasic.lhss (LogLinModelBasic.init example_rulelist)).1 = Ok ["S"] /\
  (LogLinModelBasic.rhss "T" (LogLinModelBasic.init example_rulelist)).1 = Ok [].
Proof. split_and!; reflexivity. Qed.

(** C10.  On the dense model, asking for the RHSs of an LHS never
    observed adds that LHS to the rule table; [lhss()] then lists it, and
    the probability engine, finding an LHS without alternatives, raises. *)
Theorem dense_rhss_unknown_lhs_changes_rules :
  let m' := (LogLinModelFromFile.rhss "T" example_model).2 in
  (LogLinModelFromFile.lhss example_model).1 = Ok ["S"] /\
  (LogLinModelFromFile.rhss "T" example_model).1 = Ok [] /\
  (LogLinModelFromFile.lhss m').1 = Ok ["S"; "T"] /\
  LogLinModelFromFile._rules m' <> LogLinModelFromFile._rules example_model /\
  (LogLinModelFromFile.featvec "T" ["A"] example_model).1 = Raise KeyError /\
  LogLinModelFromFile._rules
    (LogLinModelFromFile.featvec "T" ["A"] example_model).2
  = LogLinModelFromFile._rules m' /\
  (exists probtable, (probs_from_model [0%R] example_model).1 = Ok probtable) /\
  (probs_from_model [0%R] m').1 = Raise ValueError.
Proof.
  split_and!; try reflexivity; [discriminate|].
  destruct example_represents as [Hrep Hne].
  destruct (probs_from_model_returns (H0 := dense_lawful) _ 1 [0%R]
              (proj2 Hrep) Hne eq_refl example_model Hrep) as (s' & -> & _).
  by eexists.
Qed.

(** The indicator model keeps its rule list under every query. *)
Lemma basic_queries_keep_rulelist (self : LogLinModelBasic.t)
    (lhs : Token) (rhs : RHS) (othervec : vec) :
  LogLinModelBasic._rulelist (LogLinModelBasic.lhss self).2
    = LogLinModelBasic._rulelist self /\
  LogLinModelBasic._rulelist (LogLinModelBasic.rhss lhs self).2
    = LogLinModelBasic._rulelist self /\
  LogLinModelBasic._rulelist (LogLinModelBasic.find_index lhs rhs self).2
    = LogLinModelBasic._rulelist self /\
  LogLinModelBasic._rulelist (LogLinModelBasic.featvec lhs rhs self).2
    = LogLinModelBasic._rulelist self /\
  LogLinModelBasic._rulelist (LogLinModelBasic.featvec_dot lhs rhs othervec self).2
    = LogLinModelBasic._rulelist self.
Proof.
  assert (LogLinModelBasic._rulelist (LogLinModelBasic.find_index lhs rhs self).2
          = LogLinModelBasic._rulelist self) as Hfind.
  { unfold LogLinModelBasic.find_index.
    destruct (LogLinModelBasic._indexdict self !! (lhs, rhs)); [done|].
    by destruct (list_index (lhs, rhs) (LogLinModelBasic._rulelist self)). }
  split_and!; try done.
  - unfold LogLinModelBasic.featvec.
    destruct (LogLinModelBasic._featvecdict self !! (lhs, rhs)); [done|].
    unfold bind.
    destruct (LogLinModelBasic.find_index lhs rhs self) as [[i|e] s1]; simpl in *;
      done.
  - unfold LogLinModelBasic.featvec_dot, bind.
    destruct (LogLinModelBasic.find_index lhs rhs self) as [[i|e] s1]; simpl in *;
      done.
Qed.

(** ** The rule aggregator and the data preparation of [run] *)

Lemma extract_step_value td freq lhs rhs :
  extract_step td (freq, lhs, rhs) =
  dict_set lhs
    (dict_set rhs (default 0%Z (td_freq td lhs rhs) + freq)%Z
       (default [] (dict_get lhs td))) td.
Proof.
  unfold extract_step, defaultdict_getitem, td_freq.
  destruct (dict_get lhs td) as [inner|]; simpl; [done|].
  apply dict_set_set.
Qed.

Lemma td_freq_step td freq lhs rhs l r :
  td_freq (extract_step td (freq, lhs, rhs)) l r =
  if decide (l = lhs /\ r = rhs)
  then Some (default 0%Z (td_freq td lhs rhs) + freq)%Z
  else td_freq td l r.
Proof.
  rewrite extract_step_value. unfold td_freq at 1.
  destruct (decide (l = lhs)) as [->|Hl].
  - rewrite dict_get_set_eq. simpl.
    destruct (decide (r = rhs)) as [->|Hr].
    + rewrite dict_get_set_eq. by rewrite decide_True.
    + rewrite dict_get_set_ne by done. rewrite decide_False by tauto.
      unfold td_freq. by destruct (dict_get lhs td).
  - rewrite dict_get_set_ne by done. by rewrite decide_False by tauto.
Qed.

Lemma extract_training_data_snoc inp record :
  extract_training_data (inp ++ [record]) =
  extract_step (extract_training_data inp) record.
Proof. unfold extract_training_data. by rewrite foldl_snoc. Qed.

Lemma record_freqs_snoc inp freq lhs rhs l r :
  record_freqs (inp ++ [(freq, lhs, rhs)]) l r =
  record_freqs inp l r ++
  (if decide (l = lhs /\ r = rhs) then [freq] else []).
Proof.
  unfold record_freqs. rewrite filter_app, fmap_app. f_equal.
  rewrite filter_cons, filter_nil. simpl.
  destruct (decide (lhs = l /\ rhs = r)) as [[-> ->]|Hne].
  - by rewrite decide_True.
  - rewrite decide_False; [done|]. intros [-> ->]. tauto.
Qed.

Lemma Zsum_app l1 l2 : Zsum (l1 ++ l2) = (Zsum l1 + Zsum l2)%Z.
Proof. unfold Zsum. induction l1 as [|x l1 IH]; simpl; lia. Qed.

Lemma extract_training_data_freq inp lhs rhs :
  td_freq (extract_training_data inp) lhs rhs =
  match record_freqs inp lhs rhs with
  | [] => None
  | freqs => Some (Zsum freqs)
  end.
Proof.
  induction inp as [|[[freq l] r] inp IH] using rev_ind; [done|].
  rewrite extract_training_data_snoc, td_freq_step, record_freqs_snoc.
  case_decide as Heq.
  - destruct Heq as [-> ->]. rewrite IH.
    destruct (record_freqs inp l r) as [|f fs] eqn:Hf; simpl.
    + f_equal. unfold Zsum. simpl. lia.
    + f_equal. change (f :: fs ++ [freq]) with ((f :: fs) ++ [freq]).
      rewrite Zsum_app. unfold Zsum. simpl. lia.
  - rewrite app_nil_r. done.
Qed.

Lemma wf_td_step td record : wf_td td -> wf_td (extract_step td record).
Proof.
  destruct record as [[freq lhs] rhs]. intros [Hk Hr].
  rewrite extract_step_value. split.
  - by apply NoDup_dict_keys_set.
  - intros l d [[-> ->]|Hin]%elem_dict_set; [|by apply (Hr l)].
    split; [|apply dict_set_not_nil]. apply NoDup_dict_keys_set.
    destruct (dict_get lhs td) as [inner|] eqn:Hl; simpl.
    + apply dict_get_Some_elem in Hl. by destruct (Hr _ _ Hl).
    + apply NoDup_nil_2.
Qed.

Lemma wf_td_extract inp : wf_td (extract_training_data inp).
Proof.
  induction inp as [|record inp IH] using rev_ind.
  - split; [apply NoDup_nil_2|]. intros lhs d Hin. by apply elem_of_nil in Hin.
  - rewrite extract_training_data_snoc. by apply wf_td_step.
Qed.

Lemma td_entries_freq td lhs rhs freq :
  wf_td td ->
  (lhs, rhs, freq) ∈ td_entries td <-> td_freq td lhs rhs = Some freq.
Proof.
  intros [Hk Hr]. unfold td_entries, td_freq. rewrite list_elem_of_bind. split.
  - intros ([lhs' d] & Hin & Hd). simpl in Hin.
    apply list_elem_of_fmap in Hin as ([rhs' freq'] & [= -> -> ->] & Hin).
    rewrite (elem_dict_get _ _ _ Hk Hd). simpl.
    apply elem_dict_get; [|done]. by destruct (Hr _ _ Hd).
  - destruct (dict_get lhs td) as [d|] eqn:Hl; simpl; [|done]. intros Hf.
    exists (lhs, d). split; [|by apply dict_get_Some_elem]. simpl.
    apply list_elem_of_fmap. exists (rhs, freq).
    split; [done|]. by apply dict_get_Some_elem.
Qed.

Lemma record_freqs_nonempty inp lhs rhs :
  record_freqs inp lhs rhs <> [] <-> exists freq, (freq, lhs, rhs) ∈ inp.
Proof.
  unfold record_freqs. split.
  - intros Hne.
    destruct (filter _ inp) as [|[[freq l] r] rs] eqn:Hf; [done|].
    assert ((freq, l, r) ∈ filter (fun record : Z * Token * RHS =>
              record.1.2 = lhs /\ record.2 = rhs) inp) as Hin.
    { rewrite Hf. left. }
    apply list_elem_of_filter in Hin as [[Hl Hr] Hin]. simpl in *. subst.
    by exists freq.
  - intros [freq Hin] Hnil%fmap_nil_inv.
    assert ((freq, lhs, rhs) ∈ filter (fun record : Z * Token * RHS =>
              record.1.2 = lhs /\ record.2 = rhs) inp) as Hf.
    { by apply list_elem_of_filter. }
    rewrite Hnil in Hf. by apply elem_of_nil in Hf.
Qed.

(** The table has an entry for exactly the rules of the records. *)
Lemma extract_training_data_is_Some inp lhs rhs :
  is_Some (td_freq (extract_training_data inp) lhs rhs) <->
  exists freq, (freq, lhs, rhs) ∈ inp.
Proof.
  rewrite extract_training_data_freq, <- record_freqs_nonempty.
  destruct (record_freqs inp lhs rhs); split; done.
Qed.

Section run.
Import LogLinModelFromFile.

Lemma run_same_rules input_data m lhs rhs :
  run_model input_data = Ok m ->
  is_Some (stored_feats (_rules m) lhs rhs) <->
  is_Some (td_freq (run_td input_data) lhs rhs).
Proof.
  intros Hm. unfold run_model in Hm. unfold run_td.
  rewrite (init_stored _ _ lhs rhs Hm), extract_training_data_is_Some.
  split.
  - intros [f ([[[freq l] r] f'] & [= <- <- <-] & Hin)%list_elem_of_fmap].
    exists freq. apply list_elem_of_fmap. by exists (freq, lhs, rhs, f).
  - intros [freq ([[[freq' l] r] f] & [= <- <- <-] & Hin)%list_elem_of_fmap].
    exists f. apply list_elem_of_fmap. by exists (freq, lhs, rhs, f).
Qed.

Lemma run_td_covered input_data m :
  run_model input_data = Ok m -> td_covered (_rules m) (run_td input_data).
Proof.
  intros Hm lhs rhs freq Hin.
  apply (run_same_rules _ _ lhs rhs Hm).
  apply td_entries_freq in Hin; [by eexists|apply wf_td_extract].
Qed.
End run.

(** ** More on the probability engine *)

Lemma dot_zeros_l n f : dot (replicate n 0%R) f = 0%R.
Proof.
  revert f. induction n as [|n IH]; intros [|y f]; simpl; try done.
  rewrite IH. lra.
Qed.

Lemma np_sum_fmap_shift (b : R) (l : list R) :
  np_sum ((fun s => exp (s - b)) <$> l) = (np_sum (exp <$> l) / exp b)%R.
Proof.
  pose proof (exp_pos b) as Hb.
  unfold np_sum. induction l as [|s l IH]; csimpl.
  - field. lra.
  - rewrite IH. unfold Rminus. rewrite exp_plus, exp_Ropp. field. lra.
Qed.

(** The shift by the largest score cancels: the probability is the plain
    softmax of the scores. *)
Lemma softmax_prob_plain weights row f :
  row <> [] ->
  softmax_prob weights row f =
  (exp (dot weights f) / np_sum (exp <$> row_scores weights row))%R.
Proof.
  intros Hrow. unfold softmax_prob, row_total.
  set (b := maximum (row_scores weights row)).
  pose proof (exp_pos b) as Hb.
  assert (0 < np_sum (exp <$> row_scores weights row))%R as Hpos.
  { apply np_sum_pos.
    - unfold row_scores, dict_values. by destruct row.
    - apply Forall_fmap, Forall_true. intros s. apply exp_pos. }
  rewrite np_sum_fmap_shift. unfold Rminus. rewrite exp_plus, exp_Ropp.
  field. lra.
Qed.

Lemma np_sum_const {A} (c : R) (l : list A) :
  np_sum ((fun _ => c) <$> l) = (INR (length l) * c)%R.
Proof.
  unfold np_sum. induction l as [|x l IH]; [simpl; lra|].
  rewrite fmap_cons, length_cons, S_INR. simpl. rewrite IH. lra.
Qed.

Lemma row_scores_zeros d row :
  row_scores (replicate d 0%R) row = (fun _ => 0%R) <$> dict_values row.
Proof.
  unfold row_scores. apply list_fmap_ext. intros i f _. apply dot_zeros_l.
Qed.

Lemma softmax_prob_zeros d row f :
  row <> [] ->
  softmax_prob (replicate d 0%R) row f = (1 / INR (length row))%R.
Proof.
  intros Hrow. rewrite softmax_prob_plain by done.
  rewrite dot_zeros_l, row_scores_zeros, <- list_fmap_compose.
  rewrite (np_sum_const (exp 0)). unfold dict_values.
  rewrite length_fmap, exp_0. f_equal. lra.
Qed.

(** X2.  At the all-zero weight vector, the starting point of [train],
    every LHS has the uniform distribution over its RHSs. *)
Theorem probs_from_model_uniform_at_zero
    {S : Type} {model : LogLinModel S} {laws : Lawful S}
    (rules : dict Token (dict RHS vec)) (d : nat) (s : S) :
  represents rules d s -> nonempty_rows rules ->
  exists probtable s',
    probs_from_model (replicate d 0%R) s = (Ok probtable, s') /\
    forall x row y f,
      dict_get x rules = Some row -> dict_get y row = Some f ->
      prob_of probtable x y = Some (1 / INR (length row))%R.
Proof.
  intros Hs Hne. pose proof (represents_wf _ _ _ Hs) as Hwf.
  destruct (probs_from_model_returns rules d (replicate d 0%R) Hwf Hne
              (length_replicate _ _) s Hs) as (s' & Hrun & _).
  exists (probs_spec (replicate d 0%R) rules), s'. split; [done|].
  intros x row y f Hx Hy.
  rewrite (prob_of_probs_spec_Some _ _ _ _ _ _ Hx Hy). f_equal.
  apply softmax_prob_zeros. eapply Hne. by eapply dict_get_Some_elem.
Qed.

Lemma probs_from_model_uniform_at_zero_witness :
  exists probtable s',
    probs_from_model [0%R] example_model = (Ok probtable, s') /\
    prob_of probtable "S" ["B"] = Some (1 / INR 2)%R.
Proof.
  destruct example_represents as [Hrep Hne].
  destruct (probs_from_model_uniform_at_zero (laws := dense_lawful)
              (LogLinModelFromFile._rules example_model) 1 example_model
              Hrep Hne)
    as (probtable & s' & Hrun & Hp).
  exists probtable, s'. split; [exact Hrun|].
  exact (Hp "S" _ ["B"] [0%R] eq_refl eq_refl).
Defined.

(** ** More on the gradient *)

Lemma length_vadd a b : length (vadd a b) = min (length a) (length b).
Proof. apply length_zip_with. Qed.

Lemma length_vsub a b : length (vsub a b) = min (length a) (length b).
Proof. apply length_zip_with. Qed.

Lemma length_vscale c a : length (vscale c a) = length a.
Proof. apply length_fmap. Qed.

Lemma length_vsum d l :
  Forall (fun v => length v = d) l -> length (vsum d l) = d.
Proof.
  unfold vsum. induction 1 as [|v l Hv Hl IH]; simpl.
  - apply length_replicate.
  - rewrite length_vadd, IH, Hv. lia.
Qed.

Lemma vsub_zeros a : vsub a (replicate (length a) 0%R) = a.
Proof.
  unfold vsub. induction a as [|x a IH]; simpl; [done|].
  rewrite IH. f_equal. lra.
Qed.

Lemma length_expectation_spec d probtable rules lhs :
  wf_rules d rules -> length (expectation_spec d probtable rules lhs) = d.
Proof.
  intros Hwf. unfold expectation_spec. apply length_vsum, Forall_fmap.
  destruct (dict_get lhs rules) as [row|] eqn:Hl; simpl; [|done].
  apply dict_get_Some_elem in Hl. apply Forall_forall. intros [y f] Hin.
  simpl. rewrite length_vscale. by eapply (wf_dim _ _ Hwf).
Qed.

Lemma length_grad_loglikelihood_spec d probtable rules td :
  wf_rules d rules -> td_covered rules td ->
  length (grad_loglikelihood_spec d probtable rules td) = d.
Proof.
  intros Hwf Htd. unfold grad_loglikelihood_spec.
  apply length_vsum, Forall_fmap, Forall_forall.
  intros [[lhs rhs] freq] Hin. simpl.
  destruct (Htd _ _ _ Hin) as [f Hf]. rewrite Hf. simpl.
  apply stored_feats_Some in Hf as (row & Hl & Hr).
  apply dict_get_Some_elem in Hl, Hr.
  rewrite length_vscale, length_vsub, length_expectation_spec by done.
  rewrite (wf_dim _ _ Hwf _ _ _ _ Hl Hr). lia.
Qed.

(** X6.  The vectors [loglhdgrad] and the gradient closure return have
    the dimension of the model. *)
Theorem gradient_has_model_dimension
    {S : Type} {model : LogLinModel S} {laws : Lawful S}
    (rules : dict Token (dict RHS vec)) (d : nat) (s : S)
    (td : FrequencyTable) (lam : R) (weights : vec) :
  represents rules d s -> nonempty_rows rules -> td_covered rules td ->
  length weights = d ->
  exists gl g s1 s2,
    loglhdgrad td weights s = (Ok gl, s1) /\ length gl = d /\
    gradient td lam weights s = (Ok g, s2) /\ length g = d.
Proof.
  intros Hs Hne Htd Hlen. pose proof (represents_wf _ _ _ Hs) as Hwf.
  destruct (loglhdgrad_returns rules d weights td Hwf Hne Hlen Htd s Hs)
    as (s1 & Hgl & _).
  destruct (gradient_returns rules d weights td Hwf Hne Hlen Htd lam s Hs)
    as (s2 & Hg & _).
  eexists _, _, s1, s2. split_and!; [done| |done|].
  - by apply length_grad_loglikelihood_spec.
  - rewrite length_vsub, length_vscale, length_grad_loglikelihood_spec by done.
    lia.
Qed.

Lemma gradient_has_model_dimension_witness :
  exists g s2,
    gradient example_td 1%R [2%R] example_model = (Ok g, s2) /\ length g = 1.
Proof.
  destruct example_represents as [Hrep Hne].
  destruct (gradient_has_model_dimension (laws := dense_lawful)
              (LogLinModelFromFile._rules example_model) 1 example_model
              example_td 1%R [2%R] Hrep Hne example_td_covered eq_refl)
    as (gl & g & s1 & s2 & _ & _ & Hg & Hlen).
  exists g, s2. split; [exact Hg|exact Hlen].
Defined.

(** X7.  With an empty frequency table the log-likelihood is 0, the
    objective is the penalty and the gradient is [lambda * weights]. *)
Theorem empty_frequency_table
    {S : Type} {model : LogLinModel S} {laws : Lawful S}
    (rules : dict Token (dict RHS vec)) (d : nat) (s : S)
    (lam : R) (weights : vec) :
  represents rules d s -> nonempty_rows rules -> length weights = d ->
  exists s1 s2 s3,
    loglikelihood [] weights s = (Ok 0%R, s1) /\
    objective [] lam weights s = (Ok (penalty lam weights), s2) /\
    gradient [] lam weights s = (Ok (vscale lam weights), s3).
Proof.
  intros Hs Hne Hlen. pose proof (represents_wf _ _ _ Hs) as Hwf.
  assert (td_covered rules []) as Htd.
  { intros lhs rhs freq Hin. by apply elem_of_nil in Hin. }
  destruct (loglikelihood_returns rules d weights [] Hwf Hne Hlen Htd s Hs)
    as (s1 & Hll & _).
  destruct (objective_returns rules d weights [] Hwf Hne Hlen Htd lam s Hs)
    as (s2 & Hob & _).
  destruct (gradient_returns rules d weights [] Hwf Hne Hlen Htd lam s Hs)
    as (s3 & Hg & _).
  exists s1, s2, s3. rewrite Hll, Hob, Hg. split_and!.
  - done.
  - do 2 f_equal. unfold loglikelihood_spec, td_entries, np_sum. simpl. lra.
  - do 2 f_equal. unfold grad_loglikelihood_spec, td_entries, vsum. simpl.
    rewrite <- Hlen, <- (length_vscale lam weights). apply vsub_zeros.
Qed.

Lemma empty_frequency_table_witness :
  exists s3, gradient [] 3%R [2%R] example_model = (Ok (vscale 3%R [2%R]), s3).
Proof.
  destruct example_represents as [Hrep Hne].
  destruct (empty_frequency_table (laws := dense_lawful)
              (LogLinModelFromFile._rules example_model) 1 example_model
              3%R [2%R] Hrep Hne eq_refl)
    as (s1 & s2 & s3 & _ & _ & Hg).
  exists s3. exact Hg.
Defined.

(** ** More on the dense model *)

Section dense_more.
Import LogLinModelFromFile.

Lemma model_eta (m : t) : mk (_rules m) (_dim m) = m.
Proof. by destruct m. Qed.

(** A query about an LHS the table has leaves the model as it is. *)
Lemma rhss_known m lhs row :
  dict_get lhs (_rules m) = Some row -> rhss lhs m = (Ok (dict_keys row), m).
Proof.
  intros Hl. unfold rhss, defaultdict_getitem. rewrite Hl.
  by rewrite model_eta.
Qed.

Lemma featvec_known m lhs rhs row :
  dict_get lhs (_rules m) = Some row ->
  featvec lhs rhs m = (dict_getitem rhs row, m).
Proof.
  intros Hl. unfold featvec, defaultdict_getitem. rewrite Hl.
  by rewrite model_eta.
Qed.

(** A query about an LHS the table lacks binds it to an empty dict. *)
Lemma rhss_unknown m lhs :
  dict_get lhs (_rules m) = None ->
  rhss lhs m = (Ok [], mk (_rules m ++ [(lhs, [])]) (_dim m)).
Proof.
  intros Hl. unfold rhss, defaultdict_getitem. rewrite Hl.
  by rewrite dict_set_fresh.
Qed.

Lemma featvec_unknown m lhs rhs :
  dict_get lhs (_rules m) = None ->
  featvec lhs rhs m = (Raise KeyError, mk (_rules m ++ [(lhs, [])]) (_dim m)).
Proof.
  intros Hl. unfold featvec, defaultdict_getitem. rewrite Hl.
  by rewrite dict_set_fresh.
Qed.

(** X8.  After construction, [featvec] returns for every recorded rule
    the vector of its first record, raises [KeyError] for an unrecorded
    RHS of a recorded LHS, and [rhss] of a recorded LHS returns; none of
    these calls changes the model. *)
Theorem dense_lookup_after_init (inp : list (Token * RHS * vec)) (m : t)
    (lhs : Token) (rhs : RHS) :
  init inp = Ok m ->
  (exists y f, (lhs, y, f) ∈ inp) ->
  featvec lhs rhs m =
    (match first_feats inp lhs rhs with
     | Some f => Ok f
     | None => Raise KeyError
     end, m) /\
  (rhss lhs m).2 = m /\
  ((exists f, (lhs, rhs, f) ∈ inp) <-> exists f, (featvec lhs rhs m).1 = Ok f).
Proof.
  intros Hinit Hobs. pose proof (init_inv_Ok _ _ Hinit) as Hinv.
  assert (is_Some (dict_get lhs (_rules m))) as [row Hl].
  { apply dict_get_is_Some. by apply (init_lhss inp m lhs Hinit). }
  assert (featvec lhs rhs m =
          (match first_feats inp lhs rhs with
           | Some f => Ok f
           | None => Raise KeyError
           end, m)) as Hfv.
  { rewrite (featvec_known _ _ _ _ Hl), <- (inv_stored _ _ Hinv).
    unfold stored_feats, dict_getitem. rewrite Hl. done. }
  split_and!; [done|by rewrite (rhss_known _ _ _ Hl)|].
  rewrite Hfv. simpl. rewrite <- (init_stored inp m lhs rhs Hinit).
  rewrite (inv_stored _ _ Hinv).
  destruct (first_feats inp lhs rhs); split; intros [f Hf]; by eauto.
Qed.

Lemma dense_lookup_after_init_witness :
  featvec "S" ["B"] example_model = (Ok [0%R], example_model) /\
  featvec "S" ["C"] example_model = (Raise KeyError, example_model).
Proof.
  split.
  - apply (dense_lookup_after_init example_input example_model "S" ["B"]
             example_init).
    exists ["A"], [1%R]. left.
  - apply (dense_lookup_after_init example_input example_model "S" ["C"]
             example_init).
    exists ["A"], [1%R]. left.
Defined.
End dense_more.

(** One iteration of [probs_from_model] returns on a row that has an
    alternative, whatever the other rows are. *)
Lemma probs_from_model_row_returns_nonempty
    {S : Type} {model : LogLinModel S} {laws : Lawful S}
    (rules : dict Token (dict RHS vec)) (d : nat) (weights : vec)
    (probtable : ProbabilityTable) (x : Token) (row : dict RHS vec) :
  wf_rules d rules -> length weights = d ->
  dict_get x rules = Some row -> row <> [] ->
  returns (represents rules d) (probs_from_model_row weights probtable x)
    (dict_set x (probs_row weights row) probtable).
Proof.
  intros Hwf Hlen Hx Hrow. pose proof (dict_get_Some_elem _ _ _ Hx) as Hin.
  unfold probs_from_model_row.
  eapply returns_bind; [by eapply rhss_returns|].
  eapply returns_bind; [by apply scores_returns|].
  eapply returns_bind.
  { apply returns_lift, np_max_maximum. unfold row_scores, dict_values.
    by destruct row. }
  apply returns_ret_eq. f_equal. apply normalized_row; [|done].
  apply (wf_rhss _ _ Hwf _ _ Hin).
Qed.

Lemma foldM_app {S A B} (f : B -> A -> M S B) (l1 l2 : list A) (acc : B) s :
  foldM f (l1 ++ l2) acc s =
  bind (foldM f l1 acc) (fun acc' => foldM f l2 acc') s.
Proof.
  revert acc s. induction l1 as [|x l1 IH]; intros acc s; simpl; [done|].
  unfold bind in *. destruct (f acc x s) as [[a|e] s1]; [apply IH|done].
Qed.

Section dense_broken.
Import LogLinModelFromFile.

Lemma wf_rules_snoc_empty d rules lhs :
  wf_rules d rules -> dict_get lhs rules = None ->
  wf_rules d (rules ++ [(lhs, [])]).
Proof.
  intros [Hk Hr Hd] Hl. split.
  - unfold dict_keys in *. rewrite fmap_app. apply NoDup_app.
    split_and!; [done| |apply NoDup_singleton].
    intros x Hx ->%list_elem_of_singleton. by apply dict_get_None in Hl.
  - intros x row [Hin|[= -> ->]%list_elem_of_singleton]%elem_of_app;
      [by eapply Hr|apply NoDup_nil_2].
  - intros x row y f [Hin|[= -> ->]%list_elem_of_singleton]%elem_of_app Hy;
      [by eapply Hd|by apply elem_of_nil in Hy].
Qed.

Lemma dict_get_app_l {K V} `{EqDecision K} (k : K) (v : V) (d1 d2 : dict K V) :
  dict_get k d1 = Some v -> dict_get k (d1 ++ d2) = Some v.
Proof.
  induction d1 as [|[k' v'] d1 IH]; simpl; [done|]. by case_decide.
Qed.

Lemma dict_get_app_r {K V} `{EqDecision K} (k : K) (d1 d2 : dict K V) :
  dict_get k d1 = None -> dict_get k (d1 ++ d2) = dict_get k d2.
Proof.
  induction d1 as [|[k' v'] d1 IH]; simpl; [done|]. by case_decide.
Qed.

(** X9.  On a dense model, [rhss] of an LHS the table lacks returns an
    empty collection and leaves the LHS in the table with no RHS; from
    then on [lhss] lists it last and [probs_from_model], which returned
    before, raises [ValueError] for every weight vector. *)
Theorem dense_unknown_lhs_breaks_probs_from_model
    (rules : dict Token (dict RHS vec)) (d : nat) (weights : vec) (lhs : Token) :
  wf_rules d rules -> nonempty_rows rules -> length weights = d ->
  dict_get lhs rules = None ->
  let s := mk rules (Some d) in
  let s' := mk (rules ++ [(lhs, [])]) (Some d) in
  rhss lhs s = (Ok [], s') /\
  (forall rhs, featvec lhs rhs s = (Raise KeyError, s')) /\
  lhss s' = (Ok (dict_keys rules ++ [lhs]), s') /\
  (exists probtable, probs_from_model weights s = (Ok probtable, s)) /\
  probs_from_model weights s' = (Raise ValueError, s').
Proof.
  intros Hwf Hne Hlen Hl s s'. split_and!.
  - by rewrite (rhss_unknown s lhs Hl).
  - intros rhs. by rewrite (featvec_unknown s lhs rhs Hl).
  - unfold lhss, gets, dict_keys. simpl. by rewrite fmap_app.
  - assert (dense_represents rules d s) as Hs by done.
    destruct (probs_from_model_returns (H0 := dense_lawful) rules d weights
                Hwf Hne Hlen s Hs) as (s1 & Hrun & [-> _]).
    by eexists.
  - pose proof (wf_rules_snoc_empty d rules lhs Hwf Hl) as Hwf'.
    assert (dense_represents (rules ++ [(lhs, [])]) d s') as Hs' by done.
    unfold probs_from_model, bind. simpl.
    unfold dict_keys. rewrite fmap_app, foldM_app. simpl.
    assert (returns (dense_represents (rules ++ [(lhs, [])]) d)
              (foldM (probs_from_model_row weights) rules.*1 [])
              (foldl (fun acc x =>
                        dict_set x (probs_row weights
                                      (default [] (dict_get x rules))) acc)
                 [] rules.*1)) as Hpre.
    { apply returns_foldM. intros acc x [row Hx]%dict_get_is_Some.
      rewrite Hx. simpl.
      apply (probs_from_model_row_returns_nonempty (laws := dense_lawful));
        [done..|by apply dict_get_app_l|].
      eapply Hne. by eapply dict_get_Some_elem. }
    destruct (Hpre s' Hs') as (s1 & Hrun & [-> _]).
    unfold bind at 1. rewrite Hrun.
    unfold bind, probs_from_model_row, bind. simpl.
    unfold rhss, defaultdict_getitem. simpl.
    rewrite dict_get_app_r by done. simpl. rewrite decide_True by done.
    simpl. done.
Qed.
End dense_broken.

Lemma dense_unknown_lhs_breaks_probs_from_model_witness :
  probs_from_model [2%R]
    (LogLinModelFromFile.rhss "T" example_model).2
  = (Raise ValueError, (LogLinModelFromFile.rhss "T" example_model).2).
Proof.
  destruct example_represents as [[_ Hwf] Hne].
  apply (dense_unknown_lhs_breaks_probs_from_model
           (LogLinModelFromFile._rules example_model) 1 [2%R] "T"
           Hwf Hne eq_refl eq_refl).
Defined.

Section dense_absorb.
Import LogLinModelFromFile.

Lemma init_step_repeat inp m t :
  init inp = Ok m -> t ∈ inp -> init_step m t = Ok m.
Proof.
  destruct t as [[lhs rhs] feats]. intros Hinit Hin.
  pose proof (init_inv_Ok _ _ Hinit) as Hinv.
  pose proof (inv_dim _ _ Hinv) as Hdim.
  assert (_dim m = Some (length feats)) as Hd.
  { destruct (_dim m) as [d|] eqn:Hm.
    - pose proof (inv_same _ _ Hinv d Hm) as Hsame.
      unfold same_dims in Hsame. rewrite Forall_forall in Hsame.
      by rewrite <- (Hsame _ Hin).
    - destruct inp as [|t0 inp]; [by apply elem_of_nil in Hin|done]. }
  assert (stored_feats (_rules m) lhs rhs = Some feats) as Hst.
  { rewrite (inv_stored _ _ Hinv).
    by apply first_feats_agree; [apply (inv_agree _ _ Hinv)|]. }
  apply stored_feats_Some in Hst as (row & Hl & Hr).
  unfold init_step, defaultdict_getitem. rewrite Hd, Hl, Hr.
  rewrite decide_True by done. simpl. unfold np_array_equal.
  rewrite bool_decide_eq_true_2 by done. rewrite <- Hd. by rewrite model_eta.
Qed.

(** X10.  Records that repeat earlier records, vector included, are
    absorbed: construction gives the same model with or without them. *)
Theorem init_absorbs_repeated_records
    (inp extra : list (Token * RHS * vec)) (m : t) :
  init inp = Ok m -> (forall t, t ∈ extra -> t ∈ inp) ->
  init (inp ++ extra) = Ok m.
Proof.
  revert inp. induction extra as [|t extra IH]; intros inp Hinit Hsub.
  - by rewrite app_nil_r.
  - replace (inp ++ t :: extra) with ((inp ++ [t]) ++ extra)
      by (by rewrite <- app_assoc).
    apply IH.
    + apply rfold_snoc_Ok. exists m. split; [done|].
      apply (init_step_repeat inp); [done|]. apply Hsub. left.
    + intros t' Hin. apply elem_of_app. left. apply Hsub. by right.
Qed.

Lemma init_absorbs_repeated_records_witness :
  init (example_input ++ [("S", ["B"], [0%R]); ("S", ["A"], [1%R])])
  = Ok example_model.
Proof.
  apply (init_absorbs_repeated_records example_input _ example_model
           example_init).
  intros t. unfold example_input. rewrite !elem_of_cons.
  intros [->|[->|?%elem_of_nil]]; [auto|auto|done].
Defined.
End dense_absorb.

Lemma example_single_init :
  LogLinModelFromFile.init example_single_input
  = Ok (LogLinModelFromFile.mk [("T", [(["C"], [3%R])])] (Some 1)).
Proof. reflexivity. Qed.

(** ** The claims about the rule aggregator and [run] *)

Lemma Zsum_values_dict_set (rhs : RHS) (v : Z) (inner : dict RHS Z) :
  Zsum (dict_values (dict_set rhs v inner)) =
  (Zsum (dict_values inner) - default 0%Z (dict_get rhs inner) + v)%Z.
Proof.
  unfold Zsum, dict_values. induction inner as [|[r v'] inner IH]; csimpl.
  - lia.
  - case_decide; csimpl; [lia|]. rewrite IH. lia.
Qed.

Lemma Zsum_values_set (rhs : RHS) (freq : Z) (inner : dict RHS Z) :
  Zsum (dict_values
          (dict_set rhs (default 0%Z (dict_get rhs inner) + freq)%Z inner)) =
  (Zsum (dict_values inner) + freq)%Z.
Proof. rewrite Zsum_values_dict_set. lia. Qed.

Lemma td_total_cons lhs d (td : FrequencyTable) :
  td_total ((lhs, d) :: td) = (Zsum (dict_values d) + td_total td)%Z.
Proof.
  unfold td_total, td_entries. csimpl. rewrite fmap_app, Zsum_app.
  f_equal. rewrite <- list_fmap_compose. done.
Qed.

Lemma td_total_set lhs new (td : FrequencyTable) :
  td_total (dict_set lhs new td) =
  (td_total td - Zsum (dict_values (default [] (dict_get lhs td)))
   + Zsum (dict_values new))%Z.
Proof.
  induction td as [|[l d] td IH]; simpl.
  - rewrite td_total_cons. unfold td_total, td_entries, Zsum. simpl. lia.
  - case_decide; simpl.
    + rewrite !td_total_cons. lia.
    + rewrite !td_total_cons, IH. lia.
Qed.

Lemma td_total_step td freq lhs rhs :
  td_total (extract_step td (freq, lhs, rhs)) = (td_total td + freq)%Z.
Proof.
  rewrite extract_step_value, td_total_set.
  unfold td_freq. destruct (dict_get lhs td) as [inner|]; simpl.
  - rewrite Zsum_values_set. lia.
  - unfold Zsum. simpl. lia.
Qed.

(** X11.  [extract_training_data] folds the records into a table with
    one entry per observed rule, holding the sum of the frequencies of
    the records of that rule; no LHS is left without entry, and the
    frequencies of the table add up to those of the records. *)
Theorem extract_training_data_sums_frequencies (inp : list (Z * Token * RHS)) :
  let td := extract_training_data inp in
  wf_td td /\
  (forall lhs rhs,
     td_freq td lhs rhs =
     match record_freqs inp lhs rhs with
     | [] => None
     | freqs => Some (Zsum freqs)
     end) /\
  (forall lhs rhs freq,
     (lhs, rhs, freq) ∈ td_entries td <->
     (exists freq', (freq', lhs, rhs) ∈ inp) /\
     freq = Zsum (record_freqs inp lhs rhs)) /\
  td_total td = Zsum ((fun record : Z * Token * RHS => record.1.1) <$> inp).
Proof.
  intros td. split_and!.
  - apply wf_td_extract.
  - apply extract_training_data_freq.
  - intros lhs rhs freq. unfold td.
    rewrite (td_entries_freq _ _ _ _ (wf_td_extract inp)).
    rewrite extract_training_data_freq, <- record_freqs_nonempty.
    destruct (record_freqs inp lhs rhs) as [|f fs]; split.
    + done.
    + by intros [? _].
    + intros [= <-]. done.
    + intros [_ ->]. done.
  - unfold td. induction inp as [|[[freq lhs] rhs] inp IH] using rev_ind;
      [done|].
    rewrite extract_training_data_snoc, td_total_step, IH.
    rewrite fmap_app, Zsum_app. unfold Zsum. simpl. lia.
Qed.

(** X12.  The frequency the table holds for a rule does not depend on
    the order of the records. *)
Theorem extract_training_data_order_irrelevant
    (inp inp' : list (Z * Token * RHS)) (lhs : Token) (rhs : RHS) :
  inp ≡ₚ inp' ->
  td_freq (extract_training_data inp) lhs rhs =
  td_freq (extract_training_data inp') lhs rhs.
Proof.
  intros Hperm. rewrite !extract_training_data_freq.
  assert (record_freqs inp lhs rhs ≡ₚ record_freqs inp' lhs rhs) as Hp.
  { unfold record_freqs. by rewrite Hperm. }
  assert (Zsum (record_freqs inp lhs rhs) = Zsum (record_freqs inp' lhs rhs))
    as Hsum.
  { unfold Zsum. apply foldr_permutation; [apply _..| |done].
    intros j1 a1 j2 a2 b _ _ _. lia. }
  apply Permutation_length in Hp.
  destruct (record_freqs inp lhs rhs) as [|f fs],
    (record_freqs inp' lhs rhs) as [|f' fs']; simpl in *; try done.
  by rewrite Hsum.
Qed.

Lemma extract_training_data_order_irrelevant_witness :
  td_freq (extract_training_data [(3, "S", ["A"]); (1, "S", ["B"])]%Z) "S" ["A"]
  = td_freq (extract_training_data [(1, "S", ["B"]); (3, "S", ["A"])]%Z) "S" ["A"].
Proof.
  apply (extract_training_data_order_irrelevant
           [(3, "S", ["A"]); (1, "S", ["B"])]%Z
           [(1, "S", ["B"]); (3, "S", ["A"])]%Z "S" ["A"]).
  apply perm_swap.
Defined.

(** X13.  On the data [run] prepares from one list of records, the model
    and the frequency table hold the same rules, so when construction
    succeeds the objective and the gradient return for every weight
    vector of the model's dimension, and leave the model as it is. *)
Theorem run_data_supports_training
    (record0 : Z * Token * RHS * vec) (records : list (Z * Token * RHS * vec))
    (m : LogLinModelFromFile.t) (lam : R) (weights : vec) :
  let input_data := record0 :: records in
  let td := run_td input_data in
  run_model input_data = Ok m ->
  length weights = length record0.2 ->
  (forall lhs rhs,
     is_Some (stored_feats (LogLinModelFromFile._rules m) lhs rhs) <->
     is_Some (td_freq td lhs rhs)) /\
  (exists ll, loglikelihood td weights m = (Ok ll, m)) /\
  (exists v, objective td lam weights m = (Ok v, m)) /\
  (exists g, gradient td lam weights m = (Ok g, m)).
Proof.
  intros input_data td Hm Hlen.
  pose proof (run_td_covered _ _ Hm) as Htd. fold td in Htd.
  split; [intros lhs rhs; apply (run_same_rules _ _ lhs rhs Hm)|].
  unfold run_model, input_data in Hm. rewrite fmap_cons in Hm.
  destruct record0 as [[[freq0 lhs0] rhs0] feats0].
  destruct (init_represents _ _ _ Hm) as [Hrep Hne]. simpl in *.
  pose proof (proj2 Hrep) as Hwf.
  split_and!.
  - destruct (loglikelihood_returns (H0 := dense_lawful) _ _ weights td
                Hwf Hne Hlen Htd m Hrep) as (s' & Hrun & Hs').
    exists (loglikelihood_spec
              (probs_spec weights (LogLinModelFromFile._rules m)) td).
    rewrite Hrun. f_equal. destruct Hs' as [-> _].
    symmetry. apply Hrep.
  - destruct (objective_returns (H0 := dense_lawful) _ _ weights td
                Hwf Hne Hlen Htd lam m Hrep) as (s' & Hrun & Hs').
    eexists. rewrite Hrun. f_equal. destruct Hs' as [-> _].
    symmetry. apply Hrep.
  - destruct (gradient_returns (H0 := dense_lawful) _ _ weights td
                Hwf Hne Hlen Htd lam m Hrep) as (s' & Hrun & Hs').
    eexists. rewrite Hrun. f_equal. destruct Hs' as [-> _].
    symmetry. apply Hrep.
Qed.

Lemma run_data_supports_training_witness :
  exists g,
    gradient (run_td [(3%Z, "S", ["A"], [1%R]); (1%Z, "S", ["B"], [0%R])])
      2%R [0%R] example_model
    = (Ok g, example_model).
Proof.
  apply (run_data_supports_training (3%Z, "S", ["A"], [1%R])
           [(1%Z, "S", ["B"], [0%R])] example_model 2%R [0%R]
           example_init eq_refl).
Defined.

(** ** More on the indicator model *)

Section basic_more.
Import LogLinModelBasic.

Lemma list_index_None {A} `{EqDecision A} (x : A) (l : list A) :
  list_index x l = None <-> x ∉ l.
Proof.
  split.
  - intros Hnone Hin. destruct (list_index_elem x l Hin) as [i Hi]. congruence.
  - intros Hnin. destruct (list_index x l) as [i|] eqn:Hi; [|done].
    apply list_index_Some in Hi as [Hi _].
    destruct Hnin. by eapply list_elem_of_lookup_2.
Qed.

Lemma lookup_onehot n i j :
  j < n -> onehot n i !! j = Some (if decide (i = j) then 1%R else 0%R).
Proof.
  intros Hj. unfold onehot, np_put. case_decide.
  - subst. apply list_lookup_insert_eq. by rewrite length_replicate.
  - rewrite list_lookup_insert_ne by done. by apply lookup_replicate_2.
Qed.

(** X14.  The caches of the indicator model memoize: once a rule of
    the list has been looked up, its index and its feature vector are
    in the caches, and looking it up again returns the same answer and
    changes nothing. *)
Theorem basic_lookups_are_memoized (self : t) (lhs : Token) (rhs : RHS) :
  cache_ok self -> (lhs, rhs) ∈ _rulelist self ->
  exists i,
    list_index (lhs, rhs) (_rulelist self) = Some i /\
    (let self' := (find_index lhs rhs self).2 in
     _indexdict self' !! (lhs, rhs) = Some i /\
     find_index lhs rhs self' = (Ok i, self')) /\
    (let self' := (featvec lhs rhs self).2 in
     _featvecdict self' !! (lhs, rhs) = Some (onehot (dim self) i) /\
     featvec lhs rhs self' = (Ok (onehot (dim self) i), self')).
Proof.
  intros Hok Hin. destruct (list_index_elem _ _ Hin) as [i Hi].
  exists i. split; [done|]. split.
  - assert (_indexdict (find_index lhs rhs self).2 !! (lhs, rhs) = Some i)
      as Hc.
    { unfold find_index.
      destruct (_indexdict self !! (lhs, rhs)) as [j|] eqn:Hj; simpl.
      - apply (index_ok _ Hok) in Hj as Hj'. congruence.
      - rewrite Hi. simpl. apply lookup_insert_eq. }
    split; [done|]. unfold find_index at 1. by rewrite Hc.
  - assert (_featvecdict (featvec lhs rhs self).2 !! (lhs, rhs)
            = Some (onehot (dim self) i)) as Hc.
    { unfold featvec.
      destruct (_featvecdict self !! (lhs, rhs)) as [v|] eqn:Hv; simpl.
      - destruct (featvec_ok _ Hok _ _ Hv) as (j & Hj & ->).
        unfold dim. congruence.
      - destruct (find_index_spec _ _ _ _ Hok Hi) as (s1 & H1 & Hrl & _).
        unfold bind. rewrite H1. simpl. unfold dim. rewrite Hrl.
        apply lookup_insert_eq. }
    split; [done|]. unfold featvec at 1. by rewrite Hc.
Qed.

Lemma basic_lookups_are_memoized_witness :
  let self' := (find_index "S" ["B"] (init example_rulelist)).2 in
  find_index "S" ["B"] self' = (Ok 1, self').
Proof.
  destruct (basic_lookups_are_memoized (init example_rulelist) "S" ["B"]
              (cache_ok_init example_rulelist))
    as (i & Hi & [_ Hfind] & _).
  - unfold example_rulelist. simpl. rewrite !elem_of_cons. auto.
  - simpl in Hi. injection Hi as <-. exact Hfind.
Defined.

(** X15.  For a pair that is not in the rule list, every lookup of the
    indicator model raises [ValueError] and changes nothing. *)
Theorem basic_unknown_rule_raises_ValueError
    (self : t) (lhs : Token) (rhs : RHS) (weights : vec) :
  cache_ok self -> (lhs, rhs) ∉ _rulelist self ->
  find_index lhs rhs self = (Raise ValueError, self) /\
  featvec lhs rhs self = (Raise ValueError, self) /\
  featvec_dot lhs rhs weights self = (Raise ValueError, self) /\
  score weights lhs rhs self = (Raise ValueError, self) /\
  default_featvec_dot featvec lhs rhs weights self = (Raise ValueError, self).
Proof.
  intros Hok Hnin%list_index_None.
  pose proof (find_index_missing _ _ _ Hok Hnin) as Hfind.
  assert (featvec lhs rhs self = (Raise ValueError, self)) as Hfv.
  { unfold featvec.
    destruct (_featvecdict self !! (lhs, rhs)) as [v|] eqn:Hv.
    - destruct (featvec_ok _ Hok _ _ Hv) as (j & Hj & _). congruence.
    - unfold bind. by rewrite Hfind. }
  split_and!; try done.
  - unfold featvec_dot, bind. by rewrite Hfind.
  - unfold score. simpl. unfold featvec_dot, bind. by rewrite Hfind.
  - unfold default_featvec_dot, bind. by rewrite Hfv.
Qed.

Lemma basic_unknown_rule_raises_ValueError_witness :
  find_index "T" ["A"] (init example_rulelist)
  = (Raise ValueError, init example_rulelist).
Proof.
  apply (basic_unknown_rule_raises_ValueError (init example_rulelist)
           "T" ["A"] [] (cache_ok_init example_rulelist)).
  unfold example_rulelist. simpl. rewrite !elem_of_cons.
  intros [?|[?|[?|?%elem_of_nil]]]; done.
Defined.

(** X16.  On a weight vector whose length is not the model's dimension
    the two score paths part: the generic dot product raises
    [ValueError], the overriding lookup returns the entry at the rule's
    index when the vector is long enough and raises [IndexError] when it
    is not. *)
Theorem basic_score_paths_on_wrong_length
    (self : t) (lhs : Token) (rhs : RHS) (weights : vec) :
  cache_ok self -> (lhs, rhs) ∈ _rulelist self ->
  length weights <> dim self ->
  exists i,
    list_index (lhs, rhs) (_rulelist self) = Some i /\
    (default_featvec_dot featvec lhs rhs weights self).1 = Raise ValueError /\
    (score weights lhs rhs self).1 =
      match weights !! i with
      | Some w => Ok w
      | None => Raise IndexError
      end.
Proof.
  intros Hok Hin Hlen. destruct (list_index_elem _ _ Hin) as [i Hi].
  exists i. split_and!; [done| |].
  - destruct (featvec_spec _ _ _ _ Hok Hi) as (s1 & H1 & _).
    unfold default_featvec_dot, bind. rewrite H1. unfold lift, np_dot.
    simpl. rewrite length_onehot. by rewrite decide_False.
  - destruct (find_index_spec _ _ _ _ Hok Hi) as (s1 & H1 & _).
    unfold score. simpl. unfold featvec_dot, bind. rewrite H1. done.
Qed.

Lemma basic_score_paths_on_wrong_length_witness :
  (default_featvec_dot featvec "S" ["B"] [5; 7]%R (init example_rulelist)).1
    = Raise ValueError /\
  (score [5; 7]%R "S" ["B"] (init example_rulelist)).1 = Ok 7%R.
Proof.
  destruct (basic_score_paths_on_wrong_length (init example_rulelist)
              "S" ["B"] [5; 7]%R (cache_ok_init example_rulelist))
    as (i & Hi & Hgen & Hscore).
  - unfold example_rulelist. simpl. rewrite !elem_of_cons. auto.
  - intros [=].
  - simpl in Hi. injection Hi as <-. split; [exact Hgen|exact Hscore].
Defined.

(** X17.  The feature vector of a rule of the list has the model's
    dimension, 1 at the index of the rule and 0 elsewhere. *)
Theorem basic_featvec_is_one_hot (self : t) (lhs : Token) (rhs : RHS) :
  cache_ok self -> (lhs, rhs) ∈ _rulelist self ->
  exists i v,
    (find_index lhs rhs self).1 = Ok i /\
    (featvec lhs rhs self).1 = Ok v /\
    length v = dim self /\ i < dim self /\
    forall j, j < dim self ->
              v !! j = Some (if decide (i = j) then 1%R else 0%R).
Proof.
  intros Hok Hin. destruct (list_index_elem _ _ Hin) as [i Hi].
  destruct (find_index_spec _ _ _ _ Hok Hi) as (s1 & H1 & _).
  destruct (featvec_spec _ _ _ _ Hok Hi) as (s2 & H2 & _).
  exists i, (onehot (dim self) i). rewrite H1, H2.
  split_and!; [done..|apply length_onehot| |].
  - by apply list_index_lt in Hi.
  - intros j Hj. by apply lookup_onehot.
Qed.

Lemma basic_featvec_is_one_hot_witness :
  exists v, (featvec "S" ["B"] (init example_rulelist)).1 = Ok v /\
            length v = 3.
Proof.
  destruct (basic_featvec_is_one_hot (init example_rulelist) "S" ["B"]
              (cache_ok_init example_rulelist))
    as (i & v & _ & Hv & Hlen & _).
  - unfold example_rulelist. simpl. rewrite !elem_of_cons. auto.
  - exists v. split; [exact Hv|exact Hlen].
Defined.
End basic_more.

(** ** Entries of the log-likelihood gradient *)

Lemma entry_lookup i v : i < length v -> v !! i = Some (entry i v).
Proof.
  intros Hi. unfold entry.
  by destruct (lookup_lt_is_Some_2 v i Hi) as [x ->].
Qed.

Lemma entry_vscale i c v : entry i (vscale c v) = (c * entry i v)%R.
Proof.
  unfold entry, vscale. rewrite list_lookup_fmap.
  destruct (v !! i); simpl; lra.
Qed.

Lemma entry_vadd i a b :
  i < length a -> i < length b ->
  entry i (vadd a b) = (entry i a + entry i b)%R.
Proof.
  intros Ha Hb. unfold entry, vadd. rewrite lookup_zip_with.
  destruct (lookup_lt_is_Some_2 a i Ha) as [x ->].
  by destruct (lookup_lt_is_Some_2 b i Hb) as [y ->].
Qed.

Lemma entry_vsub i a b :
  i < length a -> i < length b ->
  entry i (vsub a b) = (entry i a - entry i b)%R.
Proof.
  intros Ha Hb. unfold entry, vsub. rewrite lookup_zip_with.
  destruct (lookup_lt_is_Some_2 a i Ha) as [x ->].
  by destruct (lookup_lt_is_Some_2 b i Hb) as [y ->].
Qed.

Lemma entry_zeros i d : entry i (replicate d 0%R) = 0%R.
Proof.
  unfold entry. destruct (replicate d 0%R !! i) as [x|] eqn:Hx; [|done].
  by apply lookup_replicate in Hx as [-> _].
Qed.

Lemma entry_vsum i d (l : list vec) :
  i < d -> Forall (fun v => length v = d) l ->
  entry i (vsum d l) = np_sum (entry i <$> l).
Proof.
  intros Hi Hl. unfold vsum, np_sum.
  induction Hl as [|v l Hv Hl IH]; csimpl.
  - apply entry_zeros.
  - rewrite entry_vadd, IH; [done|lia|].
    fold (vsum d l). rewrite length_vsum by done. lia.
Qed.

Lemma dot_insert (w f : vec) (i : nat) (t : R) :
  i < length w ->
  dot (<[i:=t]> w) f = (dot (<[i:=0%R]> w) f + t * entry i f)%R.
Proof.
  revert i f. induction w as [|x w IH]; intros i f Hi; simpl in Hi; [lia|].
  destruct i as [|i], f as [|y f]; simpl; unfold entry; simpl; try lra.
  rewrite IH by lia. unfold entry. lra.
Qed.

Lemma insert_entry (w : vec) (i : nat) :
  i < length w -> <[i:=entry i w]> w = w.
Proof. intros Hi. apply list_insert_id. by apply entry_lookup. Qed.

Lemma np_sum_fmap_ext {A} (g h : A -> R) (l : list A) :
  (forall a, a ∈ l -> g a = h a) -> np_sum (g <$> l) = np_sum (h <$> l).
Proof.
  intros Hgh. f_equal. apply list_fmap_ext. intros k a Ha.
  apply Hgh. by eapply list_elem_of_lookup_2.
Qed.

(** The entry of the log-likelihood gradient: the sum over the entries of
    the frequency table of [freq * (f_i - expectation_i)]. *)
Lemma entry_grad_loglikelihood_spec d probtable rules td i :
  wf_rules d rules -> td_covered rules td -> i < d ->
  entry i (grad_loglikelihood_spec d probtable rules td) =
  np_sum ((fun e : Token * RHS * Z =>
             IZR e.2 *
             (entry i (default [] (stored_feats rules e.1.1 e.1.2))
              - entry i (expectation_spec d probtable rules e.1.1)))%R
            <$> td_entries td).
Proof.
  intros Hwf Htd Hi.
  assert (forall lhs rhs freq, (lhs, rhs, freq) ∈ td_entries td ->
            length (default [] (stored_feats rules lhs rhs)) = d) as Hfeat.
  { intros lhs rhs freq Hin. destruct (Htd _ _ _ Hin) as [f Hf].
    rewrite Hf. simpl.
    pose proof Hf as (row & Hl & Hr)%stored_feats_Some.
    apply dict_get_Some_elem in Hl, Hr. by eapply (wf_dim _ _ Hwf). }
  unfold grad_loglikelihood_spec. rewrite entry_vsum; [|done|].
  - rewrite <- list_fmap_compose. apply np_sum_fmap_ext.
    intros [[lhs rhs] freq] Hin. simpl.
    rewrite entry_vscale, entry_vsub; [done|..].
    + rewrite (Hfeat _ _ _ Hin). lia.
    + rewrite length_expectation_spec by done. lia.
  - apply Forall_fmap, Forall_forall. intros [[lhs rhs] freq] Hin. simpl.
    rewrite length_vscale, length_vsub, length_expectation_spec by done.
    rewrite (Hfeat _ _ _ Hin). lia.
Qed.

(** ** Weights no feature reads *)

(** The probability table depends on the weights through the scores of
    the stored feature vectors only. *)
Lemma probs_spec_ext (w w' : vec) rules :
  (forall x row y f, (x, row) ∈ rules -> (y, f) ∈ row -> dot w' f = dot w f) ->
  probs_spec w' rules = probs_spec w rules.
Proof.
  intros Hdot. unfold probs_spec, dict_map.
  apply list_fmap_ext. intros _ [x row] Hrow%list_elem_of_lookup_2. simpl.
  f_equal.
  assert (row_scores w' row = row_scores w row) as Hscores.
  { unfold row_scores, dict_values. rewrite <- !list_fmap_compose.
    apply list_fmap_ext. intros _ [y f] Hf%list_elem_of_lookup_2. simpl.
    by eapply Hdot. }
  unfold probs_row, dict_map.
  apply list_fmap_ext. intros _ [y f] Hf%list_elem_of_lookup_2. simpl.
  f_equal. unfold softmax_prob, row_total.
  by rewrite Hscores, (Hdot _ _ _ _ Hrow Hf).
Qed.

Lemma dot_insert_unread (w f : vec) (i : nat) (t : R) :
  i < length w -> entry i f = 0%R -> dot (<[i:=t]> w) f = dot w f.
Proof.
  intros Hi Hf.
  pose proof (dot_insert w f i (entry i w) Hi) as Hw.
  rewrite insert_entry in Hw by done.
  rewrite (dot_insert w f i t Hi), Hw, Hf. lra.
Qed.

Lemma np_sum_zeros {A} (g : A -> R) (l : list A) :
  (forall a, a ∈ l -> g a = 0%R) -> np_sum (g <$> l) = 0%R.
Proof.
  intros Hg. rewrite (np_sum_fmap_ext g (fun _ => 0%R)) by done.
  unfold np_sum. induction l as [|a l IH]; csimpl; [done|].
  rewrite IH; [lra|]. intros a' Ha'. apply Hg. by right.
Qed.

Section unread_weight.
Context {S : Type} {model : LogLinModel S} {laws : Lawful S}.
Context (rules : dict Token (dict RHS vec)) (d : nat) (i : nat).
Hypothesis Hwf : wf_rules d rules.
Hypothesis Hne : nonempty_rows rules.
Hypothesis Hi : i < d.
Hypothesis Hunread :
  forall x row y f, (x, row) ∈ rules -> (y, f) ∈ row -> entry i f = 0%R.

Lemma probs_spec_unread (w : vec) (t : R) :
  length w = d -> probs_spec (<[i:=t]> w) rules = probs_spec w rules.
Proof.
  intros Hlen. apply probs_spec_ext. intros x row y f Hrow Hf.
  apply dot_insert_unread; [lia|]. by eapply Hunread.
Qed.

Lemma entry_grad_unread probtable td :
  td_covered rules td ->
  entry i (grad_loglikelihood_spec d probtable rules td) = 0%R.
Proof.
  intros Htd. rewrite entry_grad_loglikelihood_spec by done.
  apply np_sum_zeros. intros [[lhs rhs] freq] Hin. simpl.
  destruct (Htd _ _ _ Hin) as [f Hf]. rewrite Hf. simpl.
  pose proof Hf as (row & Hl & Hr)%stored_feats_Some.
  pose proof (dict_get_Some_elem _ _ _ Hl) as Hrow.
  pose proof (dict_get_Some_elem _ _ _ Hr) as Hfin.
  rewrite (Hunread _ _ _ _ Hrow Hfin).
  assert (entry i (expectation_spec d probtable rules lhs) = 0%R) as ->; [|lra].
  unfold expectation_spec. rewrite Hl. simpl.
  rewrite entry_vsum; [|done|].
  - rewrite <- list_fmap_compose. apply np_sum_zeros.
    intros [y f'] Hf'. simpl.
    rewrite entry_vscale, (Hunread _ _ _ _ Hrow Hf'). lra.
  - apply Forall_fmap, Forall_forall. intros [y f'] Hf'. simpl.
    rewrite length_vscale. by eapply (wf_dim _ _ Hwf).
Qed.
End unread_weight.

Lemma unread_weight
    {S : Type} {model : LogLinModel S} {laws : Lawful S}
    (rules : dict Token (dict RHS vec)) (d : nat) (s : S)
    (td : FrequencyTable) (weights : vec) (i : nat) (t : R) :
  represents rules d s -> nonempty_rows rules -> td_covered rules td ->
  length weights = d -> i < d ->
  (forall x row y f, (x, row) ∈ rules -> (y, f) ∈ row -> entry i f = 0%R) ->
  exists probtable ll g,
    (probs_from_model weights s).1 = Ok probtable /\
    (probs_from_model (<[i:=t]> weights) s).1 = Ok probtable /\
    (loglikelihood td weights s).1 = Ok ll /\
    (loglikelihood td (<[i:=t]> weights) s).1 = Ok ll /\
    (loglhdgrad td weights s).1 = Ok g /\ g !! i = Some 0%R.
Proof.
  intros Hs Hne Htd Hlen Hi Hunread.
  pose proof (represents_wf _ _ _ Hs) as Hwf.
  assert (length (<[i:=t]> weights) = d) as Hlen' by by rewrite length_insert.
  pose proof (probs_spec_unread rules d i Hi Hunread weights t Hlen) as Heq.
  exists (probs_spec weights rules),
    (loglikelihood_spec (probs_spec weights rules) td),
    (grad_loglikelihood_spec d (probs_spec weights rules) rules td).
  split_and!.
  - by destruct (probs_from_model_returns rules d weights Hwf Hne Hlen s Hs)
      as (? & -> & _).
  - rewrite <- Heq.
    by destruct (probs_from_model_returns rules d (<[i:=t]> weights) Hwf Hne
                   Hlen' s Hs) as (? & -> & _).
  - by destruct (loglikelihood_returns rules d weights td Hwf Hne Hlen Htd
                   s Hs) as (? & -> & _).
  - rewrite <- Heq.
    by destruct (loglikelihood_returns rules d (<[i:=t]> weights) td Hwf Hne
                   Hlen' Htd s Hs) as (? & -> & _).
  - by destruct (loglhdgrad_returns rules d weights td Hwf Hne Hlen Htd s Hs)
      as (? & -> & _).
  - rewrite <- (entry_grad_unread rules d i Hwf Hi Hunread
                  (probs_spec weights rules) td Htd).
    apply entry_lookup. rewrite length_grad_loglikelihood_spec by done. lia.
Qed.

Section basic_unread.
Import LogLinModelBasic.

(** X20.  In the indicator model the weight at the position of a repeated
    rule is never read: [index] finds the first occurrence, so changing
    that weight changes neither the probabilities nor the log-likelihood,
    and the entry of [loglhdgrad] there is 0. *)
Theorem basic_repeated_rule_weight_is_unread
    (self : t) (td : FrequencyTable) (weights : vec) (i j : nat)
    (r : Token * RHS) (t : R) :
  cache_ok self ->
  _rulelist self !! j = Some r -> _rulelist self !! i = Some r -> j < i ->
  (forall lhs rhs freq,
     (lhs, rhs, freq) ∈ td_entries td -> (lhs, rhs) ∈ _rulelist self) ->
  length weights = length (_rulelist self) ->
  exists probtable ll g,
    (probs_from_model weights self).1 = Ok probtable /\
    (probs_from_model (<[i:=t]> weights) self).1 = Ok probtable /\
    (loglikelihood td weights self).1 = Ok ll /\
    (loglikelihood td (<[i:=t]> weights) self).1 = Ok ll /\
    (loglhdgrad td weights self).1 = Ok g /\ g !! i = Some 0%R.
Proof.
  intros Hok Hj Hi Hji Htd Hlen.
  pose proof (lookup_lt_Some _ _ _ Hi) as Hlt.
  apply (unread_weight (laws := basic_lawful) (rules_of (_rulelist self))
           (length (_rulelist self))); [done|..|done|done|].
  - apply nonempty_rules_of.
  - intros lhs rhs freq Hin. apply stored_feats_rules_of. by eapply Htd.
  - intros x row y f Hrow Hf.
    pose proof (wf_rules_of (_rulelist self)) as Hwf.
    apply elem_dict_get in Hrow; [|apply (wf_lhss _ _ Hwf)].
    pose proof (dict_get_Some_elem _ _ _ Hrow) as Hrow'.
    apply elem_dict_get in Hf; [|by eapply (wf_rhss _ _ Hwf)].
    destruct (rules_of_entry _ _ _ _ _ Hrow Hf) as (k & Hk & ->).
    unfold entry. rewrite lookup_onehot by done.
    case_decide as Hki; [|done].
    subst k. apply list_index_Some in Hk as [Hk Hfirst].
    destruct (Hfirst j Hji). congruence.
Qed.

Lemma basic_repeated_rule_weight_is_unread_witness :
  exists probtable,
    (probs_from_model [5; 7; 9]%R (init example_rulelist)).1 = Ok probtable /\
    (probs_from_model (<[2:=0%R]> [5; 7; 9]%R) (init example_rulelist)).1
    = Ok probtable.
Proof.
  destruct (basic_repeated_rule_weight_is_unread (init example_rulelist)
              example_td [5; 7; 9]%R 2 0 ("S", ["A"]) 0%R)
    as (probtable & ll & g & H1 & H2 & _).
  - apply cache_ok_init.
  - reflexivity.
  - reflexivity.
  - lia.
  - intros lhs rhs freq Hin. unfold td_entries, example_td in Hin.
    csimpl in Hin. rewrite !elem_of_cons in Hin. unfold example_rulelist.
    simpl. rewrite !elem_of_cons.
    destruct Hin as [?|[?|[]%elem_of_nil]]; simplify_eq; auto.
  - reflexivity.
  - exists probtable. split; [exact H1|exact H2].
Defined.
End basic_unread.

(** ** The LHSs of the two models *)

(** X21.  [lhss] lists every observed LHS once and nothing else, and
    leaves the model as it is: the dense model built from records lists
    the LHSs of the records, the indicator model those of its rule list,
    however often a rule or an LHS is repeated. *)
Theorem lhss_lists_each_observed_lhs_once (inp : list (Token * RHS * vec))
    (m : LogLinModelFromFile.t) (self : LogLinModelBasic.t) :
  LogLinModelFromFile.init inp = Ok m ->
  (exists xs, LogLinModelFromFile.lhss m = (Ok xs, m) /\ NoDup xs /\
     forall x, x ∈ xs <-> exists y f, (x, y, f) ∈ inp) /\
  (exists xs, LogLinModelBasic.lhss self = (Ok xs, self) /\ NoDup xs /\
     forall x, x ∈ xs <-> exists y, (x, y) ∈ LogLinModelBasic._rulelist self).
Proof.
  intros Hinit. split.
  - eexists. split; [done|]. split.
    + apply (inv_keys _ _ (init_inv_Ok _ _ Hinit)).
    + intros x. by apply init_lhss.
  - destruct (basic_lhss self) as (xs & Hxs & Hnd & Hin).
    exists xs. split_and!; [|done..].
    unfold LogLinModelBasic.lhss, gets in *. simpl in *. by simplify_eq.
Qed.

Lemma lhss_lists_each_observed_lhs_once_witness :
  exists xs, LogLinModelFromFile.lhss example_model = (Ok xs, example_model) /\
             NoDup xs.
Proof.
  destruct (lhss_lists_each_observed_lhs_once example_input example_model
              (LogLinModelBasic.init example_rulelist) example_init)
    as [(xs & Hxs & Hnd & _) _].
  exists xs. split; [exact Hxs|exact Hnd].
Defined.

(** * Properties of the double-precision range *)

Lemma overflow_threshold_large : (IZR (2 ^ 64) < overflow_threshold)%R.
Proof. unfold overflow_threshold. apply IZR_lt. reflexivity. Qed.

Lemma underflow_threshold_pos : (0 < underflow_threshold)%R.
Proof.
  unfold underflow_threshold. apply Rinv_0_lt_compat, IZR_lt. reflexivity.
Qed.

Lemma underflow_threshold_small : (underflow_threshold < / IZR (2 ^ 1000))%R.
Proof.
  unfold underflow_threshold. apply Rinv_lt_contravar.
  - apply Rmult_lt_0_compat; apply IZR_lt; reflexivity.
  - apply IZR_lt. reflexivity.
Qed.

Lemma overflow_threshold_pos : (1 < overflow_threshold)%R.
Proof. unfold overflow_threshold. apply IZR_lt. reflexivity. Qed.

Lemma underflow_threshold_lt_1 : (underflow_threshold < 1)%R.
Proof.
  unfold underflow_threshold.
  assert (/ IZR (2 ^ 1075) < / 1)%R as Hlt.
  { apply Rinv_lt_contravar; [rewrite Rmult_1_l|]; apply IZR_lt; reflexivity. }
  by rewrite Rinv_1 in Hlt.
Qed.

(** Fewer than [2^63] underflows lose less than [1e-9]. *)
Lemma underflow_threshold_times_maxsize n :
  (Z.of_nat n <= sys_maxsize)%Z -> (INR n * underflow_threshold <= 1e-9)%R.
Proof.
  intros Hn. pose proof underflow_threshold_pos as Hpos.
  assert (INR n <= IZR (2 ^ 63))%R as Hle.
  { rewrite INR_IZR_INZ. apply IZR_le. unfold sys_maxsize in Hn. lia. }
  assert (IZR (2 ^ 63) * underflow_threshold <= 1e-9)%R as Hbound.
  { unfold underflow_threshold.
    replace (2 ^ 1075)%Z with (2 ^ 63 * 2 ^ 1012)%Z by reflexivity.
    rewrite mult_IZR, Rinv_mult.
    assert (0 < IZR (2 ^ 63))%R as H63 by (apply IZR_lt; reflexivity).
    assert (/ IZR (2 ^ 1012) <= 1e-9)%R as Hsmall.
    { replace 1e-9%R with (/ IZR (10 ^ 9))%R.
      - apply Rinv_le_contravar; [apply IZR_lt; reflexivity|].
        apply IZR_le. vm_compute. discriminate.
      - change (10 ^ 9)%Z with 1000000000%Z. lra. }
    rewrite <- Rmult_assoc, Rinv_r, Rmult_1_l by lra. done. }
  pose proof (pos_INR n). nra.
Qed.

Lemma round_in_range r : in_range r -> round r = Fin r.
Proof.
  intros [Hovf Hunf]. unfold round.
  pose proof underflow_threshold_pos.
  apply Rabs_def2 in Hovf as [H1 H2].
  destruct (Rle_dec overflow_threshold r); [lra|].
  destruct (Rle_dec r (- overflow_threshold)); [lra|].
  destruct (Rle_dec (Rabs r) underflow_threshold) as [Hle|]; [|done].
  destruct Hunf as [->|Hunf]; [done|lra].
Qed.

Lemma in_range_0 : in_range 0.
Proof.
  split; [|by left]. rewrite Rabs_R0. pose proof overflow_threshold_pos. lra.
Qed.

Lemma round_0 : round 0 = Fin 0.
Proof. apply round_in_range, in_range_0. Qed.

Lemma in_range_1 : in_range 1.
Proof.
  unfold in_range. rewrite Rabs_R1.
  pose proof overflow_threshold_pos. pose proof underflow_threshold_lt_1.
  split; [lra|right; lra].
Qed.

Lemma round_1 : round 1 = Fin 1.
Proof. apply round_in_range, in_range_1. Qed.

(** Rounding a number of the unit interval: it is kept, or flushed to
    zero when it is at most the underflow threshold. *)
Lemma round_unit r :
  (0 <= r <= 1)%R ->
  exists t, round r = Fin t /\ (0 <= t <= r)%R /\
            (t = 0%R \/ (underflow_threshold < t)%R) /\
            (r - t <= underflow_threshold)%R.
Proof.
  intros Hr. unfold round.
  pose proof overflow_threshold_pos. pose proof underflow_threshold_pos.
  destruct (Rle_dec overflow_threshold r); [lra|].
  destruct (Rle_dec r (- overflow_threshold)); [lra|].
  rewrite Rabs_pos_eq by lra.
  destruct (Rle_dec r underflow_threshold).
  - exists 0%R. split_and!; [done|lra|lra|by left|lra].
  - exists r. split_and!; [done|lra|lra|right; lra|lra].
Qed.

(** The rounded sum of two numbers that are zero or above the underflow
    threshold, below the overflow threshold. *)
Lemma round_add_nonneg a t :
  (0 <= a)%R -> (a = 0%R \/ (underflow_threshold < a)%R) ->
  (0 <= t)%R -> (t = 0%R \/ (underflow_threshold < t)%R) ->
  (a + t < overflow_threshold)%R ->
  round (a + t) = Fin (a + t).
Proof.
  intros Ha Ha' Ht Ht' Hsum. apply round_in_range. split.
  - rewrite Rabs_pos_eq by lra. done.
  - rewrite Rabs_pos_eq by lra. destruct Ha' as [->|?], Ht' as [->|?].
    + left. lra.
    + right. lra.
    + right. lra.
    + right. lra.
Qed.

(** ** The shifted exponentials *)

Lemma finite_to_R a : finite a -> a = Fin (to_R a).
Proof. by intros [r ->]. Qed.

Lemma fsub_diag b : fsub (Fin b) (Fin b) = Fin 0.
Proof. unfold fsub. simpl. rewrite Rplus_opp_r. apply round_0. Qed.

(** The largest score becomes exactly 1. *)
Lemma fexp_shift_max b : fexp (fsub (Fin b) (Fin b)) = Fin 1.
Proof. rewrite fsub_diag. simpl. rewrite exp_0. apply round_1. Qed.

(** Every shifted score becomes a number of the unit interval, and
    nothing overflows. *)
Lemma fexp_shift r b :
  (r <= b)%R -> exists t, fexp (fsub (Fin r) (Fin b)) = Fin t /\ unit_value t.
Proof.
  intros Hrb. unfold fsub. simpl. unfold round at 1.
  pose proof overflow_threshold_pos. pose proof underflow_threshold_pos.
  pose proof underflow_threshold_lt_1.
  destruct (Rle_dec overflow_threshold (r + - b)); [lra|].
  destruct (Rle_dec (r + - b) (- overflow_threshold)).
  { exists 0%R. split; [done|]. split; [lra|by left]. }
  assert (forall x, (x <= 0)%R -> exists t, round (exp x) = Fin t /\ unit_value t)
    as Hexp.
  { intros x Hx. destruct (round_unit (exp x)) as (t & Ht & Ht1 & Ht2 & _).
    - pose proof (exp_pos x). split; [lra|].
      destruct Hx as [Hx| ->]; [|rewrite exp_0; lra].
      apply exp_increasing in Hx. rewrite exp_0 in Hx. lra.
    - exists t. split; [done|]. split; [|done].
      pose proof (exp_pos x).
      assert (exp x <= 1)%R; [|lra].
      destruct Hx as [Hx| ->]; [|rewrite exp_0; lra].
      apply exp_increasing in Hx. rewrite exp_0 in Hx. lra. }
  destruct (Rle_dec (Rabs (r + - b)) underflow_threshold); simpl.
  - apply Hexp. lra.
  - apply Hexp. lra.
Qed.

(** ** The largest score *)

Lemma foldl_fmax_Fin a (rs : list R) :
  exists b, foldl fmax (Fin a) (Fin <$> rs) = Fin b /\
    (b = a \/ b ∈ rs) /\ (a <= b)%R /\ forall r, r ∈ rs -> (r <= b)%R.
Proof.
  revert a. induction rs as [|r rs IH]; intros a; csimpl.
  - exists a. split_and!; [done|by left|lra|]. by intros r ?%elem_of_nil.
  - destruct (IH (Rmax a r)) as (b & Hb & Hin & Hle & Hub).
    exists b. split_and!; [done| | |].
    + destruct Hin as [->|Hin]; [|right; by right].
      unfold Rmax. destruct (Rle_dec a r); [right; left|by left].
    + pose proof (Rmax_l a r). lra.
    + intros r' [->|Hr']%elem_of_cons; [|by apply Hub].
      pose proof (Rmax_r a r). lra.
Qed.

Lemma maximum64_Fin (rs : list R) :
  rs <> [] ->
  exists b, maximum64 (Fin <$> rs) = Fin b /\ b ∈ rs /\
            forall r, r ∈ rs -> (r <= b)%R.
Proof.
  destruct rs as [|a rs]; [done|]. intros _. csimpl.
  destruct (foldl_fmax_Fin a rs) as (b & Hb & Hin & Hle & Hub).
  exists b. split_and!; [done| |].
  - destruct Hin as [->|Hin]; [left|by right].
  - intros r [->|Hr]%elem_of_cons; [done|by apply Hub].
Qed.

Lemma np_max_maximum64 l : l <> [] -> Float64.np_max l = Ok (maximum64 l).
Proof. by destruct l. Qed.

(** ** Sums of unit values *)

Lemma foldl_fadd_units a (ts : list R) :
  (0 <= a)%R -> (a = 0%R \/ (underflow_threshold < a)%R) ->
  Forall unit_value ts ->
  (a + INR (length ts) < overflow_threshold)%R ->
  foldl fadd (Fin a) (Fin <$> ts) = Fin (a + np_sum ts).
Proof.
  unfold np_sum. revert a.
  induction ts as [|t ts IH]; intros a Ha Ha' Hts Hlen; csimpl.
  - by rewrite Rplus_0_r.
  - apply Forall_cons in Hts as [[Ht Ht'] Hts].
    rewrite length_cons, S_INR in Hlen. pose proof (pos_INR (length ts)).
    rewrite round_add_nonneg; [|lra|done|lra|done|lra].
    rewrite IH; [f_equal; lra|lra| |done|lra].
    destruct Ha' as [->|?], Ht' as [->|?]; [left|right..]; lra.
Qed.

Lemma np_sum64_units (ts : list R) :
  Forall unit_value ts -> (INR (length ts) < overflow_threshold)%R ->
  Float64.np_sum (Fin <$> ts) = Fin (np_sum ts).
Proof.
  intros Hts Hlen. unfold Float64.np_sum.
  rewrite foldl_fadd_units; [f_equal; lra|lra|by left|done|lra].
Qed.

(** ** Quotients *)

Lemma fdiv_unit t T :
  (0 <= t <= T)%R -> (1 <= T)%R ->
  exists q, fdiv (Fin t) (Fin T) = Fin q /\ (0 <= q <= 1)%R /\
            (t / T - underflow_threshold <= q <= t / T)%R.
Proof.
  intros Ht HT. simpl. rewrite decide_False by lra.
  assert (0 <= t / T <= 1)%R as Hq.
  { assert (0 < / T)%R as Hinv by (apply Rinv_0_lt_compat; lra).
    assert (T * / T = 1)%R as Hone by (apply Rinv_r; lra).
    unfold Rdiv. split; [apply Rmult_le_pos; lra|].
    rewrite <- Hone. apply Rmult_le_compat_r; lra. }
  destruct (round_unit (t / T) Hq) as (q & -> & Hq1 & _ & Hq2).
  exists q. split; [done|]. lra.
Qed.

Lemma np_sum_fmap_le {A} (g h : A -> R) (l : list A) :
  (forall a, a ∈ l -> (g a <= h a)%R) ->
  (np_sum (g <$> l) <= np_sum (h <$> l))%R.
Proof.
  unfold np_sum. induction l as [|a l IH]; intros Hgh; csimpl; [lra|].
  pose proof (Hgh a ltac:(left)).
  assert (foldr Rplus 0 (g <$> l) <= foldr Rplus 0 (h <$> l))%R; [|lra].
  apply IH. intros a' Ha'. apply Hgh. by right.
Qed.

Lemma np_sum_fmap_minus {A} (h : A -> R) (c : R) (l : list A) :
  np_sum ((fun a => h a - c)%R <$> l) = (np_sum (h <$> l) - INR (length l) * c)%R.
Proof.
  unfold np_sum. induction l as [|a l IH]; csimpl; [lra|].
  rewrite IH. destruct (length l); [simpl; lra|]. lra.
Qed.

(** ** One row of the probability table *)

Section row64.
Context (weights : vec) (row : dict RHS vec).
Hypothesis Hrow : row <> [].
Hypothesis Hlen : (Z.of_nat (length row) <= sys_maxsize)%Z.
Hypothesis Hfin : forall y f, (y, f) ∈ row -> finite (Float64.dot weights f).

Let vs : list vec := dict_values row.
Let sc (f : vec) : R := to_R (Float64.dot weights f).
Let b64 : float := maximum64 (row_scores64 weights row).
Let t (f : vec) : R := to_R (fexp (fsub (Float64.dot weights f) b64)).
Let T : R := np_sum (t <$> vs).

Lemma elem_of_dict_values (f : vec) : f ∈ vs <-> exists y, (y, f) ∈ row.
Proof.
  unfold vs, dict_values. rewrite list_elem_of_fmap. split.
  - intros ([y f'] & -> & Hin). by exists y.
  - intros [y Hin]. by exists (y, f).
Qed.

Lemma row_scores64_Fin : row_scores64 weights row = Fin <$> (sc <$> vs).
Proof.
  unfold row_scores64. fold vs. rewrite <- list_fmap_compose.
  apply list_fmap_ext. intros i f Hi%list_elem_of_lookup_2.
  apply elem_of_dict_values in Hi as [y Hy]. simpl.
  apply finite_to_R. by eapply Hfin.
Qed.

Lemma row_maximum64 :
  exists b, b64 = Fin b /\ (exists f, f ∈ vs /\ sc f = b) /\
            forall f, f ∈ vs -> (sc f <= b)%R.
Proof.
  unfold b64. rewrite row_scores64_Fin.
  destruct (maximum64_Fin (sc <$> vs)) as (b & Hb & Hin & Hub).
  { unfold vs, dict_values. by destruct row. }
  exists b. split_and!; [done| |].
  - apply list_elem_of_fmap in Hin as (f & -> & Hf). by exists f.
  - intros f Hf. apply Hub, list_elem_of_fmap. by exists f.
Qed.

Lemma shifted_Fin f :
  f ∈ vs ->
  fexp (fsub (Float64.dot weights f) b64) = Fin (t f) /\ unit_value (t f).
Proof.
  intros Hf. destruct row_maximum64 as (b & Hb & _ & Hub).
  pose proof Hf as [y Hy]%elem_of_dict_values.
  unfold t. rewrite Hb, (finite_to_R _ (Hfin _ _ Hy)).
  destruct (fexp_shift (sc f) b (Hub f Hf)) as (t' & Ht' & Hunit).
  fold (sc f). by rewrite Ht'.
Qed.

Lemma shifted_one : exists f, f ∈ vs /\ t f = 1%R.
Proof.
  destruct row_maximum64 as (b & Hb & (f & Hf & Hfb) & _).
  exists f. split; [done|].
  pose proof Hf as [y Hy]%elem_of_dict_values.
  unfold t. rewrite Hb, (finite_to_R _ (Hfin _ _ Hy)). fold (sc f).
  by rewrite Hfb, fexp_shift_max.
Qed.

Lemma shifted_list :
  (fun s => fexp (fsub s b64)) <$> row_scores64 weights row = Fin <$> (t <$> vs).
Proof.
  unfold row_scores64. fold vs. rewrite <- !list_fmap_compose.
  apply list_fmap_ext. intros i f Hi%list_elem_of_lookup_2. simpl.
  by destruct (shifted_Fin f Hi).
Qed.

Lemma units : Forall unit_value (t <$> vs).
Proof.
  apply Forall_fmap, Forall_forall. intros f Hf. simpl.
  by destruct (shifted_Fin f Hf).
Qed.

Lemma length_vs : length vs = length row.
Proof. unfold vs, dict_values. by rewrite length_fmap. Qed.

Lemma row_length_small : (INR (length (t <$> vs)) < overflow_threshold)%R.
Proof.
  rewrite length_fmap, length_vs, INR_IZR_INZ.
  pose proof overflow_threshold_large.
  assert (IZR (Z.of_nat (length row)) <= IZR (2 ^ 64))%R; [|lra].
  apply IZR_le. unfold sys_maxsize in Hlen. lia.
Qed.

Lemma row_total64 :
  Float64.np_sum ((fun s => fexp (fsub s b64)) <$> row_scores64 weights row)
  = Fin T.
Proof.
  rewrite shifted_list. apply np_sum64_units; [apply units|].
  apply row_length_small.
Qed.

Lemma units_nonneg : Forall (fun x => 0 <= x)%R (t <$> vs).
Proof. eapply Forall_impl; [apply units|]. by intros x [[? _] _]. Qed.

Lemma row_total64_ge_1 : (1 <= T)%R.
Proof.
  destruct shifted_one as (f & Hf & <-).
  apply elem_le_np_sum; [apply units_nonneg|].
  apply list_elem_of_fmap. by exists f.
Qed.

(** A probability is the quotient of the unit interval, or 0 when the
    quotient underflows. *)
Lemma softmax_prob64_value f :
  f ∈ vs ->
  exists q, softmax_prob64 weights row f = Fin q /\ (0 <= q <= 1)%R /\
            (t f / T - underflow_threshold <= q <= t f / T)%R.
Proof.
  intros Hf. unfold softmax_prob64. fold b64. rewrite row_total64.
  destruct (shifted_Fin f Hf) as [-> [Ht _]].
  apply fdiv_unit; [|apply row_total64_ge_1].
  split; [lra|]. apply elem_le_np_sum; [apply units_nonneg|].
  apply list_elem_of_fmap. by exists f.
Qed.

(** The probabilities of the row are finite and sum to 1 within the
    tolerance. *)
Lemma probs_row64_sum :
  exists qs, dict_values (probs_row64 weights row) = Fin <$> qs /\
             (Rabs (np_sum qs - 1) <= 1e-9)%R.
Proof.
  exists ((fun f => to_R (softmax_prob64 weights row f)) <$> vs). split.
  - unfold probs_row64. rewrite dict_values_map. fold vs.
    rewrite <- list_fmap_compose.
    apply list_fmap_ext. intros i f Hi%list_elem_of_lookup_2. simpl.
    by destruct (softmax_prob64_value f Hi) as (q & -> & _).
  - pose proof row_total64_ge_1 as HT.
    assert (np_sum ((fun f => t f / T)%R <$> vs) = 1%R) as Hone.
    { rewrite (list_fmap_compose t (fun e => e / T)%R), np_sum_div.
      fold T. field. lra. }
    assert (np_sum ((fun f => to_R (softmax_prob64 weights row f)) <$> vs) <= 1)%R
      as Hup.
    { rewrite <- Hone. apply np_sum_fmap_le. intros f Hf.
      destruct (softmax_prob64_value f Hf) as (q & -> & _ & Hq). simpl. lra. }
    assert (1 - INR (length vs) * underflow_threshold
            <= np_sum ((fun f => to_R (softmax_prob64 weights row f)) <$> vs))%R
      as Hlow.
    { rewrite <- Hone, <- np_sum_fmap_minus. apply np_sum_fmap_le. intros f Hf.
      destruct (softmax_prob64_value f Hf) as (q & -> & _ & Hq). simpl. lra. }
    pose proof (underflow_threshold_times_maxsize (length vs)) as Hsmall.
    rewrite length_vs in Hsmall. specialize (Hsmall Hlen).
    rewrite length_vs in Hlow.
    apply Rabs_le. lra.
Qed.
End row64.

(** ** The probability engine over the doubles *)

Section probs_from_model64.
Context {S : Type} {model : LogLinModel S} {laws : Lawful S}
  {hook : Float64.FeatvecDot S} {laws64 : Lawful64 S}.
Context (rules : dict Token (dict RHS vec)) (d : nat) (weights : vec).
Hypothesis Hwf : wf_rules d rules.
Hypothesis Hne : nonempty_rows rules.
Hypothesis Hlen : length weights = d.
Hypothesis Hweights : Forall in_range weights.

Let P := represents rules d.

Lemma scores64_returns x row :
  dict_get x rules = Some row ->
  returns P (traverse (fun y => Float64.score weights x y) (dict_keys row))
    (row_scores64 weights row).
Proof.
  intros Hx. pose proof (dict_get_Some_elem _ _ _ Hx) as Hin.
  assert (row_scores64 weights row =
          (fun y => Float64.dot weights (default [] (dict_get y row))) <$>
            dict_keys row) as ->.
  { rewrite (fmap_keys_lookup (fun _ o => Float64.dot weights (default [] o)))
      by apply (wf_rhss _ _ Hwf _ _ Hin).
    unfold row_scores64, dict_values. by rewrite <- list_fmap_compose. }
  apply returns_traverse. intros y [f Hy]%dict_get_is_Some.
  rewrite Hy. simpl. by eapply featvec_dot64_returns.
Qed.

Lemma normalized_row64 row scores :
  NoDup (dict_keys row) -> scores = row_scores64 weights row ->
  let b := maximum64 scores in
  let shifted_exp_scores := (fun s => fexp (fsub s b)) <$> scores in
  let normalized_probs :=
    (fun e => fdiv e (Float64.np_sum shifted_exp_scores)) <$> shifted_exp_scores in
  foldl (fun (r : dict RHS float) '(y, p) => dict_set y p r) []
    (zip (dict_keys row) normalized_probs) =
  probs_row64 weights row.
Proof.
  intros Hnd -> b sh np. subst np sh b.
  transitivity (foldl (fun (r : dict RHS float) '(y, p) => dict_set y p r) []
                  (probs_row64 weights row)).
  - f_equal. unfold probs_row64. rewrite <- zip_keys_values. f_equal.
    unfold row_scores64. rewrite <- !list_fmap_compose.
    apply list_fmap_ext. intros i f Hi. simpl.
    unfold softmax_prob64, row_scores64.
    by rewrite <- list_fmap_compose.
  - rewrite foldl_dict_set_items; [done| |].
    + unfold probs_row64. by rewrite dict_keys_map.
    + intros k _. apply not_elem_of_nil.
Qed.

Lemma probs_from_model_row64_returns probtable x row :
  dict_get x rules = Some row ->
  returns P (Float64.probs_from_model_row weights probtable x)
    (dict_set x (probs_row64 weights row) probtable).
Proof.
  intros Hx. pose proof (dict_get_Some_elem _ _ _ Hx) as Hin.
  unfold Float64.probs_from_model_row.
  eapply returns_bind; [by eapply rhss_returns|].
  eapply returns_bind; [by apply scores64_returns|].
  eapply returns_bind.
  { apply returns_lift, np_max_maximum64.
    pose proof (Hne _ _ Hin). unfold row_scores64, dict_values.
    by destruct row. }
  apply returns_ret_eq. f_equal. apply normalized_row64; [|done].
  apply (wf_rhss _ _ Hwf _ _ Hin).
Qed.

Lemma probs_spec64_foldl :
  foldl (fun acc x =>
           dict_set x (probs_row64 weights (default [] (dict_get x rules))) acc)
        [] (dict_keys rules) =
  probs_spec64 weights rules.
Proof.
  rewrite foldl_dict_set_keys by apply (wf_lhss _ _ Hwf).
  rewrite (fmap_keys_lookup
             (fun x o => (x, probs_row64 weights (default [] o))))
    by apply (wf_lhss _ _ Hwf).
  done.
Qed.

Lemma probs_from_model64_returns :
  returns P (Float64.probs_from_model weights) (probs_spec64 weights rules).
Proof.
  unfold Float64.probs_from_model.
  eapply returns_bind; [apply lhss_returns|].
  rewrite <- probs_spec64_foldl. apply returns_foldM.
  intros acc x [row Hx]%dict_get_is_Some. rewrite Hx. simpl.
  by apply probs_from_model_row64_returns.
Qed.
End probs_from_model64.

Lemma prob_of64_probs_spec64 weights rules lhs rhs :
  prob_of64 (probs_spec64 weights rules) lhs rhs =
  dict_get lhs rules ≫= fun row => softmax_prob64 weights row <$> dict_get rhs row.
Proof.
  unfold prob_of64, probs_spec64. rewrite dict_get_map.
  destruct (dict_get lhs rules) as [row|]; simpl; [|done].
  unfold probs_row64. by rewrite dict_get_map.
Qed.

Lemma prob_of64_probs_spec64_Some weights rules lhs rhs row f :
  dict_get lhs rules = Some row -> dict_get rhs row = Some f ->
  prob_of64 (probs_spec64 weights rules) lhs rhs
  = Some (softmax_prob64 weights row f).
Proof.
  intros Hl Hr. rewrite prob_of64_probs_spec64, Hl. simpl. by rewrite Hr.
Qed.

(** ** The two subclasses over the doubles *)

Lemma dense_featvec_dot64_returns rules d x row y f w :
  dict_get x rules = Some row -> dict_get y row = Some f ->
  length w = d -> Forall in_range w ->
  returns (dense_represents rules d)
    (Float64.default_featvec_dot LogLinModelFromFile.featvec x y w)
    (Float64.dot w f).
Proof.
  intros Hx Hy Hw _ s [-> Hwf]. eexists. split; [|done].
  unfold Float64.default_featvec_dot, bind, LogLinModelFromFile.featvec,
    defaultdict_getitem, dict_getitem, lift, Float64.np_dot. simpl.
  rewrite Hx, Hy.
  rewrite decide_True; [done|]. rewrite Hw. symmetry.
  eapply (wf_dim _ _ Hwf); by eapply dict_get_Some_elem.
Qed.

#[global] Instance dense_lawful64 : Lawful64 LogLinModelFromFile.t.
Proof. constructor. exact dense_featvec_dot64_returns. Qed.

(** The dot product of doubles with a one-hot vector is the entry at its
    index. *)
Lemma foldl_dot64_zeros a (w : vec) n :
  in_range a ->
  foldl (fun acc '(x, y) => fadd acc (fmul (Fin x) (Fin y))) (Fin a)
        (zip w (replicate n 0%R)) = Fin a.
Proof.
  intros Ha. revert n. induction w as [|x w IH]; intros [|n]; simpl; try done.
  rewrite Rmult_0_r, round_0. simpl. rewrite Rplus_0_r, round_in_range by done.
  apply IH.
Qed.

Lemma dot64_onehot (w : vec) i r :
  Forall in_range w -> w !! i = Some r ->
  Float64.dot w (onehot (length w) i) = Fin r.
Proof.
  unfold Float64.dot, onehot, np_put. revert i.
  induction w as [|x w IH]; intros [|i] Hw; simpl; try done.
  - intros [= ->]. apply Forall_cons in Hw as [Hr _].
    rewrite Rmult_1_r, round_in_range by done. simpl.
    rewrite Rplus_0_l, round_in_range by done.
    by apply foldl_dot64_zeros.
  - intros Hi. apply Forall_cons in Hw as [_ Hw].
    rewrite Rmult_0_r, round_0. simpl. rewrite Rplus_0_l, round_0.
    by apply IH.
Qed.

Section basic_lawful64.
Import LogLinModelBasic.

Lemma basic_featvec_dot64_returns rules d x row y f w :
  dict_get x rules = Some row -> dict_get y row = Some f ->
  length w = d -> Forall in_range w ->
  returns (basic_represents rules d) (Float64.basic_featvec_dot x y w)
    (Float64.dot w f).
Proof.
  intros Hx Hy Hw Hin s (-> & -> & Hok).
  destruct (rules_of_entry _ _ _ _ _ Hx Hy) as (i & Hi & ->).
  destruct (find_index_spec _ _ _ _ Hok Hi) as (s' & Hfind & Hrl & Hok').
  pose proof (list_index_lt _ _ _ Hi) as Hlt.
  destruct (lookup_lt_is_Some_2 w i) as [r Hr]; [lia|].
  exists s'. split; [|unfold basic_represents; by rewrite Hrl].
  unfold Float64.basic_featvec_dot, bind. rewrite Hfind. unfold lift.
  rewrite Hr, <- Hw. by rewrite (dot64_onehot _ _ _ Hin Hr).
Qed.
End basic_lawful64.

#[global] Instance basic_lawful64 : Lawful64 LogLinModelBasic.t.
Proof. constructor. exact basic_featvec_dot64_returns. Qed.

(** ** The probability table for finite scores *)


(** ** The log-likelihood over the doubles *)

Lemma is_zero_true p : is_zero p = true <-> p = Fin 0.
Proof.
  destruct p as [r| | |]; simpl; try (split; done).
  rewrite bool_decide_eq_true. split; [by intros ->|by intros [= ->]].
Qed.

Section loglikelihood64.
Context (probtable : Float64.ProbabilityTable).
Local Arguments fmul : simpl never.
Local Arguments fadd : simpl never.
Local Arguments flog : simpl never.

(** The loop body of the [try] block. *)
Let body (ll : float) (item : Token * dict RHS Z) : result float :=
  let '(lhs, d) := item in
  let? terms := rtraverse (fun '(rhs, freq) =>
                   let? lp := Float64.logprob probtable lhs rhs in
                   Ok (fmul (Fin (IZR freq)) lp)) d in
  Ok (fadd ll (Float64.py_sum terms)).

Lemma logprob64_value lhs rhs p :
  prob_of64 probtable lhs rhs = Some p ->
  Float64.logprob probtable lhs rhs =
  if is_zero p then Raise ProbabilityZeroError else Ok (flog p).
Proof.
  unfold prob_of64, Float64.logprob, dict_getitem.
  destruct (dict_get lhs probtable) as [row|]; simpl; [|done].
  destruct (dict_get rhs row) as [q|]; simpl; [|done]. by intros [= ->].
Qed.

Lemma logprob64_None lhs rhs :
  prob_of64 probtable lhs rhs = None ->
  Float64.logprob probtable lhs rhs = Raise KeyError.
Proof.
  unfold prob_of64, Float64.logprob, dict_getitem.
  destruct (dict_get lhs probtable) as [row|]; simpl; [|done].
  by destruct (dict_get rhs row) as [q|].
Qed.

Lemma logprob64_Ok lhs rhs lp :
  Float64.logprob probtable lhs rhs = Ok lp ->
  lp = flog (default NaN (prob_of64 probtable lhs rhs)).
Proof.
  destruct (prob_of64 probtable lhs rhs) as [p|] eqn:Hp.
  - rewrite (logprob64_value _ _ _ Hp). simpl.
    destruct (is_zero p); [done|]. by intros [= <-].
  - by rewrite (logprob64_None _ _ Hp).
Qed.

Lemma first_raise_app l1 l2 :
  first_raise probtable (l1 ++ l2) =
  match first_raise probtable l1 with
  | Some e => Some e
  | None => first_raise probtable l2
  end.
Proof.
  induction l1 as [|[[lhs rhs] freq] l1 IH]; simpl; [done|].
  by destruct (Float64.logprob probtable lhs rhs).
Qed.

(** The list comprehension over the entries of one LHS. *)
Lemma rtraverse_first_raise lhs (d : dict RHS Z) :
  match first_raise probtable
          ((fun entry : RHS * Z => (lhs, entry.1, entry.2)) <$> d) with
  | Some e =>
      rtraverse (fun '(rhs, freq) =>
                   let? lp := Float64.logprob probtable lhs rhs in
                   Ok (fmul (Fin (IZR freq)) lp)) d = Raise e
  | None =>
      rtraverse (fun '(rhs, freq) =>
                   let? lp := Float64.logprob probtable lhs rhs in
                   Ok (fmul (Fin (IZR freq)) lp)) d
      = Ok ((fun entry : RHS * Z =>
               fmul (Fin (IZR entry.2))
                    (flog (default NaN (prob_of64 probtable lhs entry.1))))
              <$> d)
  end.
Proof.
  induction d as [|[rhs freq] d IH]; csimpl; [done|].
  destruct (Float64.logprob probtable lhs rhs) as [lp|e] eqn:Hlp; simpl; [|done].
  apply logprob64_Ok in Hlp as ->.
  destruct (first_raise probtable _) as [e|]; by rewrite IH.
Qed.

Lemma loglikelihood_try64_first_raise td acc :
  rfold body td acc =
  match first_raise probtable (td_entries td) with
  | Some e => Raise e
  | None =>
      Ok (foldl (fun ll (item : Token * dict RHS Z) =>
                   fadd ll
                     (Float64.py_sum
                        ((fun entry : RHS * Z =>
                            fmul (Fin (IZR entry.2))
                                 (flog (default NaN
                                          (prob_of64 probtable item.1 entry.1))))
                           <$> item.2)))
                acc td)
  end.
Proof.
  revert acc. induction td as [|[lhs d] td IH]; intros acc; [done|].
  unfold td_entries in *. csimpl. rewrite first_raise_app.
  pose proof (rtraverse_first_raise lhs d) as Hd. revert Hd.
  destruct (first_raise probtable
              ((fun entry : RHS * Z => (lhs, entry.1, entry.2)) <$> d))
    as [e|]; intros ->; simpl; [done|].
  apply IH.
Qed.

Lemma loglikelihood_of64_first_raise td :
  Float64.loglikelihood_of probtable td =
  match first_raise probtable (td_entries td) with
  | Some ProbabilityZeroError => Ok (Fin float_min)
  | Some e => Raise e
  | None => Ok (loglikelihood_sum64 probtable td)
  end.
Proof.
  unfold Float64.loglikelihood_of, Float64.loglikelihood_try.
  change (rfold _ td (Fin 0)) with (rfold body td (Fin 0)).
  rewrite loglikelihood_try64_first_raise.
  by destruct (first_raise probtable (td_entries td)) as [[]|].
Qed.

(** On entries that all have a probability only the zero test raises. *)
Lemma first_raise_covered entries :
  (forall lhs rhs freq, (lhs, rhs, freq) ∈ entries ->
     is_Some (prob_of64 probtable lhs rhs)) ->
  ((exists lhs rhs freq, (lhs, rhs, freq) ∈ entries /\
      prob_of64 probtable lhs rhs = Some (Fin 0)) ->
   first_raise probtable entries = Some ProbabilityZeroError) /\
  ((forall lhs rhs freq, (lhs, rhs, freq) ∈ entries ->
      prob_of64 probtable lhs rhs <> Some (Fin 0)) ->
   first_raise probtable entries = None).
Proof.
  induction entries as [|[[lhs rhs] freq] entries IH]; intros Hcov.
  - split; [|done]. by intros (? & ? & ? & ?%elem_of_nil & _).
  - destruct IH as [IHz IHnz].
    { intros l r q Hin. apply (Hcov l r q). by right. }
    destruct (Hcov lhs rhs freq) as [p Hp]; [left|]. simpl.
    rewrite (logprob64_value _ _ _ Hp).
    destruct (is_zero p) eqn:Hz.
    + split; [done|]. intros Hnz. apply is_zero_true in Hz as ->.
      destruct (Hnz lhs rhs freq); [left|done].
    + split.
      * intros (l & r & q & [[= -> -> ->]|Hin]%elem_of_cons & Hzero).
        -- rewrite Hp in Hzero. injection Hzero as ->. simpl in Hz.
           by rewrite bool_decide_eq_false in Hz.
        -- apply IHz. eauto.
      * intros Hnz. apply IHnz. intros l r q Hin. apply (Hnz l r q). by right.
Qed.

Lemma loglikelihood_of64_returns td :
  covers64 probtable td ->
  exists ll, Float64.loglikelihood_of probtable td = Ok ll.
Proof.
  intros Hcov. rewrite loglikelihood_of64_first_raise.
  destruct (first_raise_covered (td_entries td) Hcov) as [Hz Hnz].
  destruct (first_raise probtable (td_entries td)) as [e|] eqn:Hfirst;
    [|by eexists].
  assert (e = ProbabilityZeroError) as ->; [|by eexists].
  clear Hz Hnz. revert Hfirst Hcov. unfold covers64.
  induction (td_entries td) as [|[[lhs rhs] freq] entries IH]; [done|].
  simpl. intros Hfirst Hcov.
  destruct (Hcov lhs rhs freq) as [p Hp]; [left|].
  rewrite (logprob64_value _ _ _ Hp) in Hfirst.
  destruct (is_zero p); [by injection Hfirst|].
  apply IH; [done|]. intros l r q Hin. apply (Hcov l r q). by right.
Qed.

(** With every rule of the frequency table in the probability table:
    a zero probability gives the floor, otherwise the sum is computed. *)
Lemma loglikelihood_of64_cases td :
  covers64 probtable td ->
  ((exists lhs rhs freq,
      (lhs, rhs, freq) ∈ td_entries td /\
      prob_of64 probtable lhs rhs = Some (Fin 0)) ->
   Float64.loglikelihood_of probtable td = Ok (Fin float_min)) /\
  ((forall lhs rhs freq,
      (lhs, rhs, freq) ∈ td_entries td ->
      prob_of64 probtable lhs rhs <> Some (Fin 0)) ->
   Float64.loglikelihood_of probtable td
   = Ok (loglikelihood_sum64 probtable td)).
Proof.
  intros Hcov. rewrite loglikelihood_of64_first_raise.
  destruct (first_raise_covered (td_entries td) Hcov) as [Hz Hnz].
  split; intros H.
  - by rewrite (Hz H).
  - by rewrite (Hnz H).
Qed.
End loglikelihood64.

(** ** Concrete doubles *)

Lemma exp_INR_mult (n : nat) (x : R) : exp (INR n * x) = (exp x ^ n)%R.
Proof.
  induction n as [|n IH].
  - simpl. by rewrite Rmult_0_l, exp_0.
  - rewrite S_INR, Rmult_plus_distr_r, Rmult_1_l, exp_plus, IH. simpl. lra.
Qed.

(** [exp(-1000)] and everything below it underflows. *)
Lemma exp_underflow x : (x <= -1000)%R -> (exp x <= underflow_threshold)%R.
Proof.
  intros Hx.
  assert (exp x <= exp (-1000))%R as Hmono.
  { destruct Hx as [Hx| ->]; [|lra]. apply exp_increasing in Hx. lra. }
  assert (IZR (2 ^ 1075) <= exp 1000)%R as Hbig.
  { replace 1000%R with (INR 2000 * (1 / 2))%R.
    2:{ rewrite INR_IZR_INZ. change (Z.of_nat 2000) with 2000%Z. lra. }
    rewrite exp_INR_mult.
    assert (3 / 2 <= exp (1 / 2))%R as Hhalf.
    { pose proof (exp_ineq1 (1 / 2)). lra. }
    assert ((3 / 2) ^ 2000 <= exp (1 / 2) ^ 2000)%R as Hpow.
    { apply pow_incr. lra. }
    assert (IZR (2 ^ 1075) <= (3 / 2) ^ 2000)%R; [|lra].
    assert (0 < IZR (2 ^ 2000))%R as H2 by (apply IZR_lt; reflexivity).
    replace ((3 / 2) ^ 2000)%R with (IZR (3 ^ 2000) / IZR (2 ^ 2000))%R.
    2:{ unfold Rdiv. rewrite Rpow_mult_distr, pow_inv, !pow_IZR. done. }
    apply Rmult_le_reg_r with (IZR (2 ^ 2000)); [done|].
    unfold Rdiv. rewrite Rmult_assoc, Rinv_l, Rmult_1_r by lra.
    rewrite <- mult_IZR. apply IZR_le. vm_compute. discriminate. }
  assert (0 < IZR (2 ^ 1075))%R as Hpos by (apply IZR_lt; reflexivity).
  assert (exp (-1000) = / exp 1000)%R as Hinv.
  { rewrite <- exp_Ropp. f_equal. }
  unfold underflow_threshold.
  assert (/ exp 1000 <= / IZR (2 ^ 1075))%R; [|lra].
  apply Rinv_le_contravar; lra.
Qed.

Lemma round_underflow r :
  (Rabs r <= underflow_threshold)%R -> round r = Fin 0.
Proof.
  intros Hr. unfold round.
  pose proof overflow_threshold_pos. pose proof underflow_threshold_lt_1.
  assert (- underflow_threshold <= r <= underflow_threshold)%R as [H1 H2].
  { unfold Rabs in Hr. destruct (Rcase_abs r); lra. }
  destruct (Rle_dec overflow_threshold r); [lra|].
  destruct (Rle_dec r (- overflow_threshold)); [lra|].
  by destruct (Rle_dec (Rabs r) underflow_threshold).
Qed.

Lemma round_overflow r : (overflow_threshold <= r)%R -> round r = PInf.
Proof. intros Hr. unfold round. by destruct (Rle_dec overflow_threshold r). Qed.

(** An integer of at most 64 bits is a double as far as the range goes. *)
Lemma in_range_IZR z : (Z.abs z < 2 ^ 64)%Z -> in_range (IZR z).
Proof.
  intros Hz. unfold in_range. rewrite <- abs_IZR. split.
  - pose proof overflow_threshold_large.
    assert (IZR (Z.abs z) < IZR (2 ^ 64))%R by by apply IZR_lt. lra.
  - destruct (decide (z = 0%Z)) as [->|Hnz]; [by left|right].
    pose proof underflow_threshold_lt_1.
    assert (IZR 1 <= IZR (Z.abs z))%R by (apply IZR_le; lia). lra.
Qed.

Lemma fadd_Fin a b : in_range (a + b) -> fadd (Fin a) (Fin b) = Fin (a + b).
Proof. intros Hab. simpl. by apply round_in_range. Qed.

Lemma fmul_Fin a b : in_range (a * b) -> fmul (Fin a) (Fin b) = Fin (a * b).
Proof. intros Hab. simpl. by apply round_in_range. Qed.

Lemma in_range_moderate r :
  (1 <= r <= 1000000000000000000 \/ -1000000000000000000 <= r <= -1 \/ r = 0)%R ->
  in_range r.
Proof.
  pose proof overflow_threshold_large as Hovf.
  assert (IZR (2 ^ 64) = 18446744073709551616)%R as Heq by done.
  rewrite Heq in Hovf. pose proof underflow_threshold_lt_1.
  intros [Hr|[Hr| ->]]; [| |apply in_range_0]; unfold in_range.
  - rewrite Rabs_pos_eq by lra. split; [lra|right; lra].
  - rewrite Rabs_left by lra. split; [lra|right; lra].
Qed.

Lemma fsub_Fin a b : in_range (a - b) -> fsub (Fin a) (Fin b) = Fin (a - b).
Proof. intros Hab. unfold fsub. simpl. by apply round_in_range. Qed.

Lemma fdiv_Fin a b :
  b <> 0%R -> in_range (a / b) -> fdiv (Fin a) (Fin b) = Fin (a / b).
Proof.
  intros Hb Hab. simpl. rewrite decide_False by done. by apply round_in_range.
Qed.

Lemma fexp_0 : fexp (Fin 0) = Fin 1.
Proof. simpl. rewrite exp_0. apply round_1. Qed.

Lemma fexp_underflow x : (x <= -1000)%R -> fexp (Fin x) = Fin 0.
Proof.
  intros Hx. simpl. apply round_underflow.
  pose proof (exp_pos x). rewrite Rabs_pos_eq by lra. by apply exp_underflow.
Qed.

(** Evaluates arithmetic on moderate finite doubles. *)
Ltac float_eval :=
  repeat first
    [ rewrite fadd_Fin by (apply in_range_moderate; lra)
    | rewrite fmul_Fin by (apply in_range_moderate; lra)
    | rewrite fsub_Fin by (apply in_range_moderate; lra)
    | rewrite fdiv_Fin by (try apply in_range_moderate; lra)
    | rewrite fexp_0
    | rewrite fexp_underflow by lra
    | progress cbn [foldl zip zip_with fmap list_fmap fmax
                    dict_values dict_map fst snd] ].

(** ** The floor of the log-likelihood *)

Lemma covers64_probs_spec64 rules weights td :
  td_covered rules td -> covers64 (probs_spec64 weights rules) td.
Proof.
  intros Htd lhs rhs freq Hin. destruct (Htd _ _ _ Hin) as [f Hf].
  apply stored_feats_Some in Hf as (row & Hl & Hr).
  rewrite (prob_of64_probs_spec64_Some _ _ _ _ _ _ Hl Hr). eauto.
Qed.

(** C2.  Given the probability table, [loglikelihood] never raises on a
    frequency table whose rules all have a probability: if one of these
    probabilities is exactly 0 it returns the most negative finite
    double, otherwise the sum over the entries of
    [freq * log(prob(lhs, rhs))].  On a model that holds every rule of
    the frequency table, and in which every LHS has an RHS, it does so
    with the table [probs_from_model] returns, for every weight vector of
    doubles of the model's dimension. *)
Theorem loglikelihood_floor_or_sum :
  (forall (probtable : Float64.ProbabilityTable) (td : FrequencyTable),
     covers64 probtable td ->
     ((exists lhs rhs freq,
         (lhs, rhs, freq) ∈ td_entries td /\
         prob_of64 probtable lhs rhs = Some (Fin 0)) ->
      Float64.loglikelihood_of probtable td = Ok (Fin float_min)) /\
     ((forall lhs rhs freq,
         (lhs, rhs, freq) ∈ td_entries td ->
         prob_of64 probtable lhs rhs <> Some (Fin 0)) ->
      Float64.loglikelihood_of probtable td
      = Ok (loglikelihood_sum64 probtable td))) /\
  (forall (S : Type) (model : LogLinModel S) (laws : Lawful S)
          (hook : Float64.FeatvecDot S) (laws64 : Lawful64 S)
          (rules : dict Token (dict RHS vec)) (d : nat) (s : S)
          (td : FrequencyTable) (weights : vec),
     represents rules d s -> nonempty_rows rules -> td_covered rules td ->
     length weights = d -> Forall in_range weights ->
     exists probtable ll s',
       Float64.probs_from_model weights s = (Ok probtable, s') /\
       covers64 probtable td /\
       Float64.loglikelihood td weights s
       = (Float64.loglikelihood_of probtable td, s') /\
       Float64.loglikelihood_of probtable td = Ok ll).
Proof.
  split; [apply loglikelihood_of64_cases|].
  intros S model laws hook laws64 rules d s td weights Hs Hne Htd Hlen Hw.
  pose proof (represents_wf _ _ _ Hs) as Hwf.
  destruct (probs_from_model64_returns rules d weights Hwf Hne Hlen Hw s Hs)
    as (s' & Hrun & _).
  pose proof (covers64_probs_spec64 rules weights td Htd) as Hcov.
  destruct (loglikelihood_of64_returns _ _ Hcov) as [ll Hll].
  exists (probs_spec64 weights rules), ll, s'.
  split_and!; [done|done| |done].
  unfold Float64.loglikelihood, bind. by rewrite Hrun.
Qed.

(** At the weight 1000 the second alternative of the example underflows:
    its probability is exactly 0. *)
Lemma example_probs_underflow :
  probs_spec64 [1000%R] (LogLinModelFromFile._rules example_model)
  = [("S", [(["A"], Fin 1); (["B"], Fin 0)])].
Proof.
  unfold probs_spec64, probs_row64, softmax_prob64, row_scores64,
    maximum64, Float64.np_sum, Float64.dot, example_model.
  cbn [LogLinModelFromFile._rules]. float_eval.
  replace (0 + 1000 * 1)%R with 1000%R by lra.
  replace (0 + 1000 * 0)%R with 0%R by lra.
  replace (Rmax 1000 0) with 1000%R by (unfold Rmax; destruct (Rle_dec 1000 0); lra).
  float_eval.
  replace (1000 - 1000)%R with 0%R by lra.
  replace (0 - 1000)%R with (-1000)%R by lra.
  float_eval.
  replace (0 + 1 + 0)%R with 1%R by lra.
  float_eval.
  replace (1 / 1)%R with 1%R by lra.
  replace (0 / 1)%R with 0%R by lra.
  done.
Qed.

(** ** Worked examples over the doubles *)

(** On a dense model the calls of the engine leave the object as it is. *)
Lemma dense_probs_from_model64 rules d weights :
  wf_rules d rules -> nonempty_rows rules -> length weights = d ->
  Forall in_range weights ->
  Float64.probs_from_model weights (LogLinModelFromFile.mk rules (Some d))
  = (Ok (probs_spec64 weights rules), LogLinModelFromFile.mk rules (Some d)).
Proof.
  intros Hwf Hne Hlen Hw.
  destruct (probs_from_model64_returns (laws := dense_lawful) rules d weights
              Hwf Hne Hlen Hw (LogLinModelFromFile.mk rules (Some d)))
    as (s' & Hrun & [-> _]); [done|done].
Qed.

Lemma loglikelihood_floor_or_sum_witness :
  Float64.loglikelihood example_td [1000%R] example_model
  = (Ok (Fin float_min), example_model).
Proof.
  destruct example_represents as [Hrep Hne].
  assert (Forall in_range [1000%R]) as Hw.
  { apply Forall_cons. split; [apply in_range_moderate; lra|apply Forall_nil_2]. }
  destruct (proj2 loglikelihood_floor_or_sum LogLinModelFromFile.t _
              dense_lawful _ dense_lawful64
              (LogLinModelFromFile._rules example_model) 1 example_model
              example_td [1000%R] Hrep Hne example_td_covered eq_refl Hw)
    as (probtable & ll & s' & Hrun & Hcov & Hll & _).
  destruct Hrep as [_ Hwf].
  pose proof (dense_probs_from_model64 _ 1 [1000%R] Hwf Hne eq_refl Hw) as Hrun'.
  change (LogLinModelFromFile.mk _ (Some 1)) with example_model in Hrun'.
  rewrite Hrun' in Hrun. injection Hrun as <- <-.
  rewrite Hll. f_equal.
  apply (proj1 loglikelihood_floor_or_sum _ _ Hcov).
  exists "S", ["B"], 1%Z. split.
  - unfold td_entries, example_td. csimpl. right. left.
  - change (prob_of64 (probs_spec64 [1000%R]
                        (LogLinModelFromFile._rules example_model)) "S" ["B"]
            = Some (Fin 0)).
    by rewrite example_probs_underflow.
Defined.

Lemma example_steep_init :
  LogLinModelFromFile.init example_steep_input = Ok example_steep_model.
Proof. reflexivity. Qed.



(** ** Further properties over the doubles *)

Lemma softmax_prob64_single weights y f :
  softmax_prob64 weights [(y, f)] f =
  match Float64.dot weights f with
  | Fin _ => Fin 1
  | _ => NaN
  end.
Proof.
  unfold softmax_prob64, row_scores64, maximum64, Float64.np_sum.
  cbn [dict_values fmap list_fmap foldl snd].
  destruct (Float64.dot weights f) as [r| | |]; try done.
  rewrite fexp_shift_max.
  rewrite fadd_Fin by (apply in_range_moderate; lra).
  rewrite fdiv_Fin by (try apply in_range_moderate; lra).
  f_equal. lra.
Qed.

(** X3.  An LHS with a single RHS gives it probability 1 whenever its
    score is finite; when the score is infinite or NaN the probability
    is NaN. *)
Theorem probs_from_model_single_rhs
    {S : Type} {model : LogLinModel S} {laws : Lawful S}
    {hook : Float64.FeatvecDot S} {laws64 : Lawful64 S}
    (rules : dict Token (dict RHS vec)) (d : nat) (s : S) (weights : vec)
    (x : Token) (y : RHS) (f : vec) :
  represents rules d s -> nonempty_rows rules -> length weights = d ->
  Forall in_range weights ->
  dict_get x rules = Some [(y, f)] ->
  exists probtable s',
    Float64.probs_from_model weights s = (Ok probtable, s') /\
    (finite (Float64.dot weights f) ->
     prob_of64 probtable x y = Some (Fin 1)) /\
    (~ finite (Float64.dot weights f) ->
     prob_of64 probtable x y = Some NaN).
Proof.
  intros Hs Hne Hlen Hw Hx. pose proof (represents_wf _ _ _ Hs) as Hwf.
  destruct (probs_from_model64_returns rules d weights Hwf Hne Hlen Hw s Hs)
    as (s' & Hrun & _).
  exists (probs_spec64 weights rules), s'. split; [done|].
  rewrite (prob_of64_probs_spec64_Some _ _ _ _ [(y, f)] f Hx).
  2:{ simpl. by rewrite decide_True. }
  rewrite softmax_prob64_single. split.
  - by intros [r ->].
  - intros Hnf. destruct (Float64.dot weights f) as [r| | |]; try done.
    destruct Hnf. by exists r.
Qed.

Lemma probs_from_model_single_rhs_witness :
  exists probtable s',
    Float64.probs_from_model [5%R]
      (LogLinModelFromFile.mk [("T", [(["C"], [3%R])])] (Some 1))
    = (Ok probtable, s') /\
    prob_of64 probtable "T" ["C"] = Some (Fin 1).
Proof.
  destruct (init_represents _ _ _ example_single_init) as [Hrep Hne].
  destruct (probs_from_model_single_rhs (laws := dense_lawful) _ 1 _ [5%R]
              "T" ["C"] [3%R] Hrep Hne eq_refl)
    as (probtable & s' & Hrun & Hfin & _).
  - apply Forall_cons. split; [apply in_range_moderate; lra|apply Forall_nil_2].
  - reflexivity.
  - exists probtable, s'. split; [exact Hrun|]. apply Hfin.
    exists 15%R. unfold Float64.dot. float_eval. f_equal. lra.
Defined.

Lemma prob_of64_probs_spec64_None weights rules lhs rhs :
  stored_feats rules lhs rhs = None ->
  prob_of64 (probs_spec64 weights rules) lhs rhs = None.
Proof.
  rewrite prob_of64_probs_spec64. unfold stored_feats.
  destruct (dict_get lhs rules) as [row|]; simpl; [|done].
  by intros ->.
Qed.

(** X5.  When the frequency table holds a rule the model does not have,
    [loglikelihood] raises [KeyError] if every entry before that rule (in
    iteration order) has a probability other than 0, and returns the floor
    if one of them has probability 0: the zero is met first and ends the
    loop.  The model still stands for the same table. *)
Theorem loglikelihood_unknown_rule_KeyError_or_floor
    {S : Type} {model : LogLinModel S} {laws : Lawful S}
    {hook : Float64.FeatvecDot S} {laws64 : Lawful64 S}
    (rules : dict Token (dict RHS vec)) (d : nat) (s : S)
    (td : FrequencyTable) (weights : vec)
    (pre post : list (Token * RHS * Z)) (lhs : Token) (rhs : RHS) (freq : Z) :
  represents rules d s -> nonempty_rows rules -> length weights = d ->
  Forall in_range weights ->
  td_entries td = pre ++ (lhs, rhs, freq) :: post ->
  stored_feats rules lhs rhs = None ->
  (forall l r q, (l, r, q) ∈ pre -> is_Some (stored_feats rules l r)) ->
  exists probtable s',
    Float64.probs_from_model weights s = (Ok probtable, s') /\
    represents rules d s' /\
    ((forall l r q, (l, r, q) ∈ pre -> prob_of64 probtable l r <> Some (Fin 0)) ->
     Float64.loglikelihood td weights s = (Raise KeyError, s')) /\
    ((exists l r q, (l, r, q) ∈ pre /\ prob_of64 probtable l r = Some (Fin 0)) ->
     Float64.loglikelihood td weights s = (Ok (Fin float_min), s')).
Proof.
  intros Hs Hne Hlen Hw Hsplit Hmiss Hpre.
  pose proof (represents_wf _ _ _ Hs) as Hwf.
  destruct (probs_from_model64_returns rules d weights Hwf Hne Hlen Hw s Hs)
    as (s' & Hrun & Hs').
  assert (forall l r q, (l, r, q) ∈ pre ->
            is_Some (prob_of64 (probs_spec64 weights rules) l r)) as Hcov.
  { intros l r q Hin. destruct (Hpre _ _ _ Hin) as [f Hf].
    apply stored_feats_Some in Hf as (row & Hl & Hr).
    rewrite (prob_of64_probs_spec64_Some _ _ _ _ _ _ Hl Hr). eauto. }
  destruct (first_raise_covered (probs_spec64 weights rules) pre Hcov)
    as [Hfirst_zero Hfirst_none].
  exists (probs_spec64 weights rules), s'. split_and!; [done..| |].
  - intros Hnz. unfold Float64.loglikelihood, bind. rewrite Hrun.
    unfold lift. f_equal.
    rewrite loglikelihood_of64_first_raise, Hsplit, first_raise_app.
    rewrite (Hfirst_none Hnz). simpl.
    rewrite logprob64_None; [done|]. by apply prob_of64_probs_spec64_None.
  - intros Hz. unfold Float64.loglikelihood, bind. rewrite Hrun.
    unfold lift. f_equal.
    rewrite loglikelihood_of64_first_raise, Hsplit, first_raise_app.
    by rewrite (Hfirst_zero Hz).
Qed.

(** The frequency table of the example with a rule of an LHS the model
    does not have. *)
Lemma loglikelihood_unknown_rule_KeyError_or_floor_witness :
  Float64.loglikelihood [("S", [(["B"], 1%Z)]); ("T", [(["A"], 1%Z)])]
    [1000%R] example_model
  = (Ok (Fin float_min), example_model).
Proof.
  destruct example_represents as [Hrep Hne].
  assert (Forall in_range [1000%R]) as Hw.
  { apply Forall_cons. split; [apply in_range_moderate; lra|apply Forall_nil_2]. }
  destruct (loglikelihood_unknown_rule_KeyError_or_floor (laws := dense_lawful)
              (LogLinModelFromFile._rules example_model) 1 example_model
              [("S", [(["B"], 1%Z)]); ("T", [(["A"], 1%Z)])] [1000%R]
              [("S", ["B"], 1%Z)] [] "T" ["A"] 1%Z Hrep Hne eq_refl Hw)
    as (probtable & s' & Hrun & [-> _] & _ & Hfloor).
  - reflexivity.
  - reflexivity.
  - intros l r q Hin. apply list_elem_of_singleton in Hin. simplify_eq.
    by exists [0%R].
  - apply Hfloor. exists "S", ["B"], 1%Z. split; [left|].
    destruct Hrep as [_ Hwf].
    pose proof (dense_probs_from_model64 _ 1 [1000%R] Hwf Hne eq_refl Hw)
      as Hrun'.
    change (LogLinModelFromFile.mk _ (Some 1)) with example_model in Hrun'.
    rewrite Hrun' in Hrun. injection Hrun as <-.
    change (prob_of64 (probs_spec64 [1000%R]
                         (LogLinModelFromFile._rules example_model)) "S" ["B"]
            = Some (Fin 0)).
    by rewrite example_probs_underflow.
Defined.
